(** * MolStandardize charge handling: Reionizer and Uncharger

    A shallow embedding of [Code/GraphMol/MolStandardize/Charge.cpp]
    (RDKit).  The molecule is a record of atoms and bonds; the routines of
    RDKit that [Charge.cpp] only calls (substructure matching, valence
    perception, canonical ranking, the periodic table) are variables of
    the section [Charge]; the two algorithms are functions over that
    interface, written statement by statement after the C++ text. *)

From Stdlib Require Import ZArith Lia String.
From stdpp Require Import base list gmap sets sorting.

Local Open Scope Z_scope.

(** ** The molecular graph

    [Charge.cpp] uses the molecule through [RWMol], [Atom] and [MolOps],
    which are declared elsewhere in RDKit.  This part follows the
    specification's description of that interface (sections 3 and 6). *)

(** Modelled from the spec: the bond types a molecular graph
    distinguishes; [Bond] is not among the sources and only the reference
    matcher below looks at bond types. *)
Inductive BondType := SINGLE | DOUBLE | TRIPLE | AROMATIC.

(** Modelled from the spec: the atom of the external MolecularGraph, which
    exposes atomic number, formal charge, explicit and implicit hydrogen
    counts, a no-implicit flag and an aromaticity flag.  The last two
    fields are the cached valence state that the refresh primitive
    recomputes; [-1] marks a value not yet computed. *)
Record Atom := mkAtom {
  d_atomicNum : Z;
  d_formalCharge : Z;
  d_numExplicitHs : Z;
  df_noImplicit : bool;
  df_isAromatic : bool;
  d_explicitValence : Z;
  d_implicitValence : Z
}.

(** Modelled from the spec: a bond of the external MolecularGraph, between
    two atom indices. *)
Record Bond := mkBond {
  beginAtomIdx : nat;
  endAtomIdx : nat;
  bondType : BondType
}.

(** Modelled from the spec: the external MolecularGraph, a mutable set of
    atoms and bonds; atoms are addressed by index. *)
Record Mol := mkMol {
  atoms : list Atom;
  bonds : list Bond
}.

(** A match maps query atoms to molecule atoms: [MatchVectType] is a
    vector of (query index, molecule index) pairs (line 124 reads the
    second component). *)
Definition MatchVectType := list (nat * nat).

(** Modelled from the spec: the atom count of the graph,
    [mol.getNumAtoms()]. *)
Definition getNumAtoms (mol : Mol) : nat := length (atoms mol).

(** Modelled from the spec: index-addressed read of an atom,
    [mol.getAtomWithIdx(idx)] followed by a getter.  The index is one the
    matcher returned, hence an atom of [mol] (see [matcher_wf]); outside of
    the molecule the read yields [dflt]. *)
Definition atomField {A} (f : Atom → A) (dflt : A) (mol : Mol) (idx : nat) : A :=
  match atoms mol !! idx with
  | Some a => f a
  | None => dflt
  end.

(** Modelled from the spec: the getters of the mutation primitives of
    section 6. *)
Definition getAtomicNum := atomField d_atomicNum 0.
Definition getFormalCharge := atomField d_formalCharge 0.
Definition getNumExplicitHs := atomField d_numExplicitHs 0.
Definition getNoImplicit := atomField df_noImplicit false.
Definition getIsAromatic := atomField df_isAromatic false.

(** Modelled from the spec: "get total/implicit hydrogen count".  An atom
    that disallows implicit hydrogens has none; otherwise their number is
    the cached implicit valence.  The total valence adds the cached
    explicit valence. *)
Definition atomImplicitValence (a : Atom) : Z :=
  if df_noImplicit a then 0 else d_implicitValence a.
Definition getNumImplicitHs := atomField atomImplicitValence 0.
Definition atomTotalNumHs (a : Atom) : Z := d_numExplicitHs a + atomImplicitValence a.
Definition getTotalNumHs := atomField atomTotalNumHs 0.
Definition atomTotalValence (a : Atom) : Z := d_explicitValence a + atomImplicitValence a.
Definition getTotalValence := atomField atomTotalValence 0.

(** Modelled from the spec: "in-place atom mutation ... as index-addressed
    accessor/mutator operations on the graph" (section 9); an index outside
    of the molecule changes nothing. *)
Definition modifyAtom (idx : nat) (f : Atom → Atom) (mol : Mol) : Mol :=
  mkMol (alter f idx (atoms mol)) (bonds mol).

(** Modelled from the spec: the setters of the mutation primitives of
    section 6, each changing one field. *)
Definition atomSetFormalCharge (what : Z) (a : Atom) : Atom :=
  mkAtom (d_atomicNum a) what (d_numExplicitHs a) (df_noImplicit a)
         (df_isAromatic a) (d_explicitValence a) (d_implicitValence a).
Definition atomSetNumExplicitHs (what : Z) (a : Atom) : Atom :=
  mkAtom (d_atomicNum a) (d_formalCharge a) what (df_noImplicit a)
         (df_isAromatic a) (d_explicitValence a) (d_implicitValence a).
Definition atomSetNoImplicit (what : bool) (a : Atom) : Atom :=
  mkAtom (d_atomicNum a) (d_formalCharge a) (d_numExplicitHs a) what
         (df_isAromatic a) (d_explicitValence a) (d_implicitValence a).
Definition atomSetValence (ev iv : Z) (a : Atom) : Atom :=
  mkAtom (d_atomicNum a) (d_formalCharge a) (d_numExplicitHs a) (df_noImplicit a)
         (df_isAromatic a) ev iv.

Definition setFormalCharge (idx : nat) (what : Z) := modifyAtom idx (atomSetFormalCharge what).
Definition setNumExplicitHs (idx : nat) (what : Z) := modifyAtom idx (atomSetNumExplicitHs what).
Definition setNoImplicit (idx : nat) (what : bool) := modifyAtom idx (atomSetNoImplicit what).

(** Modelled from the spec: the total charge of a molecule, "sum of all
    formal charges" (section 4.2), [MolOps::getFormalCharge]. *)
Definition sumCharges (l : list Atom) : Z :=
  foldr (λ a s, d_formalCharge a + s) 0 l.
Definition molFormalCharge (mol : Mol) : Z := sumCharges (atoms mol).

(** Modelled from the spec: "iterate neighbors", [mol.getAtomNeighbors]:
    the other ends of the bonds at [idx], in bond order. *)
Definition getAtomNeighbors (mol : Mol) (idx : nat) : list nat :=
  omap (λ b, if decide (beginAtomIdx b = idx) then Some (endAtomIdx b)
             else if decide (endAtomIdx b = idx) then Some (beginAtomIdx b)
             else None) (bonds mol).

(** [v.back()] and [v.front()] of a non-empty vector. *)
Definition back (v : list nat) : nat := List.last v 0%nat.
Definition front (mv : MatchVectType) : nat * nat := List.hd (0%nat, 0%nat) mv.

(** The part of an atom that the algorithms decide: formal charge,
    explicit hydrogen count and the no-implicit flag (the valence cache is
    derived state). *)
Definition chem (a : Atom) : Z * Z * bool :=
  (d_formalCharge a, d_numExplicitHs a, df_noImplicit a).
Definition molChem (mol : Mol) : list (Z * Z * bool) := chem <$> atoms mol.

(** A call that may throw: [Ok] carries the molecule after the call,
    [Exn] the molecule as the exception left it. *)
Inductive Result := Ok (mol : Mol) | Exn (mol : Mol).

(** 32-bit [unsigned int] and [int] arithmetic of the uncharger's counters. *)
Definition wrap_u32 (z : Z) : Z := z mod 2 ^ 32.
Definition wrap_i32 (z : Z) : Z := (z + 2 ^ 31) mod 2 ^ 32 - 2 ^ 31.

(** Modelled from the spec: the ChargeCorrectionRule of section 3, a name,
    a trigger pattern and a charge; [Charge.h], which declares
    [ChargeCorrection], is not among the sources, the field names are those
    used at lines 119-129. *)
Record ChargeCorrection := mkChargeCorrection {
  Name : string;
  Smarts : string;
  Charge : Z
}.

(** The default list of ChargeCorrections. *)
Definition CHARGE_CORRECTIONS : list ChargeCorrection :=
  [ mkChargeCorrection "[Li,Na,K]" "[Li,Na,K;X0+0]" 1;
    mkChargeCorrection "[Mg,Ca]" "[Mg,Ca;X0+0]" 2;
    mkChargeCorrection "[Cl]" "[Cl;X0+0]" (-1) ].

(** ** A reference instance of the external collaborators

    Executable stand-ins for the routines that [Charge.cpp] calls, used to
    run the algorithms on concrete molecules.  A pattern is given by the
    matches it has in a molecule; the four patterns of the [Uncharger]
    constructor are transcribed from their SMARTS (lines 295-309). *)
Module Ref.

Definition Pattern : Type := Mol → list MatchVectType.

(** Only matches that name atoms of the molecule are reported. *)
Definition validMatch (mol : Mol) (res : MatchVectType) : bool :=
  match res with
  | [] => false
  | _ => forallb (λ pr, snd pr <? getNumAtoms mol)%nat res
  end.

Definition SubstructMatches (mol : Mol) (query : Pattern) : list MatchVectType :=
  List.filter (validMatch mol) (query mol).

Definition SubstructMatch (mol : Mol) (query : Pattern) : option MatchVectType :=
  head (SubstructMatches mol query).

(** Neighbours over bonds of the given kinds. *)
Definition nbrsVia (ok : BondType → bool) (mol : Mol) (idx : nat) : list nat :=
  omap (λ b, if ok (bondType b)
             then if decide (beginAtomIdx b = idx) then Some (endAtomIdx b)
                  else if decide (endAtomIdx b = idx) then Some (beginAtomIdx b)
                  else None
             else None) (bonds mol).

(** SMARTS bonds: [~], the default (single or aromatic), and [=]. *)
Definition anyBond (t : BondType) : bool := true.
Definition defaultBond (t : BondType) : bool :=
  match t with SINGLE | AROMATIC => true | _ => false end.
Definition doubleBond (t : BondType) : bool :=
  match t with DOUBLE => true | _ => false end.

(** SMARTS atom primitives. *)
Definition isElem (zs : list Z) (aromatic : bool) (mol : Mol) (idx : nat) : bool :=
  bool_decide (getAtomicNum mol idx ∈ zs) && eqb (getIsAromatic mol idx) aromatic.
Definition hasCharge (cs : list Z) (mol : Mol) (idx : nat) : bool :=
  bool_decide (getFormalCharge mol idx ∈ cs).
Definition cation := hasCharge [1; 2; 3; 4].
Definition anion := hasCharge [-1].
Definition chalcogen := isElem [8; 16] false.

(** A pattern of one atom: its matches in ascending atom order. *)
Definition atomPattern (q : Mol → nat → bool) : Pattern :=
  λ mol, (λ idx, [(0%nat, idx)]) <$> List.filter (q mol) (seq 0 (getNumAtoms mol)).

(** The SMARTS of [neg_acid], lines 298-309. *)
Definition smarts_neg_acid : string :=
  "[$([O,S;-][C,S;+0]=[O,S]),$([O,S;-][N,P;+](=[O,S])[O,S;-]),$([O-][Cl,Br,I;+,+2,+3][O-]),$([n-]1nnnc1),$([n-]1ncnn1)]".

(** [pos_h], line 295: a charge of +1 to +4, at least one hydrogen, and
    either no neighbour of charge -1 or two of them. *)
Definition q_pos_h (mol : Mol) (idx : nat) : bool :=
  cation mol idx && negb (getTotalNumHs mol idx =? 0)
  && (negb (existsb (anion mol) (nbrsVia anyBond mol idx))
      || (2 <=? length (List.filter (anion mol) (nbrsVia anyBond mol idx)))%nat).

(** [pos_noh], line 296: a charge of +1 to +4, no hydrogen, no neighbour of
    charge -1. *)
Definition q_pos_noh (mol : Mol) (idx : nat) : bool :=
  cation mol idx && (getTotalNumHs mol idx =? 0)
  && negb (existsb (anion mol) (nbrsVia anyBond mol idx)).

(** [neg], line 297: charge -1 and no neighbour of charge +1 to +4. *)
Definition q_neg (mol : Mol) (idx : nat) : bool :=
  anion mol idx && negb (existsb (cation mol) (nbrsVia anyBond mol idx)).

(** First alternative of [smarts_neg_acid]: O or S of charge -1, bound to
    a neutral C or S that is doubly bound to another O or S. *)
Definition q_carboxylate (mol : Mol) (idx : nat) : bool :=
  chalcogen mol idx && anion mol idx
  && existsb (λ b, isElem [6; 16] false mol b && hasCharge [0] mol b
                   && existsb (λ c, negb (c =? idx)%nat && chalcogen mol c)
                              (nbrsVia doubleBond mol b))
             (nbrsVia defaultBond mol idx).

(** Second alternative: O or S of charge -1, bound to an N or P of charge
    +1 that is doubly bound to an O or S and bound to one more O or S of
    charge -1. *)
Definition q_nitrate (mol : Mol) (idx : nat) : bool :=
  chalcogen mol idx && anion mol idx
  && existsb (λ b, isElem [7; 15] false mol b && hasCharge [1] mol b
                   && existsb (λ c, negb (c =? idx)%nat && chalcogen mol c
                         && existsb (λ d, negb (d =? idx)%nat && negb (d =? c)%nat
                                          && chalcogen mol d && anion mol d)
                                    (nbrsVia defaultBond mol b))
                              (nbrsVia doubleBond mol b))
             (nbrsVia defaultBond mol idx).

(** Third alternative: O of charge -1, bound to a Cl, Br or I of charge +1
    to +3 that is bound to another O of charge -1. *)
Definition q_halate (mol : Mol) (idx : nat) : bool :=
  isElem [8] false mol idx && anion mol idx
  && existsb (λ b, isElem [17; 35; 53] false mol b && hasCharge [1; 2; 3] mol b
                   && existsb (λ c, negb (c =? idx)%nat && isElem [8] false mol c
                                    && anion mol c)
                              (nbrsVia defaultBond mol b))
             (nbrsVia defaultBond mol idx).

(** A five-membered ring [idx]-b-c-d-e closed by default bonds, the four
    other members taken in turn from [qb], [qc], [qd], [qe]. *)
Definition ring5 (qb qc qd qe : Mol → nat → bool) (mol : Mol) (idx : nat) : bool :=
  existsb (λ b, qb mol b && existsb (λ c, negb (c =? idx)%nat && qc mol c
    && existsb (λ d, negb (d =? idx)%nat && negb (d =? b)%nat && qd mol d
      && existsb (λ e, negb (e =? idx)%nat && negb (e =? b)%nat && negb (e =? c)%nat
                       && qe mol e
                       && bool_decide (idx ∈ nbrsVia defaultBond mol e))
                 (nbrsVia defaultBond mol d))
               (nbrsVia defaultBond mol c))
             (nbrsVia defaultBond mol b))
          (nbrsVia defaultBond mol idx).

(** Fourth and fifth alternative: the aromatic N of charge -1 of a
    tetrazole ring, written n-n-n-n-c and n-n-c-n-n. *)
Definition q_tetrazolate (mol : Mol) (idx : nat) : bool :=
  isElem [7] true mol idx && anion mol idx
  && (ring5 (isElem [7] true) (isElem [7] true) (isElem [7] true) (isElem [6] true) mol idx
      || ring5 (isElem [7] true) (isElem [6] true) (isElem [7] true) (isElem [7] true) mol idx).

Definition q_neg_acid (mol : Mol) (idx : nat) : bool :=
  q_carboxylate mol idx || q_nitrate mol idx || q_halate mol idx || q_tetrazolate mol idx.

(** The SMARTS of [CHARGE_CORRECTIONS]: an element, no connection (X0),
    no charge. *)
Definition q_bare (zs : list Z) (mol : Mol) (idx : nat) : bool :=
  isElem zs false mol idx
  && (Z.of_nat (length (nbrsVia anyBond mol idx)) + getTotalNumHs mol idx =? 0)
  && hasCharge [0] mol idx.

Definition SmartsToMol (smarts : string) : Pattern :=
  if String.eqb smarts "[Li,Na,K;X0+0]" then atomPattern (q_bare [3; 11; 19])
  else if String.eqb smarts "[Mg,Ca;X0+0]" then atomPattern (q_bare [12; 20])
  else if String.eqb smarts "[Cl;X0+0]" then atomPattern (q_bare [17])
  else λ _, [].

(** Two catalogue entries: [C(=O)[OH]] with [C(=O)[O-]], and [C[OH]] with
    [C[O-]].  The site atom is the last atom of a match. *)
Definition p_carboxyl (site : Mol → nat → bool) : Pattern :=
  λ mol,
    c ← List.filter (isElem [6] false mol) (seq 0 (getNumAtoms mol));
    o1 ← List.filter (isElem [8] false mol) (nbrsVia doubleBond mol c);
    o2 ← List.filter (λ o2, negb (o2 =? o1)%nat && site mol o2) (nbrsVia defaultBond mol c);
    [[(0%nat, c); (1%nat, o1); (2%nat, o2)]].

Definition p_hydroxyl (site : Mol → nat → bool) : Pattern :=
  λ mol,
    c ← List.filter (isElem [6] false mol) (seq 0 (getNumAtoms mol));
    o ← List.filter (site mol) (nbrsVia defaultBond mol c);
    [[(0%nat, c); (1%nat, o)]].

(** [[OH]] and [[O-]]. *)
Definition q_OH (mol : Mol) (idx : nat) : bool :=
  isElem [8] false mol idx && (getTotalNumHs mol idx =? 1) && hasCharge [0] mol idx.
Definition q_Ominus (mol : Mol) (idx : nat) : bool :=
  isElem [8] false mol idx && anion mol idx.

Definition abpairs : list (Pattern * Pattern) :=
  [ (p_carboxyl q_OH, p_carboxyl q_Ominus);
    (p_hydroxyl q_OH, p_hydroxyl q_Ominus) ].

(** Valence perception for molecules whose atoms all carry their hydrogens
    explicitly: the explicit valence counts bond orders and explicit
    hydrogens, nothing is implicit and nothing is rejected. *)
Definition bondOrder (t : BondType) : Z :=
  match t with SINGLE | AROMATIC => 1 | DOUBLE => 2 | TRIPLE => 3 end.
Definition calcExplicitValence (mol : Mol) (idx : nat) : Z :=
  foldr (λ b s, (if decide (beginAtomIdx b = idx ∨ endAtomIdx b = idx)
                 then bondOrder (bondType b) else 0) + s)
        (getNumExplicitHs mol idx) (bonds mol).
Definition calcImplicitValence (mol : Mol) (idx : nat) : Z := 0.
Definition valenceOk (mol : Mol) (idx : nat) : bool := true.

(** The periodic table, for the elements of the molecules below. *)
Definition getValenceList (atomicNum : Z) : list Z :=
  if atomicNum =? 6 then [4]
  else if atomicNum =? 7 then [3]
  else if atomicNum =? 8 then [2]
  else if atomicNum =? 11 then [1]
  else if atomicNum =? 17 then [1]
  else [-1].
Definition isEarlyAtom (atomicNum : Z) : bool :=
  bool_decide (atomicNum ∈ [3; 4; 5; 11; 12; 13; 19; 20]).

(** A ranking that differs from the atom order: the last atom ranks first. *)
Definition rankMolAtoms (mol : Mol) : list nat := reverse (seq 0 (getNumAtoms mol)).

(** A bracket atom: element, charge and hydrogen count as written. *)
Definition atom (atomicNum charge hs : Z) : Atom :=
  mkAtom atomicNum charge hs true false (-1) (-1).

(** [[CH](=O)[OH].[CH3][O-]]: formic acid and methoxide. *)
Definition formic_methoxide : Mol :=
  mkMol [atom 6 0 1; atom 8 0 0; atom 8 0 1; atom 6 0 3; atom 8 (-1) 0]
        [mkBond 0 1 DOUBLE; mkBond 0 2 SINGLE; mkBond 3 4 SINGLE].

(** [[O-][N+](=O)[O-]]: nitrate. *)
Definition nitrate : Mol :=
  mkMol [atom 8 (-1) 0; atom 7 1 0; atom 8 0 0; atom 8 (-1) 0]
        [mkBond 0 1 SINGLE; mkBond 1 2 DOUBLE; mkBond 1 3 SINGLE].

(** [[O-][NH+]([O-])[CH3].[NH4+].[NH4+]] *)
Definition nitronate_diammonium : Mol :=
  mkMol [atom 8 (-1) 0; atom 7 1 1; atom 8 (-1) 0; atom 6 0 3; atom 7 1 4; atom 7 1 4]
        [mkBond 0 1 SINGLE; mkBond 1 2 SINGLE; mkBond 1 3 SINGLE].

(** [[OH-].[Cl-]] *)
Definition hydroxide_chloride : Mol :=
  mkMol [atom 8 (-1) 1; atom 17 (-1) 0] [].

(** [[Cl-].[Na+].[Na+]] *)
Definition chloride_disodium : Mol :=
  mkMol [atom 17 (-1) 0; atom 11 1 0; atom 11 1 0] [].

(** [[Cl-].[Na+]] *)
Definition sodium_chloride : Mol :=
  mkMol [atom 17 (-1) 0; atom 11 1 0] [].

(** [[NH3+][CH2]C(=O)[O-]]: the zwitterion of glycine. *)
Definition glycine_zwitterion : Mol :=
  mkMol [atom 7 1 3; atom 6 0 2; atom 6 0 0; atom 8 0 0; atom 8 (-1) 0]
        [mkBond 0 1 SINGLE; mkBond 1 2 SINGLE; mkBond 2 3 DOUBLE; mkBond 2 4 SINGLE].

(** [[CH](=O)[OH].[Na]]: formic acid and an uncharged sodium atom. *)
Definition formic_sodium : Mol :=
  mkMol [atom 6 0 1; atom 8 0 0; atom 8 0 1; atom 11 0 0]
        [mkBond 0 1 DOUBLE; mkBond 0 2 SINGLE].

(** [[Na+].[O-][N+](=O)[O-]]: sodium nitrate. *)
Definition sodium_nitrate : Mol :=
  mkMol [atom 11 1 0; atom 8 (-1) 0; atom 7 1 0; atom 8 0 0; atom 8 (-1) 0]
        [mkBond 1 2 SINGLE; mkBond 2 3 DOUBLE; mkBond 2 4 SINGLE].

(** An atom written without brackets: no explicit hydrogen, implicit ones
    not disallowed, and its valences as perceived, explicit valence [ev]
    and implicit valence [iv]. *)
Definition perceived (atomicNum charge ev iv : Z) : Atom :=
  mkAtom atomicNum charge 0 false false ev iv.

(** Formic acid and methoxide again, the methoxide oxygen now an atom that
    does not disallow implicit hydrogens: it has none, its one bond makes
    its valence one. *)
Definition formic_methoxide_perceived : Mol :=
  mkMol [atom 6 0 1; atom 8 0 0; atom 8 0 1; atom 6 0 3; perceived 8 (-1) 1 0]
        [mkBond 0 1 DOUBLE; mkBond 0 2 SINGLE; mkBond 3 4 SINGLE].

End Ref.

Section Charge.

(** ** External collaborators *)

(** Query molecules ([ROMol] built by [SmartsToMol]). *)
Variable Pattern : Type.
Variable SmartsToMol : string → Pattern.

(** [SubstructMatch(mol, query, MatchVectType&)]: the first match, if any. *)
Variable SubstructMatch : Mol → Pattern → option MatchVectType.
(** [SubstructMatch(mol, query, std::vector<MatchVectType>&)]: all matches;
    the value returned by the call is their number. *)
Variable SubstructMatches : Mol → Pattern → list MatchVectType.

(** Valence perception behind [Atom::updatePropertyCache(strict)]: the
    explicit and implicit valence of an atom, and the check that makes the
    strict variant throw. *)
Variable calcExplicitValence : Mol → nat → Z.
Variable calcImplicitValence : Mol → nat → Z.
Variable valenceOk : Mol → nat → bool.

(** [PeriodicTable::getValenceList], [isEarlyAtom], [Canon::rankMolAtoms]. *)
Variable getValenceList : Z → list Z.
Variable isEarlyAtom : Z → bool.
Variable rankMolAtoms : Mol → list nat.

(** Modelled from the spec: "refresh cached valence state" (section 6),
    [atom->updatePropertyCache(strict)], which is not among the sources.
    The refresh stores the two perceived valences of the atom and touches
    nothing else. *)
Definition refreshValence (mol : Mol) (idx : nat) : Mol :=
  modifyAtom idx
    (atomSetValence (calcExplicitValence mol idx) (calcImplicitValence mol idx)) mol.

(** Modelled from the spec: the strict refresh, which throws when the
    valence check fails and otherwise refreshes; the lenient one always
    refreshes. *)
Definition updatePropertyCache (strict : bool) (mol : Mol) (idx : nat) : Result :=
  if strict && negb (valenceOk mol idx) then Exn mol
  else Ok (refreshValence mol idx).

(** Modelled from the spec: [mol.needsUpdatePropertyCache()], true when
    the cached valence state of some atom has not been computed. *)
Definition atomNeedsUpdate (a : Atom) : bool :=
  negb ((0 <=? d_explicitValence a) && (df_noImplicit a || (0 <=? d_implicitValence a))).
Definition needsUpdatePropertyCache (mol : Mol) : bool :=
  existsb atomNeedsUpdate (atoms mol).

(** Modelled from the spec: [mol.updatePropertyCache(false)], the lenient
    refresh of every atom. *)
Definition molUpdatePropertyCache (mol : Mol) : Mol :=
  foldl refreshValence mol (seq 0 (getNumAtoms mol)).

(** Lines 112-114 and 342-344. *)
Definition ensurePropertyCache (mol : Mol) : Mol :=
  if needsUpdatePropertyCache mol then molUpdatePropertyCache mol else mol.

(** ** Reionizer: the two catalogue scans *)

Definition AcidBasePairs := list (Pattern * Pattern).

(** [Reionizer::strongestProtonated]; [position] is the loop counter. *)
Fixpoint strongestProtonated_from (position : nat) (mol : Mol)
    (abpairs : AcidBasePairs) : option (nat * list nat) :=
  match abpairs with
  | [] => None
  | abpair :: rest =>
    match SubstructMatch mol (fst abpair) with
    | Some res => Some (position, snd <$> res)
    | None => strongestProtonated_from (S position) mol rest
    end
  end.

Definition strongestProtonated (mol : Mol) (abpairs : AcidBasePairs) :=
  strongestProtonated_from 0 mol abpairs.

(** [Reionizer::weakestIonized]: the same loop over the reversed catalogue;
    the rank returned is [abpairs.size() - position - 1]. *)
Fixpoint weakestIonized_from (size position : nat) (mol : Mol)
    (reversed : AcidBasePairs) : option (nat * list nat) :=
  match reversed with
  | [] => None
  | abpair :: rest =>
    match SubstructMatch mol (snd abpair) with
    | Some res => Some ((size - position - 1)%nat, snd <$> res)
    | None => weakestIonized_from size (S position) mol rest
    end
  end.

Definition weakestIonized (mol : Mol) (abpairs : AcidBasePairs) :=
  weakestIonized_from (length abpairs) 0 mol (reverse abpairs).

(** ** Reionizer *)

Record Reionizer := mkReionizer {
  d_abcat : AcidBasePairs;
  d_ccs : list ChargeCorrection
}.

(** Lines 117-133: one charge correction.  All matches of its SMARTS are
    computed first, then every matched atom gets the rule's charge. *)
Definition applyChargeCorrection (mol : Mol) (cc : ChargeCorrection) : Mol :=
  let res := SubstructMatches mol (SmartsToMol (Smarts cc)) in
  foldl (λ mol match_,
           foldl (λ mol pair, setFormalCharge (snd pair) (Charge cc) mol) mol match_)
        mol res.

Definition applyChargeCorrections (ccs : list ChargeCorrection) (mol : Mol) : Mol :=
  foldl applyChargeCorrection mol ccs.

(** Lines 152-167: the body of the deficit loop, for the match [poccur]. *)
Definition ionizeStep (mol : Mol) (poccur : list nat) : Result :=
  let patom := back poccur in
  let mol := setFormalCharge patom (getFormalCharge mol patom - 1) mol in
  let mol := if 0 <? getNumExplicitHs mol patom
             then setNumExplicitHs patom (getNumExplicitHs mol patom - 1) mol
             else mol in
  updatePropertyCache true mol patom.

(** Lines 144-169: [while (charge_diff > 0)].  [None] only when the fuel
    runs out; [deficitLoop_total] shows that [charge_diff] steps suffice. *)
Fixpoint deficitLoop (fuel : nat) (abpairs : AcidBasePairs) (charge_diff : Z)
    (mol : Mol) : option Result :=
  match fuel with
  | O => None
  | S fuel =>
    if 0 <? charge_diff then
      match strongestProtonated mol abpairs with
      | None => Some (Ok mol)
      | Some (ppos, poccur) =>
        match ionizeStep mol poccur with
        | Ok mol => deficitLoop fuel abpairs (charge_diff - 1) mol
        | Exn mol => Some (Exn mol)
        end
      end
    else Some (Ok mol)
  end.

(** Lines 143-170. *)
Definition deficitPhase (abpairs : AcidBasePairs) (current_charge charge_diff : Z)
    (mol : Mol) : option Result :=
  if negb (current_charge =? 0)
  then deficitLoop (S (Z.to_nat charge_diff)) abpairs charge_diff mol
  else Some (Ok mol).

(** Lines 194-195: the sorted two-element key. *)
Definition moveKey (a b : nat) : list nat :=
  if (a <=? b)%nat then [a; b] else [b; a].

(** Lines 214-223: remove a hydrogen from the strongest protonated atom. *)
Definition removeProton (mol : Mol) (patom : nat) : Result :=
  let mol := setFormalCharge patom (getFormalCharge mol patom - 1) mol in
  let mol := if (getNumImplicitHs mol patom =? 0) && (0 <? getNumExplicitHs mol patom)
             then setNumExplicitHs patom (getNumExplicitHs mol patom - 1) mol
             else mol in
  updatePropertyCache true mol patom.

(** Lines 226-241: add a hydrogen to the weakest ionized atom. *)
Definition addsExplicitH (mol : Mol) (patom iatom : nat) : bool :=
  let valence_list := getValenceList (getAtomicNum mol iatom) in
  let found := bool_decide (getTotalValence mol iatom ∈ valence_list) in
  getNoImplicit mol iatom
  || (((getAtomicNum mol patom =? 7) || (getAtomicNum mol patom =? 15))
      && getIsAromatic mol patom)
  || negb found.

Definition addProton (mol : Mol) (patom iatom : nat) : Result :=
  let mol := setFormalCharge iatom (getFormalCharge mol iatom + 1) mol in
  let mol := if addsExplicitH mol patom iatom
             then setNumExplicitHs iatom (getNumExplicitHs mol iatom + 1) mol
             else mol in
  updatePropertyCache true mol iatom.

Definition moveProton (mol : Mol) (patom iatom : nat) : Result :=
  match removeProton mol patom with
  | Ok mol => addProton mol patom iatom
  | Exn mol => Exn mol
  end.

(** One pass through the body of [while (true)], lines 177-247. *)
Inductive Step :=
| Break
| Continue (mol : Mol) (already_moved : gset (list nat))
| Throw (mol : Mol).

Definition balanceStep (abpairs : AcidBasePairs) (mol : Mol)
    (already_moved : gset (list nat)) : Step :=
  match strongestProtonated mol abpairs, weakestIonized mol abpairs with
  | Some (ppos, poccur), Some (ipos, ioccur) =>
    if (ppos <? ipos)%nat then
      if (back poccur =? back ioccur)%nat then Break
      else
        let key := moveKey (back poccur) (back ioccur) in
        if decide (key ∈ already_moved) then Break
        else
          let already_moved := {[key]} ∪ already_moved in
          match moveProton mol (back poccur) (back ioccur) with
          | Ok mol => Continue mol already_moved
          | Exn mol => Throw mol
          end
    else Break
  | _, _ => Break
  end.

(** Lines 175-248.  [None] only when the fuel runs out. *)
Fixpoint balanceLoop (fuel : nat) (abpairs : AcidBasePairs) (mol : Mol)
    (already_moved : gset (list nat)) : option Result :=
  match fuel with
  | O => None
  | S fuel =>
    match balanceStep abpairs mol already_moved with
    | Break => Some (Ok mol)
    | Continue mol already_moved => balanceLoop fuel abpairs mol already_moved
    | Throw mol => Some (Exn mol)
    end
  end.

(** The number of unordered pairs of distinct atoms. *)
Definition numPairs (n : nat) : nat := (n * (n - 1) / 2)%nat.

(** [Reionizer::reionizeInPlace]. *)
Definition reionizeInPlace (r : Reionizer) (mol : Mol) : option Result :=
  let abpairs := d_abcat r in
  let mol := ensurePropertyCache mol in
  let start_charge := molFormalCharge mol in
  let mol := applyChargeCorrections (d_ccs r) mol in
  let current_charge := molFormalCharge mol in
  let charge_diff := current_charge - start_charge in
  match deficitPhase abpairs current_charge charge_diff mol with
  | Some (Ok mol) => balanceLoop (S (numPairs (getNumAtoms mol))) abpairs mol ∅
  | other => other
  end.

(** [n] completed proton transfers lead from one loop state to another. *)
Inductive transfers (abpairs : AcidBasePairs) :
    nat → Mol * gset (list nat) → Mol * gset (list nat) → Prop :=
| transfers_O st : transfers abpairs 0 st st
| transfers_S n mol am mol' am' st :
    balanceStep abpairs mol am = Continue mol' am' →
    transfers abpairs n (mol', am') st →
    transfers abpairs (S n) (mol, am) st.

(** ** Uncharger *)

Record Uncharger := mkUncharger {
  pos_h : Pattern;
  pos_noh : Pattern;
  neg : Pattern;
  neg_acid : Pattern;
  df_canonicalOrdering : bool;
  df_force : bool
}.

(** [neutralizeNeg], lines 311-319. *)
Definition neutralizeNeg (mol : Mol) (atom : nat) (hDelta : Z) : Mol :=
  let mol := setNumExplicitHs atom (getTotalNumHs mol atom + hDelta) mol in
  let mol := setNoImplicit atom true mol in
  let mol := setFormalCharge atom (getFormalCharge mol atom + 1) mol in
  refreshValence mol atom.

(** [neutralizeNegIfPossible], lines 321-333. *)
Definition neutralizeNegIfPossible (mol : Mol) (atom : nat) : bool * Mol :=
  let is_early_atom := isEarlyAtom (getAtomicNum mol atom) in
  let has_hs := negb (getTotalNumHs mol atom =? 0) in
  if is_early_atom && negb has_hs then (false, mol)
  else
    let hDelta := if is_early_atom then -1 else 1 in
    (true, neutralizeNeg mol atom hDelta).

(** Lines 353-356: [q_matched] is an [unsigned int]. *)
Definition sumQMatched (mol : Mol) (q_matches : list MatchVectType) : Z :=
  foldl (λ q_matched match_,
           wrap_u32 (q_matched + getFormalCharge mol (snd (front match_))))
        0 q_matches.

(** Lines 368-371: the lambda [getRankIdxPair]. *)
Definition getRankIdxPair (atomRanks : list nat) (mv : MatchVectType) : nat * nat :=
  let aidx := snd (front mv) in
  (default 0%nat (atomRanks !! aidx), aidx).

(** [std::sort] of a vector of pairs: the order is [operator<] of
    [std::pair], that is lexicographic. *)
Definition pair_le (x y : nat * nat) : Prop :=
  (fst x < fst y)%nat ∨ (fst x = fst y ∧ (snd x ≤ snd y)%nat).

#[local] Instance pair_le_dec x y : Decision (pair_le x y).
Proof. unfold pair_le. apply _. Defined.

Definition std_sort (v : list (nat * nat)) : list (nat * nat) := merge_sort pair_le v.

(** Lines 393-404: the matches of [neg] that are not acid sites.  A
    [dynamic_bitset] is the set of the indices whose bit is set. *)
Definition nonAcidsOf (mol : Mol) (a_atoms : list (nat * nat)) : gset nat :=
  foldl (λ nonAcids pair, nonAcids ∖ {[snd pair]})
        (list_to_set (seq 0 (getNumAtoms mol))) a_atoms.

Definition pushNonAcids (nonAcids : gset nat) (n_atoms : list (nat * nat))
  : list (nat * nat) :=
  filter (λ pair, snd pair ∈ nonAcids) n_atoms.

(** Lines 413-427: the loop over the neighbours of an acid atom, which
    stops at the first neighbour with a positive charge. *)
Fixpoint scanNeighbors (mol : Mol) (idx : nat) (nbrs : list nat)
    (skipChargeSep : gset nat) : gset nat :=
  match nbrs with
  | [] => skipChargeSep
  | nbrIdx :: rest =>
    if 0 <? getFormalCharge mol nbrIdx then
      if decide (nbrIdx ∈ skipChargeSep) then {[idx]} ∪ skipChargeSep
      else {[nbrIdx]} ∪ skipChargeSep
    else scanNeighbors mol idx rest skipChargeSep
  end.

(** Lines 409-428. *)
Definition skipChargeSepOf (mol : Mol) (a_atoms : list (nat * nat)) : gset nat :=
  foldl (λ skipChargeSep pair,
           scanNeighbors mol (snd pair) (getAtomNeighbors mol (snd pair)) skipChargeSep)
        ∅ a_atoms.

(** Lines 429-435. *)
Definition pushAcids (skipChargeSep : gset nat) (a_atoms : list (nat * nat))
  : list (nat * nat) :=
  filter (λ pair, snd pair ∉ skipChargeSep) a_atoms.

(** Lines 388-435: the negative-site processing list. *)
Definition buildNegAtoms (mol : Mol) (n_atoms a_atoms : list (nat * nat))
  : list (nat * nat) :=
  pushNonAcids (nonAcidsOf mol a_atoms) n_atoms
  ++ pushAcids (skipChargeSepOf mol a_atoms) a_atoms.

(** Lines 439-445: [int neg_surplus], from which the [unsigned int]
    [q_matched] is subtracted. *)
Definition initialSurplus (force : bool) (neg_atoms : list (nat * nat)) (q_matched : Z) : Z :=
  let neg_surplus := wrap_i32 (Z.of_nat (length neg_atoms)) in
  if negb force then wrap_i32 (neg_surplus - q_matched) else neg_surplus.

(** Lines 449-455: [!--neg_surplus] is evaluated only when the atom was
    neutralized. *)
Fixpoint negLoop (neg_atoms : list (nat * nat)) (neg_surplus : Z) (mol : Mol) : Mol :=
  match neg_atoms with
  | [] => mol
  | pr :: rest =>
    let '(done_, mol) := neutralizeNegIfPossible mol (snd pr) in
    if done_ then
      let neg_surplus := wrap_i32 (neg_surplus - 1) in
      if neg_surplus =? 0 then mol else negLoop rest neg_surplus mol
    else negLoop rest neg_surplus mol
  end.

(** Lines 448-456. *)
Definition negPass (neg_atoms : list (nat * nat)) (neg_surplus : Z) (mol : Mol) : Mol :=
  if negb (neg_surplus =? 0) then negLoop neg_atoms neg_surplus mol else mol.

(** Lines 477-497: the [while] loop on one cation; every turn lowers the
    atom's charge, so [fuel] turns suffice when [fuel] is that charge. *)
Fixpoint posWhile (fuel : nat) (atom : nat) (netCharge : Z) (mol : Mol) : Mol * Z :=
  match fuel with
  | O => (mol, netCharge)
  | S fuel =>
    if (0 <? getFormalCharge mol atom) && (0 <? netCharge) then
      let mol := setFormalCharge atom (getFormalCharge mol atom - 1) mol in
      let netCharge := netCharge - 1 in
      if negb (getAtomicNum mol atom =? 6) && negb (isEarlyAtom (getAtomicNum mol atom)) then
        let nExplicit := getNumExplicitHs mol atom in
        let mol := if 1 <=? nExplicit then setNumExplicitHs atom (nExplicit - 1) mol else mol in
        if nExplicit =? 1 then (mol, netCharge)
        else posWhile fuel atom netCharge (refreshValence mol atom)
      else
        let mol := setNumExplicitHs atom (getNumExplicitHs mol atom + 1) mol in
        posWhile fuel atom netCharge (refreshValence mol atom)
    else (mol, netCharge)
  end.

(** Lines 472-501. *)
Fixpoint posLoop (p_idx_matches : list nat) (netCharge : Z) (mol : Mol) : Mol :=
  match p_idx_matches with
  | [] => mol
  | idx :: rest =>
    let mol := setNumExplicitHs idx (getTotalNumHs mol idx) mol in
    let mol := setNoImplicit idx true mol in
    let '(mol, netCharge) :=
      posWhile (Z.to_nat (getFormalCharge mol idx)) idx netCharge mol in
    if netCharge =? 0 then mol else posLoop rest netCharge mol
  end.

(** Lines 459-502. *)
Definition posPass (p_matches : list MatchVectType) (mol : Mol) : Mol :=
  let netCharge := foldl (λ netCharge at_, netCharge + d_formalCharge at_) 0 (atoms mol) in
  if 0 <? netCharge then
    let p_idx_matches := concat (List.map (List.map snd) p_matches) in
    posLoop p_idx_matches netCharge mol
  else mol.

(** The state of [unchargeInPlace] at line 436, before anything is
    mutated. *)
Record UnchargeAccounting := mkAccounting {
  p_matches : list MatchVectType;
  q_matched : Z;
  atomRanks : list nat;
  n_atoms : list (nat * nat);
  a_atoms : list (nat * nat);
  neg_atoms : list (nat * nat)
}.

(** Lines 345-435. *)
Definition accounting (u : Uncharger) (mol : Mol) : UnchargeAccounting :=
  let p_matches := SubstructMatches mol (pos_h u) in
  let q_matches := SubstructMatches mol (pos_noh u) in
  let q_matched := sumQMatched mol q_matches in
  let n_matches := SubstructMatches mol (neg u) in
  let n_matched := length n_matches in
  let a_matches := SubstructMatches mol (neg_acid u) in
  let a_matched := length a_matches in
  let needsNeutralization :=
    (0 <? q_matched) && ((0 <? n_matched)%nat || (0 <? a_matched)%nat) in
  let atomRanks :=
    if df_canonicalOrdering u && needsNeutralization then rankMolAtoms mol
    else seq 0 (getNumAtoms mol) in
  let n_atoms := getRankIdxPair atomRanks <$> n_matches in
  let a_atoms := getRankIdxPair atomRanks <$> a_matches in
  let n_atoms := if df_canonicalOrdering u then std_sort n_atoms else n_atoms in
  let a_atoms := if df_canonicalOrdering u then std_sort a_atoms else a_atoms in
  mkAccounting p_matches q_matched atomRanks n_atoms a_atoms
               (buildNegAtoms mol n_atoms a_atoms).

(** [Uncharger::unchargeInPlace]. *)
Definition unchargeInPlace (u : Uncharger) (mol : Mol) : Mol :=
  let mol := ensurePropertyCache mol in
  let acc := accounting u mol in
  let neg_surplus := initialSurplus (df_force u) (neg_atoms acc) (q_matched acc) in
  let mol := negPass (neg_atoms acc) neg_surplus mol in
  posPass (p_matches acc) mol.

(** ** Vocabulary of the properties *)

(** The matcher's contract: a match is not empty and names atoms of the
    molecule. *)
Definition matchOk (mol : Mol) (res : MatchVectType) : Prop :=
  res ≠ [] ∧ ∀ pr, pr ∈ res → (snd pr < getNumAtoms mol)%nat.

Definition matcher_wf (mol : Mol) : Prop :=
  ∀ pat res, SubstructMatch mol pat = Some res → matchOk mol res.

(** The two halves of a transfer, as functions of the atom they change
    (the valence cache apart). *)
Definition atomRemoveProton (a : Atom) : Atom :=
  let a := atomSetFormalCharge (d_formalCharge a - 1) a in
  if (atomImplicitValence a =? 0) && (0 <? d_numExplicitHs a)
  then atomSetNumExplicitHs (d_numExplicitHs a - 1) a else a.

Definition atomAddProton (addH : bool) (b : Atom) : Atom :=
  let b := atomSetFormalCharge (d_formalCharge b + 1) b in
  if addH then atomSetNumExplicitHs (d_numExplicitHs b + 1) b else b.

(** The sorted keys over [n] atoms. *)
Definition allKeys (n : nat) : list (list nat) :=
  seq 0 n ≫= λ b, (λ a, [a; b]) <$> seq 0 b.

(** The loop invariant: every key recorded so far is a sorted pair of two
    different atoms of the molecule. *)
Definition keysOf (mol : Mol) (am : gset (list nat)) : Prop :=
  ∀ k, k ∈ am → k ∈ allKeys (getNumAtoms mol).

(** [n] ionizations, each of the strongest protonated site of its
    molecule, lead from one molecule to another. *)
Inductive ionizations (abpairs : AcidBasePairs) : nat → Mol → Mol → Prop :=
| ionizations_O mol : ionizations abpairs 0 mol mol
| ionizations_S n mol ppos poccur mol1 mol' :
    strongestProtonated mol abpairs = Some (ppos, poccur) →
    ionizeStep mol poccur = Ok mol1 →
    ionizations abpairs n mol1 mol' →
    ionizations abpairs (S n) mol mol'.

(** Every atom of the list is tried, none is left out by the surplus
    running out. *)
Definition negAll (neg_atoms : list (nat * nat)) (mol : Mol) : Mol :=
  foldl (λ mol pr, snd (neutralizeNegIfPossible mol (snd pr))) mol neg_atoms.

(** An atom that [neutralizeNegIfPossible] does not refuse. *)
Definition neutralizable (mol : Mol) (atom : nat) : bool :=
  negb (isEarlyAtom (getAtomicNum mol atom) && (getTotalNumHs mol atom =? 0)).

(** The test of line 360. *)
Definition needsNeutralization (u : Uncharger) (mol : Mol) : bool :=
  (0 <? sumQMatched mol (SubstructMatches mol (pos_noh u)))
  && ((0 <? length (SubstructMatches mol (neg u)))%nat
      || (0 <? length (SubstructMatches mol (neg_acid u)))%nat).

(** The first neighbour of [idx] that carries a positive charge. *)
Definition positiveNeighbor (mol : Mol) (idx : nat) : option nat :=
  head (filter (λ nbr, 0 < getFormalCharge mol nbr) (getAtomNeighbors mol idx)).

(** Two positions of the acid list whose atoms have the same first
    positive neighbour, the atom [x] sitting at the later one. *)
Definition sharesWithEarlier (mol : Mol) (a_atoms : list (nat * nat)) (x : nat) : Prop :=
  ∃ i j pi pj nbr, (i < j)%nat ∧ a_atoms !! i = Some pi ∧ a_atoms !! j = Some pj ∧
    snd pj = x ∧
    positiveNeighbor mol (snd pi) = Some nbr ∧ positiveNeighbor mol (snd pj) = Some nbr.

(** The molecule a call leaves behind, whether it returned or threw. *)
Definition resultMol (res : Result) : Mol :=
  match res with Ok mol => mol | Exn mol => mol end.

(** What no routine of [Charge.cpp] changes on an atom: its element and
    its aromaticity. *)
Definition atomKind (a : Atom) : Z * bool := (d_atomicNum a, df_isAromatic a).

(** The graph under the charges: the kinds of the atoms and the bonds. *)
Definition skeleton (mol : Mol) : list (Z * bool) * list Bond :=
  (atomKind <$> atoms mol, bonds mol).

(** The no-implicit flags of the atoms. *)
Definition noImplicitFlags (mol : Mol) : list bool := df_noImplicit <$> atoms mol.

(** No atom has a negative explicit hydrogen count. *)
Definition explicitHsNonneg (mol : Mol) : Prop :=
  ∀ i a, atoms mol !! i = Some a → 0 ≤ d_numExplicitHs a.

(** The molecule atoms named by a list of matches, lines 122-124. *)
Definition matchedAtoms (res : list MatchVectType) : list nat :=
  concat (List.map (List.map snd) res).

(** The contract of the matcher for the call that returns all matches. *)
Definition matches_wf (mol : Mol) : Prop :=
  ∀ pat res, res ∈ SubstructMatches mol pat → matchOk mol res.

(** The sum of [f] over a list of atom indices. *)
Definition sumOver (f : nat → Z) (l : list nat) : Z := foldr (λ i s, f i + s) 0 l.

(** Setting the formal charge of the atoms of a list, one after the other. *)
Definition setCharges (what : Z) (l : list nat) (ats : list Atom) : list Atom :=
  foldr (λ i ats, alter (atomSetFormalCharge what) i ats) ats l.

(** A view [g] of an atom that does not depend on its formal charge, its
    explicit hydrogen count or its cached valences. *)
Definition chargeBlind {A} (g : Atom → A) : Prop :=
  ∀ a, (∀ c, g (atomSetFormalCharge c a) = g a) ∧
       (∀ h, g (atomSetNumExplicitHs h a) = g a) ∧
       (∀ ev iv, g (atomSetValence ev iv a) = g a).

(** Element, aromaticity and no-implicit flag of an atom. *)
Definition atomFrame (a : Atom) : Z * bool * bool :=
  (d_atomicNum a, df_isAromatic a, df_noImplicit a).

(** The number of atoms of the list that [negAll] neutralizes. *)
Fixpoint negCount (neg_atoms : list (nat * nat)) (mol : Mol) : nat :=
  match neg_atoms with
  | [] => 0
  | pr :: rest =>
    let '(done_, mol) := neutralizeNegIfPossible mol (snd pr) in
    ((if done_ then 1 else 0) + negCount rest mol)%nat
  end.

(** One turn of the [while] loop of lines 477-497 lowers the charge of the
    atom by one and touches nothing else that the accounting looks at. *)
Definition lowered (atom : nat) (d : Z) (mol mol' : Mol) : Prop :=
  molFormalCharge mol' = molFormalCharge mol - d ∧
  getFormalCharge mol' atom = getFormalCharge mol atom - d ∧
  getNumAtoms mol' = getNumAtoms mol ∧
  (∀ j, j ≠ atom → atoms mol' !! j = atoms mol !! j) ∧
  bonds mol' = bonds mol.

(** What [unchargeInPlace] keeps of an atom: its element and aromaticity,
    and its no-implicit flag once it is set. *)
Definition atomKept (a a' : Atom) : Prop :=
  atomKind a' = atomKind a ∧ (df_noImplicit a = true → df_noImplicit a' = true).

Definition molKept (mol mol' : Mol) : Prop :=
  bonds mol' = bonds mol ∧ Forall2 atomKept (atoms mol) (atoms mol').

(** No atom has a negative explicit hydrogen count or a negative cached
    implicit valence. *)
Definition hydrogensNonneg (mol : Mol) : Prop :=
  ∀ i a, atoms mol !! i = Some a → 0 ≤ d_numExplicitHs a ∧ 0 ≤ d_implicitValence a.

(** Every formal charge is -1, 0 or +1. *)
Definition unitCharges (mol : Mol) : Prop := ∀ i, -1 ≤ getFormalCharge mol i ≤ 1.

(** No bond joins a negatively charged atom and a positively charged one. *)
Definition noIonPairs (mol : Mol) : Prop :=
  ∀ b, b ∈ bonds mol →
    0 ≤ getFormalCharge mol (beginAtomIdx b) * getFormalCharge mol (endAtomIdx b).

(** A molecule whose ions are apart. *)
Definition ionsApart (mol : Mol) : Prop := unitCharges mol ∧ noIonPairs mol.

(** The atoms that [getRankIdxPair] takes from a list of matches, lines
    368-371. *)
Definition fronts (ms : list MatchVectType) : list nat := (λ mv, snd (front mv)) <$> ms.

(** The sites of charge on a molecule whose ions are apart: a cation with
    hydrogens, a cation without, an anion. *)
Definition posHSite (mol : Mol) (i : nat) : Prop :=
  (i < getNumAtoms mol)%nat ∧ 0 < getFormalCharge mol i ∧ getTotalNumHs mol i ≠ 0.
Definition posNoHSite (mol : Mol) (i : nat) : Prop :=
  (i < getNumAtoms mol)%nat ∧ 0 < getFormalCharge mol i ∧ getTotalNumHs mol i = 0.
Definition negSite (mol : Mol) (i : nat) : Prop :=
  (i < getNumAtoms mol)%nat ∧ getFormalCharge mol i < 0.

(** What the SMARTS of the constructor, lines 295-309, select on a
    molecule whose ions are apart, where no atom has a neighbour of the
    opposite charge: [pos_h] the cations with hydrogens, [pos_noh] the
    cations without, [neg] the anions, [neg_acid] some of the anions; each
    pattern is one atom, matched once per atom. *)
Definition patternsAsWritten (u : Uncharger) : Prop :=
  ∀ mol, ionsApart mol →
    (NoDup (matchedAtoms (SubstructMatches mol (pos_h u))) ∧
     ∀ i, i ∈ matchedAtoms (SubstructMatches mol (pos_h u)) ↔ posHSite mol i) ∧
    (NoDup (fronts (SubstructMatches mol (pos_noh u))) ∧
     ∀ i, i ∈ fronts (SubstructMatches mol (pos_noh u)) ↔ posNoHSite mol i) ∧
    (NoDup (fronts (SubstructMatches mol (neg u))) ∧
     ∀ i, i ∈ fronts (SubstructMatches mol (neg u)) ↔ negSite mol i) ∧
    (NoDup (fronts (SubstructMatches mol (neg_acid u))) ∧
     ∀ i, i ∈ fronts (SubstructMatches mol (neg_acid u)) → negSite mol i).

(** An atom whose explicit hydrogen count is not negative and whose
    valence cache is computed. *)
Definition atomCached (a : Atom) : Prop :=
  0 ≤ d_numExplicitHs a ∧ 0 ≤ d_explicitValence a ∧
  (df_noImplicit a = true ∨ 0 ≤ d_implicitValence a).
Definition molCached (mol : Mol) : Prop :=
  ∀ i a, atoms mol !! i = Some a → atomCached a.

(** * Properties *)

(** ** The catalogue scans *)

Lemma strongestProtonated_from_Some k mol abpairs r occ :
  strongestProtonated_from k mol abpairs = Some (r, occ) ↔
  ∃ i p res, r = (k + i)%nat ∧ abpairs !! i = Some p ∧
    SubstructMatch mol (fst p) = Some res ∧ occ = snd <$> res ∧
    ∀ j q, (j < i)%nat → abpairs !! j = Some q → SubstructMatch mol (fst q) = None.
Proof.
  revert k. induction abpairs as [|ab rest IH]; intros k; simpl.
  - split; [done|]. intros (i & p & res & _ & Hp & _). by destruct i.
  - destruct (SubstructMatch mol (fst ab)) as [res|] eqn:Hm.
    + split.
      * intros [= <- <-]. exists 0%nat, ab, res.
        repeat split; [lia|done..|]. intros j q Hj. lia.
      * intros (i & p & res' & -> & Hp & Hres & -> & Hbefore).
        destruct i as [|i].
        -- simpl in Hp. injection Hp as <-. rewrite Hm in Hres.
           injection Hres as <-. do 2 f_equal. lia.
        -- specialize (Hbefore 0%nat ab ltac:(lia) eq_refl). congruence.
    + rewrite IH. split.
      * intros (i & p & res & -> & Hp & Hres & -> & Hbefore).
        exists (S i), p, res. repeat split; [lia|done..|].
        intros [|j] q Hj Hq; simpl in Hq.
        -- by injection Hq as <-.
        -- eapply Hbefore; [|done]. lia.
      * intros (i & p & res & -> & Hp & Hres & -> & Hbefore).
        destruct i as [|i]; simpl in Hp.
        -- injection Hp as <-. congruence.
        -- exists i, p, res. repeat split; [lia|done..|].
           intros j q Hj Hq. apply (Hbefore (S j) q); [lia|done].
Qed.

Lemma strongestProtonated_from_None k mol abpairs :
  strongestProtonated_from k mol abpairs = None ↔
  ∀ q, q ∈ abpairs → SubstructMatch mol (fst q) = None.
Proof.
  revert k. induction abpairs as [|ab rest IH]; intros k; simpl.
  - split; [|done]. intros _ q Hq. by apply elem_of_nil in Hq.
  - destruct (SubstructMatch mol (fst ab)) as [res|] eqn:Hm.
    + split; [done|]. intros H. rewrite (H ab) in Hm; [done|]. by left.
    + rewrite IH. split.
      * intros H q [->|Hq]%elem_of_cons; auto.
      * intros H q Hq. apply H. by right.
Qed.

Lemma weakestIonized_from_Some size k mol reversed r occ :
  weakestIonized_from size k mol reversed = Some (r, occ) ↔
  ∃ i p res, r = (size - (k + i) - 1)%nat ∧ reversed !! i = Some p ∧
    SubstructMatch mol (snd p) = Some res ∧ occ = snd <$> res ∧
    ∀ j q, (j < i)%nat → reversed !! j = Some q → SubstructMatch mol (snd q) = None.
Proof.
  revert k. induction reversed as [|ab rest IH]; intros k; simpl.
  - split; [done|]. intros (i & p & res & _ & Hp & _). by destruct i.
  - destruct (SubstructMatch mol (snd ab)) as [res|] eqn:Hm.
    + split.
      * intros [= <- <-]. exists 0%nat, ab, res.
        repeat split; [f_equal; lia|done..|]. intros j q Hj. lia.
      * intros (i & p & res' & -> & Hp & Hres & -> & Hbefore).
        destruct i as [|i].
        -- simpl in Hp. injection Hp as <-. rewrite Hm in Hres.
           injection Hres as <-. do 2 f_equal. lia.
        -- specialize (Hbefore 0%nat ab ltac:(lia) eq_refl). congruence.
    + rewrite IH. split.
      * intros (i & p & res & -> & Hp & Hres & -> & Hbefore).
        exists (S i), p, res. repeat split; [f_equal; lia|done..|].
        intros [|j] q Hj Hq; simpl in Hq.
        -- by injection Hq as <-.
        -- eapply Hbefore; [|done]. lia.
      * intros (i & p & res & -> & Hp & Hres & -> & Hbefore).
        destruct i as [|i]; simpl in Hp.
        -- injection Hp as <-. congruence.
        -- exists i, p, res. repeat split; [f_equal; lia|done..|].
           intros j q Hj Hq. apply (Hbefore (S j) q); [lia|done].
Qed.

Lemma weakestIonized_from_None size k mol reversed :
  weakestIonized_from size k mol reversed = None ↔
  ∀ q, q ∈ reversed → SubstructMatch mol (snd q) = None.
Proof.
  revert k. induction reversed as [|ab rest IH]; intros k; simpl.
  - split; [|done]. intros _ q Hq. by apply elem_of_nil in Hq.
  - destruct (SubstructMatch mol (snd ab)) as [res|] eqn:Hm.
    + split; [done|]. intros H. rewrite (H ab) in Hm; [done|]. by left.
    + rewrite IH. split.
      * intros H q [->|Hq]%elem_of_cons; auto.
      * intros H q Hq. apply H. by right.
Qed.

(** What [strongestProtonated] answers, in terms of the catalogue. *)
Lemma strongestProtonated_Some mol abpairs r occ :
  strongestProtonated mol abpairs = Some (r, occ) ↔
  ∃ p res, abpairs !! r = Some p ∧ SubstructMatch mol (fst p) = Some res ∧
    occ = snd <$> res ∧
    ∀ j q, (j < r)%nat → abpairs !! j = Some q → SubstructMatch mol (fst q) = None.
Proof.
  unfold strongestProtonated. rewrite strongestProtonated_from_Some. split.
  - intros (i & p & res & -> & ?). by exists p, res.
  - intros (p & res & ?). by exists r, p, res.
Qed.

(** What [weakestIonized] answers, in terms of the catalogue. *)
Lemma weakestIonized_Some mol abpairs r occ :
  weakestIonized mol abpairs = Some (r, occ) ↔
  ∃ p res, abpairs !! r = Some p ∧ SubstructMatch mol (snd p) = Some res ∧
    occ = snd <$> res ∧
    ∀ j q, (r < j)%nat → abpairs !! j = Some q → SubstructMatch mol (snd q) = None.
Proof.
  unfold weakestIonized. rewrite weakestIonized_from_Some. split.
  - intros (i & p & res & -> & Hp & Hres & -> & Hafter).
    apply reverse_lookup_Some in Hp as [Hp Hi].
    exists p, res. repeat split; [|done|].
    + rewrite <- Hp. f_equal. lia.
    + intros j q Hj Hq. pose proof (lookup_lt_Some _ _ _ Hq) as Hlen.
      apply (Hafter (length abpairs - S j)%nat q); [lia|].
      apply reverse_lookup_Some. split; [|lia].
      rewrite <- Hq. f_equal. lia.
  - intros (p & res & Hp & Hres & -> & Hafter).
    pose proof (lookup_lt_Some _ _ _ Hp) as Hlen.
    exists (length abpairs - S r)%nat, p, res. repeat split; [lia| |done|].
    + apply reverse_lookup_Some. split; [|lia]. rewrite <- Hp. f_equal. lia.
    + intros j q Hj [Hq Hj']%reverse_lookup_Some.
      apply (Hafter (length abpairs - S j)%nat q); [lia|done].
Qed.

(** C5. [strongestProtonated] returns the lowest rank whose protonated
    pattern matches, with the molecule atoms of that match, and nothing
    when no protonated pattern matches; [weakestIonized] returns the
    highest rank whose ionized pattern matches, as an index into the
    catalogue itself, and nothing when no ionized pattern matches.  Both
    are functions of a molecule they cannot change: their only output is
    the optional pair. *)
Theorem catalogue_scans mol abpairs :
  (∀ r occ, strongestProtonated mol abpairs = Some (r, occ) ↔
     ∃ p res, abpairs !! r = Some p ∧ SubstructMatch mol (fst p) = Some res ∧
       occ = snd <$> res ∧
       ∀ j q, (j < r)%nat → abpairs !! j = Some q →
              SubstructMatch mol (fst q) = None) ∧
  (strongestProtonated mol abpairs = None ↔
     ∀ q, q ∈ abpairs → SubstructMatch mol (fst q) = None) ∧
  (∀ r occ, weakestIonized mol abpairs = Some (r, occ) ↔
     ∃ p res, abpairs !! r = Some p ∧ SubstructMatch mol (snd p) = Some res ∧
       occ = snd <$> res ∧
       ∀ j q, (r < j)%nat → abpairs !! j = Some q →
              SubstructMatch mol (snd q) = None) ∧
  (weakestIonized mol abpairs = None ↔
     ∀ q, q ∈ abpairs → SubstructMatch mol (snd q) = None).
Proof.
  split_and!.
  - apply strongestProtonated_Some.
  - apply strongestProtonated_from_None.
  - apply weakestIonized_Some.
  - unfold weakestIonized. rewrite weakestIonized_from_None.
    split; intros H q Hq; apply H; by apply elem_of_reverse.
Qed.

(** ** Reading atoms after an in-place change *)

Lemma atomField_modifyAtom {A} (g : Atom → A) d i f mol j :
  atomField g d (modifyAtom i f mol) j =
  if decide (i = j)
  then match atoms mol !! i with Some a => g (f a) | None => d end
  else atomField g d mol j.
Proof.
  unfold atomField, modifyAtom; simpl. case_decide as Hij.
  - subst j. rewrite list_lookup_alter_eq. by destruct (atoms mol !! i).
  - by rewrite list_lookup_alter_ne.
Qed.

Lemma getNumAtoms_modifyAtom i f mol :
  getNumAtoms (modifyAtom i f mol) = getNumAtoms mol.
Proof. unfold getNumAtoms, modifyAtom; simpl. apply length_alter. Qed.

Lemma lookup_modifyAtom i f mol j :
  atoms (modifyAtom i f mol) !! j =
  if decide (i = j) then f <$> atoms mol !! i else atoms mol !! j.
Proof.
  unfold modifyAtom; simpl. case_decide as Hij.
  - subst. apply list_lookup_alter_eq.
  - by apply list_lookup_alter_ne.
Qed.

Lemma sumCharges_alter f i l :
  sumCharges (alter f i l) =
  sumCharges l
  + match l !! i with Some a => d_formalCharge (f a) - d_formalCharge a | None => 0 end.
Proof.
  unfold sumCharges. revert i.
  induction l as [|a l IH]; intros [|i]; simpl; try lia.
  specialize (IH i). unfold alter in IH. rewrite IH. destruct (l !! i); lia.
Qed.

Lemma molFormalCharge_modifyAtom i f mol :
  molFormalCharge (modifyAtom i f mol) =
  molFormalCharge mol - getFormalCharge mol i + getFormalCharge (modifyAtom i f mol) i.
Proof.
  unfold getFormalCharge. rewrite atomField_modifyAtom, decide_True by done.
  unfold molFormalCharge, atomField, modifyAtom; simpl.
  rewrite sumCharges_alter. destruct (atoms mol !! i); lia.
Qed.

(** Unfold the accessors down to [atomField] and [modifyAtom]. *)
Ltac unfold_atom_ops :=
  unfold getFormalCharge, getNumExplicitHs, getNoImplicit, getIsAromatic,
    getAtomicNum, getNumImplicitHs, getTotalNumHs, getTotalValence,
    setFormalCharge, setNumExplicitHs, setNoImplicit, refreshValence in *.

Lemma back_matchOk mol res :
  matchOk mol res → (back (snd <$> res) < getNumAtoms mol)%nat.
Proof.
  intros [Hne Hall]. unfold back.
  destruct (last (snd <$> res)) as [x|] eqn:Hlast.
  - assert (x ∈ snd <$> res) as Hx by by apply last_Some_elem_of.
    apply list_elem_of_fmap in Hx as (pr & -> & Hpr).
    replace (List.last (snd <$> res) 0%nat) with (snd pr); [by apply Hall|].
    apply last_Some in Hlast as [l' Hl']. rewrite Hl'.
    by rewrite List.last_last.
  - apply last_None in Hlast. by destruct res.
Qed.

Lemma strongestProtonated_site mol abpairs ppos poccur :
  matcher_wf mol →
  strongestProtonated mol abpairs = Some (ppos, poccur) →
  (back poccur < getNumAtoms mol)%nat.
Proof.
  intros Hwf (p & res & _ & Hres & -> & _)%strongestProtonated_Some.
  apply back_matchOk. by eapply Hwf.
Qed.

Lemma weakestIonized_site mol abpairs ipos ioccur :
  matcher_wf mol →
  weakestIonized mol abpairs = Some (ipos, ioccur) →
  (back ioccur < getNumAtoms mol)%nat.
Proof.
  intros Hwf (p & res & _ & Hres & -> & _)%weakestIonized_Some.
  apply back_matchOk. by eapply Hwf.
Qed.

(** ** One proton transfer *)

Lemma removeProton_lookup mol patom a mol' :
  atoms mol !! patom = Some a →
  removeProton mol patom = Ok mol' →
  bonds mol' = bonds mol ∧
  ∃ ev iv, ∀ j, atoms mol' !! j =
    if decide (patom = j) then Some (atomSetValence ev iv (atomRemoveProton a))
    else atoms mol !! j.
Proof.
  intros Ha. unfold removeProton, updatePropertyCache.
  destruct (_ && _) eqn:Hstrict; [done|]. clear Hstrict. intros [= <-].
  unfold_atom_ops. rewrite !atomField_modifyAtom, !decide_True, Ha by done.
  unfold atomRemoveProton, atomField. rewrite Ha.
  destruct (_ && _); (split; [done|]); eexists _, _; intros j;
    rewrite !lookup_modifyAtom, Ha;
    repeat case_decide; try done; simpl; reflexivity.
Qed.

Lemma addProton_lookup mol patom iatom b mol' :
  atoms mol !! iatom = Some b →
  addProton mol patom iatom = Ok mol' →
  bonds mol' = bonds mol ∧
  ∃ ev iv, ∀ j, atoms mol' !! j =
    if decide (iatom = j)
    then Some (atomSetValence ev iv
                 (atomAddProton
                    (addsExplicitH (setFormalCharge iatom (d_formalCharge b + 1) mol)
                                   patom iatom) b))
    else atoms mol !! j.
Proof.
  intros Hb. unfold addProton, updatePropertyCache.
  destruct (_ && _) eqn:Hstrict; [done|]. clear Hstrict. intros [= <-].
  replace (getFormalCharge mol iatom) with (d_formalCharge b)
    by (unfold getFormalCharge, atomField; by rewrite Hb).
  destruct (addsExplicitH _ _ _); (split; [done|]); eexists _, _; intros j;
    unfold_atom_ops; rewrite ?atomField_modifyAtom, ?decide_True by done;
    rewrite !lookup_modifyAtom, Hb;
    repeat case_decide; try done; simpl; reflexivity.
Qed.

Lemma addsExplicitH_lookup mol mol' patom iatom :
  d_atomicNum <$> atoms mol' !! patom = d_atomicNum <$> atoms mol !! patom →
  df_isAromatic <$> atoms mol' !! patom = df_isAromatic <$> atoms mol !! patom →
  d_atomicNum <$> atoms mol' !! iatom = d_atomicNum <$> atoms mol !! iatom →
  df_noImplicit <$> atoms mol' !! iatom = df_noImplicit <$> atoms mol !! iatom →
  atomTotalValence <$> atoms mol' !! iatom = atomTotalValence <$> atoms mol !! iatom →
  addsExplicitH mol' patom iatom = addsExplicitH mol patom iatom.
Proof.
  intros H1 H2 H3 H4 H5. unfold addsExplicitH. unfold_atom_ops. unfold atomField.
  destruct (atoms mol' !! patom), (atoms mol !! patom),
    (atoms mol' !! iatom), (atoms mol !! iatom); simplify_eq/=; try done.
  all: repeat match goal with H : _ = _ |- _ => rewrite H; clear H end; done.
Qed.

Lemma moveProton_lookup mol patom iatom a b mol' :
  patom ≠ iatom →
  atoms mol !! patom = Some a →
  atoms mol !! iatom = Some b →
  moveProton mol patom iatom = Ok mol' →
  bonds mol' = bonds mol ∧
  ∃ evp ivp evi ivi, ∀ j, atoms mol' !! j =
    if decide (patom = j) then Some (atomSetValence evp ivp (atomRemoveProton a))
    else if decide (iatom = j)
      then Some (atomSetValence evi ivi (atomAddProton (addsExplicitH mol patom iatom) b))
      else atoms mol !! j.
Proof.
  intros Hne Ha Hb. unfold moveProton.
  destruct (removeProton mol patom) as [mol1|] eqn:Hrem; [|done].
  destruct (removeProton_lookup _ _ _ _ Ha Hrem) as (Hbonds1 & evp & ivp & Hmol1).
  intros Hadd.
  assert (atoms mol1 !! iatom = Some b) as Hb1
    by (by rewrite Hmol1, decide_False).
  destruct (addProton_lookup _ _ _ _ _ Hb1 Hadd) as (Hbonds' & evi & ivi & Hmol').
  split; [congruence|]. exists evp, ivp, evi, ivi. intros j.
  rewrite Hmol'. destruct (decide (iatom = j)) as [<-|Hi].
  - rewrite decide_False by done. do 3 f_equal.
    apply addsExplicitH_lookup; unfold setFormalCharge;
      rewrite lookup_modifyAtom, ?Hmol1;
      repeat case_decide; simplify_eq/=; rewrite ?Ha, ?Hb; simpl; try done.
    + unfold atomRemoveProton. by destruct (_ && _).
    + unfold atomRemoveProton. by destruct (_ && _).
  - by rewrite Hmol1.
Qed.

(** When the loop body completes a transfer. *)
Lemma balanceStep_Continue abpairs mol am mol' am' :
  balanceStep abpairs mol am = Continue mol' am' ↔
  ∃ ppos poccur ipos ioccur,
    strongestProtonated mol abpairs = Some (ppos, poccur) ∧
    weakestIonized mol abpairs = Some (ipos, ioccur) ∧
    (ppos < ipos)%nat ∧ back poccur ≠ back ioccur ∧
    (moveKey (back poccur) (back ioccur) ∉ am) ∧
    am' = {[moveKey (back poccur) (back ioccur)]} ∪ am ∧
    moveProton mol (back poccur) (back ioccur) = Ok mol'.
Proof.
  unfold balanceStep. split.
  - destruct (strongestProtonated mol abpairs) as [[ppos poccur]|]; [|done].
    destruct (weakestIonized mol abpairs) as [[ipos ioccur]|]; [|done].
    destruct (ppos <? ipos)%nat eqn:Hlt; [|done].
    destruct (back poccur =? back ioccur)%nat eqn:Heq; [done|].
    case_decide as Hin; [done|].
    destruct (moveProton _ _ _) as [mol1|] eqn:Hmove; [|done].
    intros [= <- <-]. exists ppos, poccur, ipos, ioccur.
    apply Nat.ltb_lt in Hlt. apply Nat.eqb_neq in Heq. done.
  - intros (ppos & poccur & ipos & ioccur & -> & -> & Hlt & Hne & Hin & -> & Hmove).
    apply Nat.ltb_lt in Hlt. apply Nat.eqb_neq in Hne. rewrite Hlt, Hne.
    rewrite decide_False by done. by rewrite Hmove.
Qed.

(** C3, as the code has it.  In a completed transfer the acid atom loses
    one unit of formal charge, and one explicit hydrogen exactly when it
    had no implicit hydrogen and at least one explicit one; the base atom
    gains one unit of formal charge, and one explicit hydrogen exactly
    when it disallows implicit hydrogens, or the acid atom is an aromatic
    nitrogen or phosphorus, or its total valence as cached when the test
    is made, which is its valence before the transfer, is not in the
    valence list of its element. *)
Theorem proton_transfer_effect abpairs mol am mol' am' :
  matcher_wf mol →
  balanceStep abpairs mol am = Continue mol' am' →
  ∃ ppos poccur ipos ioccur,
    strongestProtonated mol abpairs = Some (ppos, poccur) ∧
    weakestIonized mol abpairs = Some (ipos, ioccur) ∧
    let patom := back poccur in
    let iatom := back ioccur in
    getFormalCharge mol' patom = getFormalCharge mol patom - 1 ∧
    getNumExplicitHs mol' patom =
      (if (getNumImplicitHs mol patom =? 0) && (0 <? getNumExplicitHs mol patom)
       then getNumExplicitHs mol patom - 1 else getNumExplicitHs mol patom) ∧
    getFormalCharge mol' iatom = getFormalCharge mol iatom + 1 ∧
    getNumExplicitHs mol' iatom =
      (if getNoImplicit mol iatom
          || (((getAtomicNum mol patom =? 7) || (getAtomicNum mol patom =? 15))
              && getIsAromatic mol patom)
          || negb (bool_decide (getTotalValence mol iatom
                                ∈ getValenceList (getAtomicNum mol iatom)))
       then getNumExplicitHs mol iatom + 1 else getNumExplicitHs mol iatom).
Proof.
  intros Hwf (ppos & poccur & ipos & ioccur & Hsp & Hwi & _ & Hne & _ & _ & Hmove)
    %balanceStep_Continue.
  exists ppos, poccur, ipos, ioccur. split; [done|]. split; [done|].
  pose proof (strongestProtonated_site _ _ _ _ Hwf Hsp) as Hp.
  pose proof (weakestIonized_site _ _ _ _ Hwf Hwi) as Hi.
  apply lookup_lt_is_Some_2 in Hp as [a Ha]. apply lookup_lt_is_Some_2 in Hi as [b Hb].
  destruct (moveProton_lookup _ _ _ _ _ _ Hne Ha Hb Hmove)
    as (_ & evp & ivp & evi & ivi & Hmol').
  pose proof (Hmol' (back poccur)) as Hpa. rewrite decide_True in Hpa by done.
  pose proof (Hmol' (back ioccur)) as Hib.
  rewrite decide_False, decide_True in Hib by done.
  cbv zeta. unfold_atom_ops. unfold atomField. rewrite Hpa, Hib, Ha, Hb.
  unfold atomRemoveProton, atomAddProton. simpl.
  unfold atomImplicitValence, addsExplicitH; unfold_atom_ops; unfold atomField.
  rewrite Ha, Hb. simpl.
  split_and!; repeat (destruct (_ || _) || destruct (_ && _)); done.
Qed.

Lemma moveProton_molFormalCharge mol patom iatom mol' :
  patom ≠ iatom →
  (patom < getNumAtoms mol)%nat → (iatom < getNumAtoms mol)%nat →
  moveProton mol patom iatom = Ok mol' →
  molFormalCharge mol' = molFormalCharge mol.
Proof.
  intros Hne [a Ha]%lookup_lt_is_Some_2 [b Hb]%lookup_lt_is_Some_2 Hmove.
  destruct (moveProton_lookup _ _ _ _ _ _ Hne Ha Hb Hmove)
    as (_ & evp & ivp & evi & ivi & Hmol').
  set (a' := atomSetValence evp ivp (atomRemoveProton a)) in *.
  set (b' := atomSetValence evi ivi (atomAddProton (addsExplicitH mol patom iatom) b)) in *.
  assert (atoms mol' = alter (λ _, b') iatom (alter (λ _, a') patom (atoms mol))) as Heq.
  { apply list_eq. intros j. rewrite Hmol'.
    destruct (decide (patom = j)) as [<-|Hpj].
    - by rewrite list_lookup_alter_ne, list_lookup_alter_eq, Ha.
    - destruct (decide (iatom = j)) as [<-|Hij].
      + by rewrite list_lookup_alter_eq, list_lookup_alter_ne, Hb.
      + by rewrite !list_lookup_alter_ne. }
  unfold molFormalCharge. rewrite Heq, !sumCharges_alter.
  rewrite list_lookup_alter_ne, Ha, Hb by done.
  subst a' b'. unfold atomRemoveProton, atomAddProton. simpl.
  destruct (_ && _), (addsExplicitH _ _ _); simpl; lia.
Qed.

(** C9. A completed transfer lowers the formal charge of the acid atom by
    one, raises that of the base atom by one and leaves the formal charge
    of every other atom as it was, so the sum of the formal charges does
    not change. *)
Theorem transfer_conserves_charge abpairs mol am mol' am' :
  matcher_wf mol →
  balanceStep abpairs mol am = Continue mol' am' →
  ∃ ppos poccur ipos ioccur,
    strongestProtonated mol abpairs = Some (ppos, poccur) ∧
    weakestIonized mol abpairs = Some (ipos, ioccur) ∧
    molFormalCharge mol' = molFormalCharge mol ∧
    getFormalCharge mol' (back poccur) = getFormalCharge mol (back poccur) - 1 ∧
    getFormalCharge mol' (back ioccur) = getFormalCharge mol (back ioccur) + 1 ∧
    ∀ j, j ≠ back poccur → j ≠ back ioccur →
         getFormalCharge mol' j = getFormalCharge mol j.
Proof.
  intros Hwf Hstep.
  pose proof Hstep as
    (ppos & poccur & ipos & ioccur & Hsp & Hwi & _ & Hne & _ & _ & Hmove)
    %balanceStep_Continue.
  exists ppos, poccur, ipos, ioccur. split; [done|]. split; [done|].
  pose proof (strongestProtonated_site _ _ _ _ Hwf Hsp) as Hp.
  pose proof (weakestIonized_site _ _ _ _ Hwf Hwi) as Hi.
  split; [by eapply moveProton_molFormalCharge|].
  apply lookup_lt_is_Some_2 in Hp as [a Ha]. apply lookup_lt_is_Some_2 in Hi as [b Hb].
  destruct (moveProton_lookup _ _ _ _ _ _ Hne Ha Hb Hmove)
    as (_ & evp & ivp & evi & ivi & Hmol').
  unfold getFormalCharge, atomField. rewrite !Hmol', Ha, Hb.
  rewrite decide_True, decide_False, decide_True by done.
  unfold atomRemoveProton, atomAddProton. simpl. split_and!.
  - by destruct (_ && _).
  - by destruct (addsExplicitH _ _ _).
  - intros j Hjp Hji. by rewrite Hmol', !decide_False.
Qed.

(** ** The balancing loop stops *)

Lemma length_allKeys n : length (allKeys n) = numPairs n.
Proof.
  unfold allKeys, numPairs. induction n as [|n IH]; [done|].
  rewrite seq_S, bind_app, length_app, IH.
  replace (length ([(0 + n)%nat] ≫= λ b, (λ a, [a; b]) <$> seq 0 b)) with n
    by (simpl; by rewrite app_nil_r, length_fmap, length_seq).
  destruct n as [|n]; [done|].
  replace (S (S n) - 1)%nat with (S n) by lia.
  replace (S n - 1)%nat with n by lia.
  replace (S (S n) * S n)%nat with (S n * n + S n * 2)%nat by nia.
  rewrite Nat.div_add by done. lia.
Qed.

Lemma moveKey_allKeys n a b :
  a ≠ b → (a < n)%nat → (b < n)%nat → moveKey a b ∈ allKeys n.
Proof.
  intros Hne Ha Hb. unfold allKeys, moveKey. apply list_elem_of_bind.
  destruct (a <=? b)%nat eqn:Hle.
  - apply Nat.leb_le in Hle. exists b. split.
    + apply list_elem_of_fmap. exists a. split; [done|]. apply elem_of_seq. lia.
    + apply elem_of_seq. lia.
  - apply Nat.leb_gt in Hle. exists a. split.
    + apply list_elem_of_fmap. exists b. split; [done|]. apply elem_of_seq. lia.
    + apply elem_of_seq. lia.
Qed.

Lemma size_keys_bound (n : nat) (am : gset (list nat)) :
  (∀ k, k ∈ am → k ∈ allKeys n) → (size am ≤ numPairs n)%nat.
Proof.
  intros Hsub. rewrite <- length_allKeys. unfold size, set_size; simpl.
  apply submseteq_length, NoDup_submseteq; [apply NoDup_elements|].
  intros k Hk. apply Hsub. by apply elem_of_elements.
Qed.

Lemma removeProton_numAtoms mol patom mol' :
  removeProton mol patom = Ok mol' → getNumAtoms mol' = getNumAtoms mol.
Proof.
  unfold removeProton, updatePropertyCache.
  destruct (_ && _); [done|]. intros [= <-]. unfold_atom_ops.
  destruct (_ && _); by rewrite !getNumAtoms_modifyAtom.
Qed.

Lemma addProton_numAtoms mol patom iatom mol' :
  addProton mol patom iatom = Ok mol' → getNumAtoms mol' = getNumAtoms mol.
Proof.
  unfold addProton, updatePropertyCache.
  destruct (_ && _); [done|]. intros [= <-]. unfold_atom_ops.
  destruct (addsExplicitH _ _ _); by rewrite !getNumAtoms_modifyAtom.
Qed.

Lemma balanceStep_numAtoms abpairs mol am mol' am' :
  balanceStep abpairs mol am = Continue mol' am' →
  getNumAtoms mol' = getNumAtoms mol.
Proof.
  intros (ppos & poccur & ipos & ioccur & _ & _ & _ & _ & _ & _ & Hmove)
    %balanceStep_Continue.
  unfold moveProton in Hmove.
  destruct (removeProton _ _) as [mol1|] eqn:Hrem; [|done].
  apply removeProton_numAtoms in Hrem. apply addProton_numAtoms in Hmove. congruence.
Qed.

Lemma balanceStep_keysOf abpairs mol am mol' am' :
  matcher_wf mol → keysOf mol am →
  balanceStep abpairs mol am = Continue mol' am' →
  keysOf mol' am' ∧ size am' = S (size am).
Proof.
  intros Hwf Hinv Hstep. pose proof (balanceStep_numAtoms _ _ _ _ _ Hstep) as HN.
  apply balanceStep_Continue in Hstep
    as (ppos & poccur & ipos & ioccur & Hsp & Hwi & _ & Hne & Hnew & -> & _).
  pose proof (strongestProtonated_site _ _ _ _ Hwf Hsp) as Hp.
  pose proof (weakestIonized_site _ _ _ _ Hwf Hwi) as Hi.
  split.
  - intros k [->%elem_of_singleton|Hk]%elem_of_union; rewrite HN.
    + by apply moveKey_allKeys.
    + by apply Hinv.
  - rewrite size_union by (by apply disjoint_singleton_l). by rewrite size_singleton.
Qed.

Lemma transfers_bound abpairs n mol am st :
  (∀ m, matcher_wf m) → keysOf mol am →
  transfers abpairs n (mol, am) st →
  getNumAtoms (fst st) = getNumAtoms mol ∧ keysOf (fst st) (snd st) ∧
  size (snd st) = (size am + n)%nat.
Proof.
  intros Hwf Hinv Htr. remember (mol, am) as st0 eqn:Hst0.
  revert mol am Hinv Hst0.
  induction Htr as [st|n mol1 am1 mol2 am2 st Hstep Htr IH]; intros mol am Hinv Hst0.
  - subst st. simpl. split_and!; [done..|lia].
  - injection Hst0 as -> ->.
    destruct (balanceStep_keysOf _ _ _ _ _ (Hwf mol) Hinv Hstep) as [Hinv' Hsize].
    destruct (IH _ _ Hinv' eq_refl) as (HN & Hinv'' & Hsize').
    rewrite (balanceStep_numAtoms _ _ _ _ _ Hstep) in HN.
    split_and!; [done..|lia].
Qed.

Lemma balanceLoop_total abpairs fuel mol am :
  (∀ m, matcher_wf m) → keysOf mol am →
  (numPairs (getNumAtoms mol) - size am < fuel)%nat →
  ∃ res, balanceLoop fuel abpairs mol am = Some res.
Proof.
  intros Hwf. revert mol am.
  induction fuel as [|fuel IH]; intros mol am Hinv Hfuel; [lia|]. simpl.
  destruct (balanceStep abpairs mol am) as [|mol' am'|mol'] eqn:Hstep; [by eexists| |by eexists].
  destruct (balanceStep_keysOf _ _ _ _ _ (Hwf mol) Hinv Hstep) as [Hinv' Hsize].
  pose proof (balanceStep_numAtoms _ _ _ _ _ Hstep) as HN.
  pose proof (size_keys_bound _ _ Hinv') as Hbound.
  apply IH; [done|]. rewrite HN in *. lia.
Qed.

(** More fuel does not change the outcome of the loop. *)
Lemma balanceLoop_fuel abpairs fuel k mol am res :
  balanceLoop fuel abpairs mol am = Some res →
  balanceLoop (fuel + k) abpairs mol am = Some res.
Proof.
  revert mol am. induction fuel as [|fuel IH]; intros mol am; [done|]. simpl.
  destruct (balanceStep abpairs mol am); [done|apply IH|done].
Qed.


Lemma balanceStep_Break abpairs mol am :
  balanceStep abpairs mol am = Break ↔
  strongestProtonated mol abpairs = None ∨
  weakestIonized mol abpairs = None ∨
  ∃ ppos poccur ipos ioccur,
    strongestProtonated mol abpairs = Some (ppos, poccur) ∧
    weakestIonized mol abpairs = Some (ipos, ioccur) ∧
    (¬ (ppos < ipos)%nat ∨
     back poccur = back ioccur ∨
     moveKey (back poccur) (back ioccur) ∈ am).
Proof.
  unfold balanceStep.
  destruct (strongestProtonated mol abpairs) as [[ppos poccur]|]; [|split; auto].
  destruct (weakestIonized mol abpairs) as [[ipos ioccur]|]; [|split; auto].
  destruct (ppos <? ipos)%nat eqn:Hlt.
  - apply Nat.ltb_lt in Hlt.
    destruct (back poccur =? back ioccur)%nat eqn:Heq.
    + apply Nat.eqb_eq in Heq. split; [|done]. intros _. right. right.
      exists ppos, poccur, ipos, ioccur. auto.
    + apply Nat.eqb_neq in Heq. case_decide as Hin.
      * split; [|done]. intros _. right. right.
        exists ppos, poccur, ipos, ioccur. auto.
      * split; [by destruct (moveProton _ _ _)|].
        intros [?|[?|(? & ? & ? & ? & [= <- <-] & [= <- <-] & [?|[?|?]])]]; done.
  - apply Nat.ltb_ge in Hlt. split; [|done]. intros _. right. right.
    exists ppos, poccur, ipos, ioccur. split_and!; [done..|]. left. lia.
Qed.

Lemma balanceLoop_Ok abpairs fuel mol am mol' :
  balanceLoop fuel abpairs mol am = Some (Ok mol') →
  ∃ n am', (n < fuel)%nat ∧ transfers abpairs n (mol, am) (mol', am') ∧
           balanceStep abpairs mol' am' = Break.
Proof.
  revert mol am. induction fuel as [|fuel IH]; intros mol am; [done|]. simpl.
  destruct (balanceStep abpairs mol am) as [|mol1 am1|mol1] eqn:Hstep; [| |done].
  - intros [= <-]. exists 0%nat, am. split_and!; [lia|constructor|done].
  - intros (n & am' & Hn & Htr & Hbreak)%IH. exists (S n), am'.
    split_and!; [lia| |done]. by econstructor.
Qed.

Lemma transfers_balanceLoop abpairs n mol am mol' am' fuel :
  transfers abpairs n (mol, am) (mol', am') →
  balanceLoop (n + fuel) abpairs mol am = balanceLoop fuel abpairs mol' am'.
Proof.
  intros Htr. remember (mol, am) as st eqn:Hst. remember (mol', am') as st' eqn:Hst'.
  revert mol am Hst. induction Htr as [st|n mol1 am1 mol2 am2 st Hstep Htr IH];
    intros mol am Hst.
  - by simplify_eq.
  - injection Hst as -> ->. simpl. rewrite Hstep. by apply IH.
Qed.

(** C4. The loop body breaks out of the loop exactly when a scan finds no
    site, or the acid's rank is not below the base's, or both sites are the
    same atom, or the key of the two atoms is already recorded.  A break
    returns the molecule as it stands, without an exception, so whatever
    the earlier transfers changed stays changed: the loop returns normally
    with [mol'] exactly when some number of completed transfers leads
    from the initial state to a state with molecule [mol'] in which the
    body breaks. *)
Theorem balancing_stops abpairs mol am :
  (balanceStep abpairs mol am = Break ↔
     strongestProtonated mol abpairs = None ∨
     weakestIonized mol abpairs = None ∨
     ∃ ppos poccur ipos ioccur,
       strongestProtonated mol abpairs = Some (ppos, poccur) ∧
       weakestIonized mol abpairs = Some (ipos, ioccur) ∧
       (¬ (ppos < ipos)%nat ∨
        back poccur = back ioccur ∨
        moveKey (back poccur) (back ioccur) ∈ am)) ∧
  (balanceStep abpairs mol am = Break →
     ∀ fuel, balanceLoop (S fuel) abpairs mol am = Some (Ok mol)) ∧
  (∀ mol',
     (∃ fuel, balanceLoop fuel abpairs mol am = Some (Ok mol')) ↔
     (∃ n am', transfers abpairs n (mol, am) (mol', am') ∧
               balanceStep abpairs mol' am' = Break)).
Proof.
  split_and!.
  - apply balanceStep_Break.
  - intros Hbreak fuel. simpl. by rewrite Hbreak.
  - intros mol'. split.
    + intros [fuel (n & am' & _ & Htr & Hbreak)%balanceLoop_Ok]. by exists n, am'.
    + intros (n & am' & Htr & Hbreak). exists (n + 1)%nat.
      rewrite (transfers_balanceLoop _ _ _ _ _ _ _ Htr). simpl. by rewrite Hbreak.
Qed.

(** ** The deficit-compensation phase *)

Lemma ionizeStep_lookup mol poccur a mol' :
  atoms mol !! back poccur = Some a →
  ionizeStep mol poccur = Ok mol' →
  ∃ a', atoms mol' !! back poccur = Some a' ∧
    d_formalCharge a' = d_formalCharge a - 1 ∧
    d_numExplicitHs a' =
      (if 0 <? d_numExplicitHs a then d_numExplicitHs a - 1 else d_numExplicitHs a) ∧
    df_noImplicit a' = df_noImplicit a ∧
    ∀ j, j ≠ back poccur → atoms mol' !! j = atoms mol !! j.
Proof.
  intros Ha. unfold ionizeStep, updatePropertyCache.
  destruct (_ && _) eqn:Hstrict; [done|]. clear Hstrict. intros [= <-].
  unfold_atom_ops. rewrite !atomField_modifyAtom, !decide_True by done.
  unfold atomField. rewrite Ha.
  change (d_numExplicitHs (atomSetFormalCharge (d_formalCharge a - 1) a))
    with (d_numExplicitHs a).
  destruct (0 <? d_numExplicitHs a); eexists;
    (split; [rewrite !lookup_modifyAtom, !decide_True, Ha by done; reflexivity|]);
    (split_and!; [done..|]);
    intros j Hj; by rewrite !lookup_modifyAtom, !decide_False.
Qed.

Lemma deficitLoop_total abpairs fuel charge_diff mol :
  (Z.to_nat charge_diff < fuel)%nat →
  ∃ res, deficitLoop fuel abpairs charge_diff mol = Some res.
Proof.
  revert charge_diff mol.
  induction fuel as [|fuel IH]; intros charge_diff mol Hfuel; [lia|]. simpl.
  destruct (0 <? charge_diff) eqn:Hpos; [|by eexists].
  apply Z.ltb_lt in Hpos.
  destruct (strongestProtonated mol abpairs) as [[ppos poccur]|]; [|by eexists].
  destruct (ionizeStep mol poccur) as [mol1|mol1]; [|by eexists].
  apply IH. lia.
Qed.

Lemma deficitLoop_Ok abpairs fuel charge_diff mol mol' :
  deficitLoop fuel abpairs charge_diff mol = Some (Ok mol') →
  ∃ n, ionizations abpairs n mol mol' ∧
       Z.of_nat n ≤ Z.max 0 charge_diff ∧
       (Z.of_nat n = Z.max 0 charge_diff ∨ strongestProtonated mol' abpairs = None).
Proof.
  revert charge_diff mol.
  induction fuel as [|fuel IH]; intros charge_diff mol; [done|]. simpl.
  destruct (0 <? charge_diff) eqn:Hpos.
  - apply Z.ltb_lt in Hpos.
    destruct (strongestProtonated mol abpairs) as [[ppos poccur]|] eqn:Hsp.
    + destruct (ionizeStep mol poccur) as [mol1|mol1] eqn:Hstep; [|done].
      intros (n & Hn & Hle & Hend)%IH. exists (S n).
      split; [by econstructor|]. split; [lia|].
      destruct Hend as [Hend|Hend]; [left; lia|by right].
    + intros [= <-]. exists 0%nat. split; [constructor|]. split; [lia|by right].
  - apply Z.ltb_ge in Hpos. intros [= <-]. exists 0%nat.
    split; [constructor|]. split; [lia|]. left. lia.
Qed.

(** What an ionization leaves behind, whether the strict cache refresh at
    its end throws or not. *)
Lemma ionizeStep_result mol poccur a :
  atoms mol !! back poccur = Some a →
  ∃ a', atoms (resultMol (ionizeStep mol poccur)) !! back poccur = Some a' ∧
    d_formalCharge a' = d_formalCharge a - 1 ∧
    d_numExplicitHs a' =
      (if 0 <? d_numExplicitHs a then d_numExplicitHs a - 1 else d_numExplicitHs a) ∧
    ∀ j, j ≠ back poccur →
         atoms (resultMol (ionizeStep mol poccur)) !! j = atoms mol !! j.
Proof.
  intros Ha. unfold ionizeStep, updatePropertyCache.
  unfold_atom_ops. rewrite !atomField_modifyAtom, !decide_True by done.
  unfold atomField. rewrite Ha.
  change (d_numExplicitHs (atomSetFormalCharge (d_formalCharge a - 1) a))
    with (d_numExplicitHs a).
  destruct (0 <? d_numExplicitHs a); destruct (true && _); cbn [resultMol]; eexists;
    (split; [rewrite !lookup_modifyAtom, !decide_True, Ha by done; reflexivity|]);
    (split_and!; [done..|]);
    intros j Hj; by rewrite !lookup_modifyAtom, !decide_False.
Qed.

Lemma ionizeStep_throws mol poccur :
  (∀ m', ionizeStep mol poccur = Exn m' → valenceOk m' (back poccur) = false) ∧
  ((∀ m i, valenceOk m i = true) → ∃ m', ionizeStep mol poccur = Ok m').
Proof.
  unfold ionizeStep, updatePropertyCache. cbn [andb]. split.
  - intros m'. destruct (valenceOk _ _) eqn:Hok; cbn [negb]; [done|].
    by intros [= <-].
  - intros Hok. rewrite Hok. cbn [negb]. by eexists.
Qed.

Lemma deficitLoop_Exn abpairs fuel charge_diff mol mol' :
  deficitLoop fuel abpairs charge_diff mol = Some (Exn mol') →
  ∃ n m ppos poccur, ionizations abpairs n mol m ∧ Z.of_nat n < charge_diff ∧
    strongestProtonated m abpairs = Some (ppos, poccur) ∧
    ionizeStep m poccur = Exn mol'.
Proof.
  revert charge_diff mol.
  induction fuel as [|fuel IH]; intros charge_diff mol; [done|]. simpl.
  destruct (0 <? charge_diff) eqn:Hpos; [|done].
  apply Z.ltb_lt in Hpos.
  destruct (strongestProtonated mol abpairs) as [[ppos poccur]|] eqn:Hsp; [|done].
  destruct (ionizeStep mol poccur) as [mol1|mol1] eqn:Hstep.
  - intros (n & m & ppos' & poccur' & Hn & Hlt & Hsp' & Hexn)%IH.
    exists (S n), m, ppos', poccur'. split; [by econstructor|]. split; [lia|done].
  - intros [= <-]. exists 0%nat, mol, ppos, poccur.
    split; [constructor|]. split; [lia|done].
Qed.

Lemma deficitLoop_valenceOk abpairs fuel charge_diff mol :
  (∀ m i, valenceOk m i = true) →
  (Z.to_nat charge_diff < fuel)%nat →
  ∃ mol', deficitLoop fuel abpairs charge_diff mol = Some (Ok mol').
Proof.
  intros Hok. revert charge_diff mol.
  induction fuel as [|fuel IH]; intros charge_diff mol Hfuel; [lia|]. simpl.
  destruct (0 <? charge_diff) eqn:Hpos; [|by eexists].
  apply Z.ltb_lt in Hpos.
  destruct (strongestProtonated mol abpairs) as [[ppos poccur]|]; [|by eexists].
  destruct (proj2 (ionizeStep_throws mol poccur) Hok) as [m' ->].
  apply IH. lia.
Qed.

(** C6. The deficit phase leaves the molecule alone unless the corrected
    total charge is not zero and [charge_diff] is positive.  Otherwise it
    always ends: either normally, having ionized [n] times the strongest
    protonated site of the molecule at hand, [n] being [charge_diff] unless
    no protonated site was left after [n] steps; or by the exception of a
    strict cache refresh, thrown by the ionization that follows fewer than
    [charge_diff] completed ones; it ends normally when the valence check
    never fails.  Each ionization, whether its cache refresh throws or
    not, lowers the formal charge of the site atom by one, lowers its
    explicit hydrogen count by one if that count is positive, and changes
    no other atom; it throws only if the valence check of the site atom
    fails. *)
Theorem deficit_compensation abpairs current_charge charge_diff mol :
  (∀ m, matcher_wf m) →
  (current_charge = 0 ∨ charge_diff ≤ 0 →
     deficitPhase abpairs current_charge charge_diff mol = Some (Ok mol)) ∧
  (∃ res, deficitPhase abpairs current_charge charge_diff mol = Some res) ∧
  (current_charge ≠ 0 → 0 < charge_diff →
     (∀ mol', deficitPhase abpairs current_charge charge_diff mol = Some (Ok mol') →
        ∃ n, ionizations abpairs n mol mol' ∧ Z.of_nat n ≤ charge_diff ∧
             (Z.of_nat n = charge_diff ∨ strongestProtonated mol' abpairs = None)) ∧
     (∀ mol', deficitPhase abpairs current_charge charge_diff mol = Some (Exn mol') →
        ∃ n m ppos poccur, ionizations abpairs n mol m ∧ Z.of_nat n < charge_diff ∧
          strongestProtonated m abpairs = Some (ppos, poccur) ∧
          ionizeStep m poccur = Exn mol') ∧
     ((∀ m i, valenceOk m i = true) →
        ∃ mol', deficitPhase abpairs current_charge charge_diff mol = Some (Ok mol'))) ∧
  (∀ m ppos poccur,
     strongestProtonated m abpairs = Some (ppos, poccur) →
     let m' := resultMol (ionizeStep m poccur) in
     getFormalCharge m' (back poccur) = getFormalCharge m (back poccur) - 1 ∧
     getNumExplicitHs m' (back poccur) =
       (if 0 <? getNumExplicitHs m (back poccur)
        then getNumExplicitHs m (back poccur) - 1
        else getNumExplicitHs m (back poccur)) ∧
     (∀ j, j ≠ back poccur → atoms m' !! j = atoms m !! j) ∧
     (ionizeStep m poccur = Exn m' → valenceOk m' (back poccur) = false) ∧
     ((∀ x i, valenceOk x i = true) → ionizeStep m poccur = Ok m')).
Proof.
  intros Hwf. unfold deficitPhase. split_and!.
  - intros [->|Hdiff]; [done|].
    destruct (negb _); [|done]. simpl.
    by rewrite (proj2 (Z.ltb_ge 0 charge_diff)).
  - destruct (negb _); [|by eexists]. apply deficitLoop_total. lia.
  - intros Hcur Hdiff. destruct (current_charge =? 0) eqn:Heq; [lia|]. simpl negb.
    cbv iota. split_and!.
    + intros mol' (n & Hn & Hle & Hend)%deficitLoop_Ok. exists n.
      split; [done|]. split; [lia|]. destruct Hend; [left; lia|by right].
    + intros mol'. apply deficitLoop_Exn.
    + intros Hok. apply deficitLoop_valenceOk; [done|lia].
  - intros m ppos poccur Hsp.
    pose proof (strongestProtonated_site _ _ _ _ (Hwf m) Hsp) as [a Ha]%lookup_lt_is_Some_2.
    destruct (ionizeStep_result m poccur a Ha) as (a' & Ha' & Hc & Hh & Hother).
    set (m' := resultMol (ionizeStep m poccur)) in *.
    split_and!.
    + unfold getFormalCharge, atomField. by rewrite Ha, Ha'.
    + unfold getNumExplicitHs, atomField. by rewrite Ha, Ha'.
    + done.
    + apply (proj1 (ionizeStep_throws m poccur)).
    + intros Hok. destruct (proj2 (ionizeStep_throws m poccur) Hok) as [m'' Hm''].
      subst m'. by rewrite Hm''.
Qed.

(** [reionizeInPlace] always returns or throws. *)
Lemma reionizeInPlace_total r mol :
  (∀ m, matcher_wf m) → ∃ res, reionizeInPlace r mol = Some res.
Proof.
  intros Hwf. unfold reionizeInPlace.
  set (mol0 := ensurePropertyCache mol).
  set (mol1 := applyChargeCorrections _ _).
  destruct (deficitPhase _ _ _ mol1) as [[mol2|mol2]|] eqn:Hdef.
  - apply balanceLoop_total; [done| |lia]. by intros k Hk%not_elem_of_empty.
  - by eexists.
  - unfold deficitPhase in Hdef. destruct (negb _); [|done].
    destruct (deficitLoop_total (d_abcat r)
                (S (Z.to_nat (molFormalCharge mol1 - molFormalCharge mol0)))
                (molFormalCharge mol1 - molFormalCharge mol0) mol1) as [res Hres]; [lia|].
    congruence.
Qed.

(** ** Uncharger: the negative surplus *)

Lemma wrap_i32_sub a b : wrap_i32 (wrap_i32 a - b) = wrap_i32 (a - b).
Proof.
  unfold wrap_i32. f_equal.
  replace ((a + 2 ^ 31) mod 2 ^ 32 - 2 ^ 31 - b + 2 ^ 31)
    with ((a + 2 ^ 31) mod 2 ^ 32 - b) by lia.
  rewrite Zminus_mod_idemp_l. f_equal. lia.
Qed.

Lemma wrap_i32_eq_0 z : wrap_i32 z = 0 ↔ z mod 2 ^ 32 = 0.
Proof.
  unfold wrap_i32.
  pose proof (Z.mod_pos_bound (z + 2 ^ 31) (2 ^ 32) ltac:(lia)).
  pose proof (Z.mod_pos_bound z (2 ^ 32) ltac:(lia)).
  split; intros Hz.
  - assert ((z + 2 ^ 31) mod 2 ^ 32 = 2 ^ 31) as Hm by lia.
    replace z with ((z + 2 ^ 31) - 2 ^ 31) by lia.
    rewrite <- Zminus_mod_idemp_l, Hm. done.
  - rewrite <- Zplus_mod_idemp_l, Hz. done.
Qed.

Lemma wrap_i32_small z : - 2 ^ 31 ≤ z < 2 ^ 31 → wrap_i32 z = z.
Proof. intros Hz. unfold wrap_i32. rewrite Z.mod_small; lia. Qed.

Lemma sumQMatched_range mol q_matches :
  0 ≤ sumQMatched mol q_matches < 2 ^ 32.
Proof.
  unfold sumQMatched.
  induction q_matches as [|m l IH] using rev_ind; simpl; [lia|].
  rewrite foldl_app. simpl. unfold wrap_u32. apply Z.mod_pos_bound. lia.
Qed.

(** The loop tries every atom when the surplus cannot reach zero before
    the last one. *)
Lemma negLoop_negAll neg_atoms neg_surplus mol :
  (∀ k, 1 ≤ k < Z.of_nat (length neg_atoms) → wrap_i32 (neg_surplus - k) ≠ 0) →
  negLoop neg_atoms neg_surplus mol = negAll neg_atoms mol.
Proof.
  unfold negAll. revert neg_surplus mol.
  induction neg_atoms as [|pr rest IH]; intros s mol Hs; [done|]. simpl.
  destruct (neutralizeNegIfPossible mol (snd pr)) as [done_ mol1]. simpl.
  destruct done_.
  - destruct (wrap_i32 (s - 1) =? 0) eqn:Hz.
    + apply Z.eqb_eq in Hz. destruct rest as [|pr' rest]; [done|].
      exfalso. apply (Hs 1); [simpl; lia|done].
    + apply IH. intros k Hk. rewrite wrap_i32_sub.
      replace (s - 1 - k) with (s - (k + 1)) by lia. apply Hs. simpl. lia.
  - apply IH. intros k Hk. apply Hs. simpl. lia.
Qed.

Lemma neutralizeNegIfPossible_other mol atom j :
  j ≠ atom →
  atoms (snd (neutralizeNegIfPossible mol atom)) !! j = atoms mol !! j.
Proof.
  intros Hj. unfold neutralizeNegIfPossible, neutralizeNeg.
  destruct (_ && _); [done|]. cbn [snd]. unfold_atom_ops.
  by rewrite !lookup_modifyAtom, !decide_False.
Qed.

Lemma negAll_other neg_atoms mol j :
  j ∉ snd <$> neg_atoms → atoms (negAll neg_atoms mol) !! j = atoms mol !! j.
Proof.
  unfold negAll. revert mol.
  induction neg_atoms as [|pr l IH]; intros mol Hj; [done|]. simpl.
  rewrite fmap_cons, not_elem_of_cons in Hj. destruct Hj as [Hne Hj].
  rewrite IH by done. by apply neutralizeNegIfPossible_other.
Qed.

Lemma neutralizeNeg_lookup mol atom hDelta a :
  atoms mol !! atom = Some a →
  ∃ ev iv, ∀ j, atoms (neutralizeNeg mol atom hDelta) !! j =
    if decide (atom = j)
    then Some (mkAtom (d_atomicNum a) (d_formalCharge a + 1) (atomTotalNumHs a + hDelta)
                 true (df_isAromatic a) ev iv)
    else atoms mol !! j.
Proof.
  intros Ha. unfold neutralizeNeg. unfold_atom_ops.
  rewrite !atomField_modifyAtom, !decide_True by done.
  rewrite !lookup_modifyAtom, !decide_True, Ha by done.
  unfold atomField. rewrite Ha. cbn [fmap option_fmap option_map].
  eexists _, _. intros j. rewrite !lookup_modifyAtom, Ha.
  repeat case_decide; done.
Qed.

Lemma negAll_cons pr rest mol :
  negAll (pr :: rest) mol = negAll rest (snd (neutralizeNegIfPossible mol (snd pr))).
Proof. done. Qed.

(** On a list that names no atom twice, every listed atom is treated
    once, in the state in which the molecule came. *)
Lemma negAll_site neg_atoms mol i a :
  NoDup (snd <$> neg_atoms) → i ∈ snd <$> neg_atoms → atoms mol !! i = Some a →
  if isEarlyAtom (d_atomicNum a) && (atomTotalNumHs a =? 0)
  then atoms (negAll neg_atoms mol) !! i = Some a
  else ∃ ev iv, atoms (negAll neg_atoms mol) !! i
         = Some (mkAtom (d_atomicNum a) (d_formalCharge a + 1)
                   (atomTotalNumHs a + (if isEarlyAtom (d_atomicNum a) then -1 else 1))
                   true (df_isAromatic a) ev iv).
Proof.
  revert mol. induction neg_atoms as [|pr rest IH]; intros mol Hnd Hin Ha.
  { by apply elem_of_nil in Hin. }
  rewrite fmap_cons in Hnd, Hin. apply NoDup_cons in Hnd as [Hfresh Hnd].
  rewrite negAll_cons. destruct (decide (snd pr = i)) as [Heq|Hne].
  - rewrite Heq in *. rewrite negAll_other by done.
    unfold neutralizeNegIfPossible.
    replace (getAtomicNum mol i) with (d_atomicNum a)
      by (unfold getAtomicNum, atomField; by rewrite Ha).
    replace (getTotalNumHs mol i) with (atomTotalNumHs a)
      by (unfold getTotalNumHs, atomField; by rewrite Ha).
    rewrite negb_involutive.
    destruct (isEarlyAtom (d_atomicNum a) && (atomTotalNumHs a =? 0)); cbn [snd]; [done|].
    destruct (neutralizeNeg_lookup mol i
                (if isEarlyAtom (d_atomicNum a) then -1 else 1) a Ha) as (ev & iv & Hl).
    exists ev, iv. by rewrite Hl, decide_True.
  - apply elem_of_cons in Hin as [Hin|Hin]; [congruence|].
    apply IH; [done|done|]. by rewrite neutralizeNegIfPossible_other.
Qed.

(** C10. With [forceFullNeutralization] off: when [q_matched] equals the
    length of the negative-site list the surplus is zero and the pass
    returns the molecule as it is; when [q_matched] is larger the surplus
    is not zero, equals the (negative) difference as long as that fits an
    [int], and the test [!--neg_surplus] never succeeds, so that the pass
    treats every atom of the list: when the list names no atom twice,
    every listed atom that can be neutralized comes out with its formal
    charge raised by one, its no-implicit flag set and its hydrogens made
    explicit with one more (one fewer for an early atom), every listed
    atom that cannot be neutralized comes out as it was, and so does every
    atom that is not listed. *)
Theorem surplus_against_quaternary u mol :
  df_force u = false →
  let acc := accounting u mol in
  let len := Z.of_nat (length (neg_atoms acc)) in
  let neg_surplus := initialSurplus (df_force u) (neg_atoms acc) (q_matched acc) in
  let mol' := negPass (neg_atoms acc) neg_surplus mol in
  (q_matched acc = len → neg_surplus = 0 ∧ mol' = mol) ∧
  (len < q_matched acc →
     neg_surplus ≠ 0 ∧
     (q_matched acc - len ≤ 2 ^ 31 → neg_surplus = len - q_matched acc) ∧
     (∀ k, 0 ≤ k ≤ len → wrap_i32 (neg_surplus - k) ≠ 0) ∧
     mol' = negAll (neg_atoms acc) mol ∧
     (NoDup (snd <$> neg_atoms acc) →
      ∀ i, i ∈ snd <$> neg_atoms acc → (i < getNumAtoms mol)%nat →
        if neutralizable mol i
        then getFormalCharge mol' i = getFormalCharge mol i + 1 ∧
             getNoImplicit mol' i = true ∧
             getNumExplicitHs mol' i
             = getTotalNumHs mol i
               + (if isEarlyAtom (getAtomicNum mol i) then -1 else 1)
        else atoms mol' !! i = atoms mol !! i) ∧
     (∀ i, i ∉ snd <$> neg_atoms acc → atoms mol' !! i = atoms mol !! i)).
Proof.
  intros Hforce acc len neg_surplus mol'.
  assert (0 ≤ q_matched acc < 2 ^ 32) as Hq by apply sumQMatched_range.
  assert (neg_surplus = wrap_i32 (len - q_matched acc)) as Hs.
  { subst neg_surplus. unfold initialSurplus. rewrite Hforce. simpl.
    apply wrap_i32_sub. }
  assert (len = Z.of_nat (length (neg_atoms acc))) as Hlen by done.
  assert (mol' = negPass (neg_atoms acc) neg_surplus mol) as Hmol' by done.
  clearbody len neg_surplus mol' acc.
  split.
  - intros Heq. assert (neg_surplus = 0) as ->.
    { rewrite Hs, Heq, Z.sub_diag. done. }
    done.
  - intros Hlt.
    assert (∀ k, 0 ≤ k ≤ len → wrap_i32 (neg_surplus - k) ≠ 0) as Hnz.
    { intros k Hk. rewrite Hs, wrap_i32_sub, wrap_i32_eq_0.
      replace (len - q_matched acc - k)
        with ((len - q_matched acc - k + 2 ^ 32) + (-1) * 2 ^ 32) by lia.
      rewrite Z.mod_add by lia. rewrite Z.mod_small; lia. }
    assert (neg_surplus ≠ 0) as Hne.
    { specialize (Hnz 0 ltac:(lia)).
      rewrite Hs, wrap_i32_sub, Z.sub_0_r in Hnz. by rewrite Hs. }
    assert (mol' = negAll (neg_atoms acc) mol) as Hall.
    { rewrite Hmol'. unfold negPass. rewrite (proj2 (Z.eqb_neq _ _) Hne). simpl.
      apply negLoop_negAll. intros k Hk. apply Hnz. lia. }
    split_and!; [done| |done|done| |].
    + intros Hfit. rewrite Hs. apply wrap_i32_small. lia.
    + intros Hnd i Hin [a Ha]%lookup_lt_is_Some_2.
      pose proof (negAll_site _ mol i a Hnd Hin Ha) as Hsite. rewrite <- Hall in Hsite.
      unfold neutralizable, getAtomicNum, getTotalNumHs, getFormalCharge, getNoImplicit,
        getNumExplicitHs, atomField.
      rewrite Ha.
      destruct (isEarlyAtom (d_atomicNum a) && (atomTotalNumHs a =? 0)); cbn [negb].
      * done.
      * destruct Hsite as (ev & iv & ->). done.
    + intros i Hi. rewrite Hall. by apply negAll_other.
Qed.

(** ** Uncharger: ranks and order of the match lists *)

#[local] Instance pair_le_total : Total pair_le.
Proof. intros [a b] [c d]. unfold pair_le. simpl. lia. Qed.

#[local] Instance pair_le_trans : Transitive pair_le.
Proof. intros [a b] [c d] [e f]. unfold pair_le. simpl. lia. Qed.

#[local] Instance pair_le_antisymm : AntiSymm (=) pair_le.
Proof.
  intros [a b] [c d]. unfold pair_le. simpl. intros ? ?. f_equal; lia.
Qed.

Lemma std_sort_sorted v : StronglySorted pair_le (std_sort v).
Proof. apply StronglySorted_merge_sort; apply _. Qed.

Lemma std_sort_perm v : std_sort v ≡ₚ v.
Proof. apply merge_sort_Permutation. Qed.

Lemma getRankIdxPair_iota n mv :
  (snd (front mv) < n)%nat →
  getRankIdxPair (seq 0 n) mv = (snd (front mv), snd (front mv)).
Proof.
  intros Hlt. unfold getRankIdxPair. by rewrite lookup_seq_lt.
Qed.

(** C7, as the code has it.  The ranker is consulted only when canonical
    ordering is on and there is both quaternary charge and a negative or
    acid match; the two lists are then sorted by (canonical rank, atom
    index).  With canonical ordering on and nothing to balance, the rank of
    an atom is its index and the lists are sorted by atom index.  With
    canonical ordering off, the rank of an atom is its index and the lists
    keep the order in which the matcher returned the matches. *)
Theorem ranks_and_order u mol :
  let acc := accounting u mol in
  let n_matches := SubstructMatches mol (neg u) in
  let a_matches := SubstructMatches mol (neg_acid u) in
  (df_canonicalOrdering u = true → needsNeutralization u mol = true →
     atomRanks acc = rankMolAtoms mol ∧
     n_atoms acc ≡ₚ getRankIdxPair (rankMolAtoms mol) <$> n_matches ∧
     a_atoms acc ≡ₚ getRankIdxPair (rankMolAtoms mol) <$> a_matches ∧
     StronglySorted pair_le (n_atoms acc) ∧ StronglySorted pair_le (a_atoms acc)) ∧
  (df_canonicalOrdering u = true → needsNeutralization u mol = false →
     atomRanks acc = seq 0 (getNumAtoms mol) ∧
     n_atoms acc ≡ₚ getRankIdxPair (seq 0 (getNumAtoms mol)) <$> n_matches ∧
     a_atoms acc ≡ₚ getRankIdxPair (seq 0 (getNumAtoms mol)) <$> a_matches ∧
     StronglySorted pair_le (n_atoms acc) ∧ StronglySorted pair_le (a_atoms acc)) ∧
  (df_canonicalOrdering u = false →
     atomRanks acc = seq 0 (getNumAtoms mol) ∧
     n_atoms acc = getRankIdxPair (seq 0 (getNumAtoms mol)) <$> n_matches ∧
     a_atoms acc = getRankIdxPair (seq 0 (getNumAtoms mol)) <$> a_matches) ∧
  (∀ mv, (snd (front mv) < getNumAtoms mol)%nat →
     getRankIdxPair (seq 0 (getNumAtoms mol)) mv = (snd (front mv), snd (front mv))).
Proof.
  intros acc n_matches a_matches. subst acc. unfold accounting, needsNeutralization.
  fold n_matches a_matches. simpl. split_and!.
  - intros -> ->. simpl.
    split_and!; auto using std_sort_perm, std_sort_sorted.
  - intros -> ->. simpl.
    split_and!; auto using std_sort_perm, std_sort_sorted.
  - intros ->. simpl. done.
  - intros mv. apply getRankIdxPair_iota.
Qed.

(** ** Uncharger: the negative-site list *)

Lemma scanNeighbors_positiveNeighbor mol idx nbrs skip :
  scanNeighbors mol idx nbrs skip =
  match head (filter (λ nbr, 0 < getFormalCharge mol nbr) nbrs) with
  | Some nbrIdx => if decide (nbrIdx ∈ skip) then {[idx]} ∪ skip else {[nbrIdx]} ∪ skip
  | None => skip
  end.
Proof.
  induction nbrs as [|nbr rest IH]; [done|]. simpl.
  rewrite filter_cons. destruct (0 <? getFormalCharge mol nbr) eqn:Hpos.
  - apply Z.ltb_lt in Hpos.
    destruct (decide (0 < getFormalCharge mol nbr)); [done|lia].
  - apply Z.ltb_ge in Hpos.
    destruct (decide (0 < getFormalCharge mol nbr)); [lia|done].
Qed.

Lemma positiveNeighbor_charge mol idx nbr :
  positiveNeighbor mol idx = Some nbr → 0 < getFormalCharge mol nbr.
Proof.
  unfold positiveNeighbor. intros Hhd%head_Some_elem_of.
  by apply list_elem_of_filter in Hhd as [? _].
Qed.

Lemma sharesWithEarlier_snoc mol l pr x :
  sharesWithEarlier mol (l ++ [pr]) x ↔
  sharesWithEarlier mol l x ∨
  (snd pr = x ∧ ∃ pi nbr, pi ∈ l ∧ positiveNeighbor mol (snd pi) = Some nbr ∧
                          positiveNeighbor mol (snd pr) = Some nbr).
Proof.
  split.
  - intros (i & j & pi & pj & nbr & Hij & Hi & Hj & Hx & Hpi & Hpj).
    destruct (decide (j < length l)%nat) as [Hjl|Hjl].
    + left. exists i, j, pi, pj, nbr.
      rewrite lookup_app_l in Hi, Hj by lia. done.
    + right. rewrite lookup_app_l in Hi by (apply lookup_lt_Some in Hj;
        rewrite length_app in Hj; simpl in Hj; lia).
      rewrite lookup_app_r in Hj by lia.
      destruct (j - length l)%nat as [|?] eqn:Hjj; simpl in Hj; [|done].
      injection Hj as <-. split; [done|]. exists pi, nbr.
      split; [by eapply list_elem_of_lookup_2|done].
  - intros [(i & j & pi & pj & nbr & Hij & Hi & Hj & Hx & Hpi & Hpj)
           |(Hx & pi & nbr & [i Hi]%list_elem_of_lookup_1 & Hpi & Hpr)].
    + exists i, j, pi, pj, nbr.
      rewrite !lookup_app_l by (by eapply lookup_lt_Some). done.
    + exists i, (length l), pi, pr, nbr. pose proof (lookup_lt_Some _ _ _ Hi).
      rewrite lookup_app_l by done. rewrite list_lookup_middle by done. done.
Qed.

(** What the bitset [skipChargeSep] holds after the loop of lines 410-428,
    when no acid atom is itself positively charged. *)
Lemma skipChargeSepOf_spec mol a_atoms :
  (∀ pr, pr ∈ a_atoms → getFormalCharge mol (snd pr) ≤ 0) →
  ∀ x, x ∈ skipChargeSepOf mol a_atoms ↔
    (∃ pi, pi ∈ a_atoms ∧ positiveNeighbor mol (snd pi) = Some x) ∨
    sharesWithEarlier mol a_atoms x.
Proof.
  unfold skipChargeSepOf.
  induction a_atoms as [|pr l IH] using rev_ind; intros Hacid x.
  - simpl. split; [by intros ?%not_elem_of_empty|].
    intros [(pi & Hpi%elem_of_nil & _)|(i & j & pi & pj & nbr & _ & Hi & _)]; done.
  - assert (∀ pr, pr ∈ l → getFormalCharge mol (snd pr) ≤ 0) as Hacid'
      by (intros ? ?; apply Hacid, elem_of_app; by left).
    specialize (IH Hacid').
    rewrite foldl_app. simpl. rewrite scanNeighbors_positiveNeighbor.
    fold (positiveNeighbor mol (snd pr)). rewrite sharesWithEarlier_snoc.
    destruct (positiveNeighbor mol (snd pr)) as [nbr|] eqn:Hnbr.
    + assert (nbr ∈ foldl (λ skipChargeSep pair,
                 scanNeighbors mol (snd pair) (getAtomNeighbors mol (snd pair))
                   skipChargeSep) ∅ l
              ↔ ∃ pi, pi ∈ l ∧ positiveNeighbor mol (snd pi) = Some nbr) as Hseen.
      { rewrite IH. split; [|by left].
        intros [?|(i & j & pi & pj & nbr' & _ & _ & Hj & Hx & _ & _)]; [done|].
        apply positiveNeighbor_charge in Hnbr.
        assert (pj ∈ l) as Hpj by by eapply list_elem_of_lookup_2.
        apply Hacid' in Hpj. rewrite Hx in Hpj. lia. }
      case_decide as Hin.
      * rewrite elem_of_union, elem_of_singleton, IH. apply Hseen in Hin.
        split.
        -- intros [->|[(pi & Hpi & Hx)|Hsh]].
           ++ right. right. split; [done|]. destruct Hin as (pi & ? & ?). by exists pi, nbr.
           ++ left. exists pi. split; [apply elem_of_app; by left|done].
           ++ right. by left.
        -- intros [(pi & [Hpi|Hpi%list_elem_of_singleton]%elem_of_app & Hx)
                  |[Hsh|[Hx _]]].
           ++ right. left. by exists pi.
           ++ subst pi. right. left. rewrite Hnbr in Hx. injection Hx as <-. done.
           ++ right. by right.
           ++ by left.
      * rewrite elem_of_union, elem_of_singleton, IH.
        split.
        -- intros [->|[(pi & Hpi & Hx)|Hsh]].
           ++ left. exists pr. split; [apply elem_of_app; right; by apply list_elem_of_singleton|done].
           ++ left. exists pi. split; [apply elem_of_app; by left|done].
           ++ right. by left.
        -- intros [(pi & [Hpi|Hpi%list_elem_of_singleton]%elem_of_app & Hx)
                  |[Hsh|[Hx (pi & nbr' & Hpi & Hn & Hn')]]].
           ++ right. left. by exists pi.
           ++ subst pi. left. congruence.
           ++ right. by right.
           ++ exfalso. apply Hin, Hseen. exists pi. split; [done|]. congruence.
    + rewrite IH. split.
      * intros [(pi & Hpi & Hx)|Hsh].
        -- left. exists pi. split; [apply elem_of_app; by left|done].
        -- right. by left.
      * intros [(pi & [Hpi|Hpi%list_elem_of_singleton]%elem_of_app & Hx)
               |[Hsh|[_ (pi & nbr' & _ & _ & ?)]]]; [|subst pi; congruence| |congruence].
        -- left. by exists pi.
        -- by right.
Qed.

Lemma elem_of_nonAcidsOf mol a_atoms x :
  x ∈ nonAcidsOf mol a_atoms ↔ (x < getNumAtoms mol)%nat ∧ x ∉ snd <$> a_atoms.
Proof.
  unfold nonAcidsOf. induction a_atoms as [|pr l IH] using rev_ind.
  - simpl. rewrite elem_of_list_to_set, elem_of_seq.
    split; [intros ?; split; [lia|by intros ?%elem_of_nil]|intros [? _]; lia].
  - rewrite foldl_app, fmap_app. simpl.
    rewrite elem_of_difference, IH, elem_of_singleton, elem_of_app, list_elem_of_singleton.
    split.
    + intros [[Hlt Hl] Hx]. split; [done|]. by intros [?|?].
    + intros [Hlt Hx]. split; [split; [done|]|]; intros ?; apply Hx; auto.
Qed.

Lemma neutralizeNegIfPossible_charge mol atom :
  (atom < getNumAtoms mol)%nat →
  isEarlyAtom (getAtomicNum mol atom) = false →
  fst (neutralizeNegIfPossible mol atom) = true ∧
  getFormalCharge (snd (neutralizeNegIfPossible mol atom)) atom
  = getFormalCharge mol atom + 1.
Proof.
  intros [a Ha]%lookup_lt_is_Some_2 Hearly.
  unfold neutralizeNegIfPossible, neutralizeNeg. rewrite Hearly.
  cbn [andb fst snd]. split; [done|]. unfold_atom_ops.
  rewrite !atomField_modifyAtom, !decide_True by done.
  rewrite !lookup_modifyAtom, !decide_True, Ha by done.
  unfold atomField. by rewrite Ha.
Qed.

Lemma negAll_numAtoms neg_atoms mol :
  getNumAtoms (negAll neg_atoms mol) = getNumAtoms mol.
Proof.
  unfold negAll. revert mol. induction neg_atoms as [|pr l IH]; intros mol; [done|].
  simpl. rewrite IH. unfold neutralizeNegIfPossible, neutralizeNeg.
  destruct (_ && _); [done|]. cbn [snd]. unfold_atom_ops.
  by rewrite !getNumAtoms_modifyAtom.
Qed.

(** C8, as the code has it.  Provided no acid-matched atom is itself
    positively charged (each alternative of the [neg_acid] SMARTS asks for
    a negative charge): an acid match is appended to the negative-site
    list exactly when no earlier acid match has the same first positively
    charged neighbour.  Hence, when the acid matches are two atoms [o1],
    [o2] with the same first positive neighbour, only [o1] is listed; and
    when moreover [o1] is not an early atom and there is no quaternary
    charge to balance, the negative pass raises the formal charge of [o1]
    by one and leaves [o2] as it was. *)
Theorem acid_sites_sharing_a_cation u mol :
  let acc := accounting u mol in
  (∀ pr, pr ∈ a_atoms acc → getFormalCharge mol (snd pr) ≤ 0) →
  (∀ pr, pr ∈ pushAcids (skipChargeSepOf mol (a_atoms acc)) (a_atoms acc) ↔
         pr ∈ a_atoms acc ∧ ¬ sharesWithEarlier mol (a_atoms acc) (snd pr)) ∧
  (neg_atoms acc =
     pushNonAcids (nonAcidsOf mol (a_atoms acc)) (n_atoms acc)
     ++ pushAcids (skipChargeSepOf mol (a_atoms acc)) (a_atoms acc)) ∧
  (∀ r1 o1 r2 o2 nbr,
     a_atoms acc = [(r1, o1); (r2, o2)] → o1 ≠ o2 →
     (o1 < getNumAtoms mol)%nat →
     positiveNeighbor mol o1 = Some nbr → positiveNeighbor mol o2 = Some nbr →
     isEarlyAtom (getAtomicNum mol o1) = false →
     q_matched acc = 0 →
     Z.of_nat (length (neg_atoms acc)) < 2 ^ 32 →
     let mol' := negPass (neg_atoms acc)
                   (initialSurplus (df_force u) (neg_atoms acc) (q_matched acc)) mol in
     ((r2, o2) ∉ neg_atoms acc) ∧
     getFormalCharge mol' o1 = getFormalCharge mol o1 + 1 ∧
     atoms mol' !! o2 = atoms mol !! o2).
Proof.
  intros acc Hacid. split_and!.
  - intros pr. unfold pushAcids. rewrite list_elem_of_filter.
    rewrite (skipChargeSepOf_spec _ _ Hacid). split.
    + intros [Hskip Hin]. split; [done|]. intros Hsh. apply Hskip. by right.
    + intros [Hin Hsh]. split; [|done].
      intros [(pi & Hpi & Hx%positiveNeighbor_charge)|?]; [|done].
      apply Hacid in Hin. lia.
  - done.
  - intros r1 o1 r2 o2 nbr Ha Hne Ho1 Hn1 Hn2 Hearly Hq Hlen mol'.
    rewrite Ha in Hacid.
    assert (getFormalCharge mol o1 ≤ 0) as Hc1 by (apply (Hacid (r1, o1)); by left).
    assert (o1 ≠ nbr) as Hnbr1.
    { intros <-. apply positiveNeighbor_charge in Hn1. lia. }
    assert (neg_atoms acc
            = pushNonAcids (nonAcidsOf mol (a_atoms acc)) (n_atoms acc) ++ [(r1, o1)])
      as Hneg.
    { change (neg_atoms acc) with (buildNegAtoms mol (n_atoms acc) (a_atoms acc)).
      unfold buildNegAtoms. f_equal. rewrite Ha.
      unfold skipChargeSepOf, pushAcids. simpl.
      rewrite !scanNeighbors_positiveNeighbor.
      fold (positiveNeighbor mol o1) (positiveNeighbor mol o2). rewrite Hn1, Hn2.
      rewrite (decide_False (P := nbr ∈ ∅)) by apply not_elem_of_empty.
      rewrite (decide_True (P := nbr ∈ {[nbr]} ∪ ∅))
        by (apply elem_of_union; left; by apply elem_of_singleton).
      rewrite !filter_cons, filter_nil. simpl.
      rewrite decide_True.
      2:{ rewrite !elem_of_union, !elem_of_singleton.
          intros [?|[?|?%not_elem_of_empty]]; done. }
      rewrite decide_False; [done|].
      intros Hskip. apply Hskip, elem_of_union. left. by apply elem_of_singleton. }
    set (n' := pushNonAcids (nonAcidsOf mol (a_atoms acc)) (n_atoms acc)) in *.
    assert (∀ x, x ∈ snd <$> n' → x ≠ o1 ∧ x ≠ o2) as Hn'.
    { intros x (pr & -> & Hpr)%list_elem_of_fmap. unfold n', pushNonAcids in Hpr.
      apply list_elem_of_filter in Hpr as [Hpr _].
      apply elem_of_nonAcidsOf in Hpr as [_ Hpr]. rewrite Ha in Hpr. simpl in Hpr.
      rewrite !not_elem_of_cons in Hpr. by destruct Hpr as (? & ? & _). }
    assert ((r2, o2) ∉ neg_atoms acc) as Hout.
    { rewrite Hneg. intros [Hin|Hin%list_elem_of_singleton]%elem_of_app.
      - destruct (Hn' o2) as [_ ?]; [|done].
        apply list_elem_of_fmap. by exists (r2, o2).
      - by injection Hin as ? ?. }
    assert (mol' = negAll (neg_atoms acc) mol) as ->.
    { subst mol'. rewrite Hq. unfold negPass.
      set (len := Z.of_nat (length (neg_atoms acc))) in *.
      assert (1 ≤ len) as Hlen1 by (subst len; rewrite Hneg, length_app; simpl; lia).
      assert (initialSurplus (df_force u) (neg_atoms acc) 0 = wrap_i32 len) as ->.
      { unfold initialSurplus. fold len. destruct (df_force u); simpl; [done|].
        by rewrite wrap_i32_sub, Z.sub_0_r. }
      assert (∀ k, 0 ≤ k < len → wrap_i32 (wrap_i32 len - k) ≠ 0) as Hnz.
      { intros k Hk. rewrite wrap_i32_sub, wrap_i32_eq_0. rewrite Z.mod_small; lia. }
      pose proof (Hnz 0 ltac:(lia)) as Hnz0.
      rewrite wrap_i32_sub, Z.sub_0_r in Hnz0.
      rewrite (proj2 (Z.eqb_neq _ _) Hnz0). cbn [negb].
      apply negLoop_negAll. intros k Hk. apply Hnz. fold len in Hk. lia. }
    split; [done|]. split.
    + rewrite Hneg. unfold negAll. rewrite foldl_app. simpl.
      fold (negAll n' mol).
      assert (atoms (negAll n' mol) !! o1 = atoms mol !! o1) as Hsame.
      { apply negAll_other. intros Hin. by destruct (Hn' _ Hin). }
      destruct (neutralizeNegIfPossible_charge (negAll n' mol) o1) as [_ ->].
      * by rewrite negAll_numAtoms.
      * unfold getAtomicNum, atomField in *. by rewrite Hsame.
      * unfold getFormalCharge, atomField. by rewrite Hsame.
    + apply negAll_other. rewrite Hneg, fmap_app. simpl.
      intros [Hin|Hin%list_elem_of_singleton]%elem_of_app; [|done].
      by destruct (Hn' _ Hin).
Qed.

(** ** Uncharger: the cache refresh and a pass with nothing to do *)

Lemma molChem_modifyAtom idx f mol :
  (∀ a, chem (f a) = chem a) → molChem (modifyAtom idx f mol) = molChem mol.
Proof.
  intros Hf. unfold molChem. apply list_eq. intros j.
  rewrite !list_lookup_fmap, lookup_modifyAtom. case_decide as Hj; [|done].
  subst j. destruct (atoms mol !! idx); simpl; [|done]. by rewrite Hf.
Qed.

Lemma molChem_refreshValence mol idx : molChem (refreshValence mol idx) = molChem mol.
Proof. unfold refreshValence. by apply molChem_modifyAtom. Qed.

Lemma molChem_ensurePropertyCache mol : molChem (ensurePropertyCache mol) = molChem mol.
Proof.
  unfold ensurePropertyCache. destruct (needsUpdatePropertyCache mol); [|done].
  unfold molUpdatePropertyCache. generalize (seq 0 (getNumAtoms mol)). intros l.
  induction l as [|i l IH] using rev_ind; [done|].
  by rewrite foldl_app; simpl; rewrite molChem_refreshValence.
Qed.

Lemma netCharge_sumCharges l :
  foldl (λ netCharge at_, netCharge + d_formalCharge at_) 0 l = sumCharges l.
Proof.
  unfold sumCharges. induction l as [|a l IH] using rev_ind; [done|].
  rewrite foldl_app, foldr_app. simpl. rewrite IH.
  generalize (d_formalCharge a). clear. intros z.
  induction l as [|b l IH]; simpl; lia.
Qed.

Lemma negLoop_none neg_atoms neg_surplus mol :
  (∀ pr, pr ∈ neg_atoms → fst (neutralizeNegIfPossible mol (snd pr)) = false) →
  negLoop neg_atoms neg_surplus mol = mol.
Proof.
  induction neg_atoms as [|pr l IH]; intros Hnone; [done|]. simpl.
  pose proof (Hnone pr ltac:(by left)) as Hpr.
  unfold neutralizeNegIfPossible in Hpr |- *.
  destruct (_ && _); [|done]. apply IH. intros pr' Hpr'. apply Hnone. by right.
Qed.

(** ** Uncharger: the fuel of the cation loop *)

(** The turns of the [while] loop on one cation are bounded by its formal
    charge: fuel beyond that charge is never used. *)
Lemma posWhile_fuel fuel atom netCharge mol :
  (Z.to_nat (getFormalCharge mol atom) ≤ fuel)%nat →
  posWhile fuel atom netCharge mol
  = posWhile (Z.to_nat (getFormalCharge mol atom)) atom netCharge mol.
Proof.
  revert netCharge mol. induction fuel as [|fuel IH]; intros netCharge mol Hfuel.
  - by replace (Z.to_nat (getFormalCharge mol atom)) with 0%nat by lia.
  - destruct (Z.to_nat (getFormalCharge mol atom)) as [|c] eqn:Hc.
    + simpl. assert (getFormalCharge mol atom ≤ 0) as Hle by lia.
      by rewrite (proj2 (Z.ltb_ge _ _) Hle).
    + simpl. destruct (_ && _) eqn:Hcond; [|done].
      assert (∀ f, Z.to_nat (getFormalCharge
                (refreshValence
                   (setNumExplicitHs atom f
                      (setFormalCharge atom (getFormalCharge mol atom - 1) mol)) atom) atom)
              = c ∧
              Z.to_nat (getFormalCharge
                (refreshValence
                   (setFormalCharge atom (getFormalCharge mol atom - 1) mol) atom) atom)
              = c) as Hdec.
      { intros f. unfold_atom_ops. rewrite !atomField_modifyAtom, !decide_True by done.
        rewrite !lookup_modifyAtom, !decide_True by done.
        unfold atomField in *. destruct (atoms mol !! atom); simpl in *; lia. }
      destruct (negb _ && negb _).
      * destruct (_ =? 1); [done|]. destruct (1 <=? _).
        -- rewrite IH by (rewrite (proj1 (Hdec _)); lia). by rewrite (proj1 (Hdec _)).
        -- rewrite IH by (rewrite (proj2 (Hdec 0)); lia). by rewrite (proj2 (Hdec 0)).
      * rewrite IH by (rewrite (proj1 (Hdec _)); lia). by rewrite (proj1 (Hdec _)).
Qed.

(** ** More on the catalogue scans *)

(** X1. Under the matcher's contract, the rank a scan returns is an index
    of the catalogue (so [abpairs[ppos]] at lines 155, 206 and 207 is in
    range), the match is not empty and all its atoms, the site atom in
    particular, are atoms of the molecule. *)
Theorem scan_results_in_range mol abpairs :
  matcher_wf mol →
  (∀ r occ, strongestProtonated mol abpairs = Some (r, occ) →
     (r < length abpairs)%nat ∧ occ ≠ [] ∧ (∀ x, x ∈ occ → (x < getNumAtoms mol)%nat) ∧
     (back occ < getNumAtoms mol)%nat) ∧
  (∀ r occ, weakestIonized mol abpairs = Some (r, occ) →
     (r < length abpairs)%nat ∧ occ ≠ [] ∧ (∀ x, x ∈ occ → (x < getNumAtoms mol)%nat) ∧
     (back occ < getNumAtoms mol)%nat).
Proof.
  intros Hwf. split; intros r occ Hscan.
  - pose proof (strongestProtonated_site _ _ _ _ Hwf Hscan) as Hback.
    apply strongestProtonated_Some in Hscan as (p & res & Hp & Hres & -> & _).
    destruct (Hwf _ _ Hres) as [Hne Hall].
    split_and!; [by eapply lookup_lt_Some|by destruct res| |done].
    intros x (pr & -> & Hpr)%list_elem_of_fmap. by apply Hall.
  - pose proof (weakestIonized_site _ _ _ _ Hwf Hscan) as Hback.
    apply weakestIonized_Some in Hscan as (p & res & Hp & Hres & -> & _).
    destruct (Hwf _ _ Hres) as [Hne Hall].
    split_and!; [by eapply lookup_lt_Some|by destruct res| |done].
    intros x (pr & -> & Hpr)%list_elem_of_fmap. by apply Hall.
Qed.

(** ** The correction phase *)

Lemma setFormalCharge_fold_lookup what (match_ : MatchVectType) mol i :
  atoms (foldl (λ mol pair, setFormalCharge (snd pair) what mol) mol match_) !! i
  = if decide (i ∈ List.map snd match_)
    then atomSetFormalCharge what <$> atoms mol !! i else atoms mol !! i.
Proof.
  revert mol. induction match_ as [|pr l IH]; intros mol; cbn [foldl List.map].
  - first [done | by rewrite decide_False by apply not_elem_of_nil].
  - rewrite IH. unfold setFormalCharge. rewrite lookup_modifyAtom.
    destruct (decide (snd pr = i)) as [->|Hne].
    + rewrite (decide_True (P := i ∈ i :: _)) by by left.
      case_decide; [|done]. by destruct (atoms mol !! i).
    + destruct (decide (i ∈ List.map snd l)) as [Hin|Hout].
      * by rewrite decide_True by by right.
      * rewrite decide_False; [done|]. by intros [?|?]%elem_of_cons.
Qed.

Lemma setFormalCharge_fold_bonds what (match_ : MatchVectType) mol :
  bonds (foldl (λ mol pair, setFormalCharge (snd pair) what mol) mol match_) = bonds mol.
Proof. revert mol. induction match_ as [|pr l IH]; intros mol; simpl; [done|]. by rewrite IH. Qed.

Lemma applyChargeCorrection_lookup mol cc i :
  atoms (applyChargeCorrection mol cc) !! i
  = if decide (i ∈ matchedAtoms (SubstructMatches mol (SmartsToMol (Smarts cc))))
    then atomSetFormalCharge (Charge cc) <$> atoms mol !! i else atoms mol !! i.
Proof.
  unfold applyChargeCorrection. generalize (SubstructMatches mol (SmartsToMol (Smarts cc))).
  intros res. revert mol. induction res as [|m res IH]; intros mol; cbn [foldl].
  - first [done | by rewrite decide_False by apply not_elem_of_nil].
  - rewrite IH, setFormalCharge_fold_lookup.
    change (matchedAtoms (m :: res)) with (List.map snd m ++ matchedAtoms res).
    destruct (decide (i ∈ List.map snd m)) as [Hm|Hm];
      destruct (decide (i ∈ matchedAtoms res)) as [Hres|Hres].
    + rewrite decide_True by (apply elem_of_app; by left).
      by destruct (atoms mol !! i).
    + by rewrite decide_True by (apply elem_of_app; by left).
    + by rewrite decide_True by (apply elem_of_app; by right).
    + rewrite decide_False; [done|]. by intros [?|?]%elem_of_app.
Qed.

Lemma applyChargeCorrection_bonds mol cc :
  bonds (applyChargeCorrection mol cc) = bonds mol.
Proof.
  unfold applyChargeCorrection. generalize (SubstructMatches mol (SmartsToMol (Smarts cc))).
  intros res. revert mol. induction res as [|m res IH]; intros mol; simpl; [done|].
  by rewrite IH, setFormalCharge_fold_bonds.
Qed.

Lemma Mol_eq mol mol' : atoms mol = atoms mol' → bonds mol = bonds mol' → mol = mol'.
Proof. destruct mol, mol'; simpl; by intros -> ->. Qed.

(** X2. A charge correction sets the formal charge of every atom named by
    a match of its pattern to the rule's charge and changes nothing else:
    not the other atoms, not the hydrogen counts, flags or cached valences
    of the matched atoms, not the bonds.  Without a matched atom the
    molecule stays as it is. *)
Theorem charge_correction_effect mol cc :
  let matched := matchedAtoms (SubstructMatches mol (SmartsToMol (Smarts cc))) in
  let mol' := applyChargeCorrection mol cc in
  bonds mol' = bonds mol ∧
  (∀ i, atoms mol' !! i
        = if decide (i ∈ matched)
          then atomSetFormalCharge (Charge cc) <$> atoms mol !! i else atoms mol !! i) ∧
  (∀ i, i ∈ matched → (i < getNumAtoms mol)%nat → getFormalCharge mol' i = Charge cc) ∧
  (∀ i, i ∉ matched → getFormalCharge mol' i = getFormalCharge mol i) ∧
  (matched = [] → mol' = mol).
Proof.
  intros matched mol'. split_and!.
  - apply applyChargeCorrection_bonds.
  - apply applyChargeCorrection_lookup.
  - intros i Hin [a Ha]%lookup_lt_is_Some_2. unfold getFormalCharge, atomField. subst mol'.
    rewrite applyChargeCorrection_lookup. fold matched. by rewrite decide_True, Ha.
  - intros i Hout. unfold getFormalCharge, atomField. subst mol'.
    rewrite applyChargeCorrection_lookup. fold matched. by rewrite decide_False.
  - intros Hnil. apply Mol_eq; [|apply applyChargeCorrection_bonds].
    apply list_eq. intros i. subst mol'. rewrite applyChargeCorrection_lookup.
    fold matched. rewrite Hnil. by rewrite decide_False by apply not_elem_of_nil.
Qed.

Lemma setCharges_lookup what l ats i :
  setCharges what l ats !! i
  = if decide (i ∈ l) then atomSetFormalCharge what <$> ats !! i else ats !! i.
Proof.
  induction l as [|j l IH]; cbn [setCharges foldr].
  - first [done | by rewrite decide_False by apply not_elem_of_nil].
  - fold (setCharges what l ats). rewrite list_lookup_alter.
    destruct (decide (j = i)) as [->|Hne].
    + rewrite (decide_True (P := i ∈ i :: l)) by by left. rewrite IH.
      case_decide; [|done]. by destruct (ats !! i).
    + rewrite IH. destruct (decide (i ∈ l)) as [Hin|Hout].
      * by rewrite decide_True by by right.
      * rewrite decide_False; [done|]. by intros [?|?]%elem_of_cons.
Qed.

Lemma sumOver_ext f g l : (∀ i, i ∈ l → f i = g i) → sumOver f l = sumOver g l.
Proof.
  induction l as [|i l IH]; intros Hfg; simpl; [done|].
  rewrite Hfg by by left. rewrite IH; [done|]. intros j Hj. apply Hfg. by right.
Qed.

Lemma sumCharges_setCharges what l ats :
  NoDup l → (∀ i, i ∈ l → (i < length ats)%nat) →
  sumCharges (setCharges what l ats)
  = sumCharges ats
    + sumOver (λ i, what - default 0 (d_formalCharge <$> ats !! i)) l.
Proof.
  induction l as [|j l IH]; intros Hnd Hlt; simpl; [lia|].
  apply NoDup_cons in Hnd as [Hj Hnd].
  rewrite sumCharges_alter, setCharges_lookup, decide_False by done.
  rewrite IH by (try done; intros i Hi; apply Hlt; by right).
  destruct (lookup_lt_is_Some_2 ats j (Hlt j ltac:(by left))) as [a Ha].
  rewrite Ha. simpl. lia.
Qed.

(** X3. Charge conservation under a correction: when the matches name
    atoms of the molecule, the total charge changes by the sum, over the
    atoms matched (each counted once), of the rule's charge minus the
    atom's previous charge. *)
Theorem charge_correction_total mol cc :
  let matched := matchedAtoms (SubstructMatches mol (SmartsToMol (Smarts cc))) in
  (∀ i, i ∈ matched → (i < getNumAtoms mol)%nat) →
  molFormalCharge (applyChargeCorrection mol cc)
  = molFormalCharge mol
    + sumOver (λ i, Charge cc - getFormalCharge mol i) (remove_dups matched).
Proof.
  intros matched Hlt.
  assert (matchedAtoms (SubstructMatches mol (SmartsToMol (Smarts cc))) = matched)
    as Hm by done.
  clearbody matched.
  assert (atoms (applyChargeCorrection mol cc)
          = setCharges (Charge cc) (remove_dups matched) (atoms mol)) as Heq.
  { apply list_eq. intros i.
    rewrite applyChargeCorrection_lookup, setCharges_lookup, Hm.
    destruct (decide (i ∈ matched)) as [Hin|Hout].
    - rewrite decide_True; [done|]. by rewrite elem_of_remove_dups.
    - rewrite decide_False; [done|]. by rewrite elem_of_remove_dups. }
  unfold molFormalCharge. rewrite Heq, sumCharges_setCharges.
  - f_equal. apply sumOver_ext. intros i Hi. unfold getFormalCharge, atomField.
    by destruct (atoms mol !! i).
  - apply NoDup_remove_dups.
  - intros i Hi. rewrite elem_of_remove_dups in Hi. by apply Hlt.
Qed.

(** ** Reionizer: what the phases do to the total charge *)

Lemma molFormalCharge_update mol mol' p a a' :
  atoms mol !! p = Some a → atoms mol' !! p = Some a' →
  (∀ j, j ≠ p → atoms mol' !! j = atoms mol !! j) →
  molFormalCharge mol' = molFormalCharge mol + (d_formalCharge a' - d_formalCharge a) ∧
  getNumAtoms mol' = getNumAtoms mol.
Proof.
  intros Ha Ha' Hother.
  assert (atoms mol' = alter (λ _, a') p (atoms mol)) as Heq.
  { apply list_eq. intros j. destruct (decide (j = p)) as [->|Hj].
    - by rewrite list_lookup_alter_eq, Ha, Ha'.
    - by rewrite list_lookup_alter_ne, Hother. }
  unfold molFormalCharge, getNumAtoms. rewrite Heq, sumCharges_alter, Ha, length_alter.
  done.
Qed.

Lemma ionizeStep_molFormalCharge mol poccur mol' :
  (back poccur < getNumAtoms mol)%nat →
  ionizeStep mol poccur = Ok mol' →
  molFormalCharge mol' = molFormalCharge mol - 1 ∧ getNumAtoms mol' = getNumAtoms mol.
Proof.
  intros [a Ha]%lookup_lt_is_Some_2 Hstep.
  destruct (ionizeStep_lookup _ _ _ _ Ha Hstep) as (a' & Ha' & Hc & _ & _ & Hother).
  destruct (molFormalCharge_update _ _ _ _ _ Ha Ha' Hother) as [-> ->]. split; [lia|done].
Qed.

Lemma ionizations_molFormalCharge abpairs n mol mol' :
  (∀ m, matcher_wf m) →
  ionizations abpairs n mol mol' →
  molFormalCharge mol' = molFormalCharge mol - Z.of_nat n ∧
  getNumAtoms mol' = getNumAtoms mol.
Proof.
  intros Hwf Hion. induction Hion as [mol|n mol ppos poccur mol1 mol' Hsp Hstep _ IH].
  - split; [lia|done].
  - pose proof (strongestProtonated_site _ _ _ _ (Hwf mol) Hsp) as Hsite.
    destruct (ionizeStep_molFormalCharge _ _ _ Hsite Hstep) as [Hc HN].
    destruct IH as [-> ->]. split; [lia|done].
Qed.

(** X4. When the deficit phase returns normally it has lowered the total
    charge by the number [n] of ionizations it made, which is at most
    [charge_diff] (none when [charge_diff] is not positive or the corrected
    charge is zero): the phase takes back at most what the corrections
    added. *)
Theorem deficit_phase_total abpairs current_charge charge_diff mol mol' :
  (∀ m, matcher_wf m) →
  deficitPhase abpairs current_charge charge_diff mol = Some (Ok mol') →
  ∃ n : nat,
    molFormalCharge mol' = molFormalCharge mol - Z.of_nat n ∧
    Z.of_nat n ≤ Z.max 0 charge_diff ∧
    (current_charge = 0 → n = 0%nat) ∧
    getNumAtoms mol' = getNumAtoms mol.
Proof.
  intros Hwf. unfold deficitPhase. destruct (current_charge =? 0) eqn:Hcur; cbn [negb].
  - intros [= <-]. exists 0%nat. split_and!; [lia|lia|done|done].
  - intros (n & Hion & Hle & _)%deficitLoop_Ok.
    destruct (ionizations_molFormalCharge _ _ _ _ Hwf Hion) as [Hc HN].
    exists n. apply Z.eqb_neq in Hcur. split_and!; [done|lia|done|done].
Qed.

Lemma transfers_molFormalCharge abpairs n mol am mol' am' :
  (∀ m, matcher_wf m) →
  transfers abpairs n (mol, am) (mol', am') →
  molFormalCharge mol' = molFormalCharge mol.
Proof.
  intros Hwf Htr. remember (mol, am) as st eqn:Hst. remember (mol', am') as st' eqn:Hst'.
  revert mol am Hst.
  induction Htr as [st|n mol1 am1 mol2 am2 st Hstep Htr IH]; intros mol am Hst.
  - by simplify_eq.
  - injection Hst as -> ->. rewrite (IH Hst' _ _ eq_refl).
    apply balanceStep_Continue in Hstep
      as (ppos & poccur & ipos & ioccur & Hsp & Hwi & _ & Hne & _ & _ & Hmove).
    eapply moveProton_molFormalCharge; [exact Hne| | |exact Hmove].
    + by eapply strongestProtonated_site.
    + by eapply weakestIonized_site.
Qed.

(** X5. The balancing loop as a whole conserves the total charge: when it
    returns normally, however many protons it moved, the sum of the formal
    charges and the number of atoms are what they were. *)
Theorem balancing_conserves_total abpairs fuel mol am mol' :
  (∀ m, matcher_wf m) →
  balanceLoop fuel abpairs mol am = Some (Ok mol') →
  molFormalCharge mol' = molFormalCharge mol ∧ getNumAtoms mol' = getNumAtoms mol.
Proof.
  intros Hwf (n & am' & _ & Htr & _)%balanceLoop_Ok. split.
  - by eapply transfers_molFormalCharge.
  - clear -Htr. remember (mol, am) as st eqn:Hst. remember (mol', am') as st' eqn:Hst'.
    revert mol am Hst.
    induction Htr as [st|n mol1 am1 mol2 am2 st Hstep Htr IH]; intros mol am Hst.
    + by simplify_eq.
    + injection Hst as -> ->. rewrite (IH Hst' _ _ eq_refl).
      by eapply balanceStep_numAtoms.
Qed.

(** ** Reionizer: what it leaves alone *)

Lemma view_modifyAtom {A} (g : Atom → A) idx f mol :
  (∀ a, g (f a) = g a) →
  g <$> atoms (modifyAtom idx f mol) = g <$> atoms mol.
Proof.
  intros Hf. apply list_eq. intros j.
  rewrite !list_lookup_fmap, lookup_modifyAtom. case_decide as Hj; [|done].
  subst j. destruct (atoms mol !! idx); simpl; [|done]. by rewrite Hf.
Qed.

Section Blind.
Context {A : Type} (g : Atom → A) (Hg : chargeBlind g).

Lemma view_setFormalCharge idx c mol :
  g <$> atoms (setFormalCharge idx c mol) = g <$> atoms mol.
Proof. apply view_modifyAtom. intros a. apply Hg. Qed.

Lemma view_setNumExplicitHs idx h mol :
  g <$> atoms (setNumExplicitHs idx h mol) = g <$> atoms mol.
Proof. apply view_modifyAtom. intros a. apply Hg. Qed.

Lemma view_refreshValence mol idx :
  g <$> atoms (refreshValence mol idx) = g <$> atoms mol.
Proof. apply view_modifyAtom. intros a. apply Hg. Qed.

Lemma view_updatePropertyCache strict mol idx :
  g <$> atoms (resultMol (updatePropertyCache strict mol idx)) = g <$> atoms mol.
Proof.
  unfold updatePropertyCache. destruct (_ && _); simpl; [done|].
  apply view_refreshValence.
Qed.

Lemma view_ensurePropertyCache mol :
  g <$> atoms (ensurePropertyCache mol) = g <$> atoms mol.
Proof.
  unfold ensurePropertyCache. destruct (needsUpdatePropertyCache mol); [|done].
  unfold molUpdatePropertyCache. generalize (seq 0 (getNumAtoms mol)). intros l.
  induction l as [|i l IH] using rev_ind; [done|].
  rewrite foldl_app. cbn [foldl]. by rewrite view_refreshValence.
Qed.

Lemma view_applyChargeCorrections ccs mol :
  g <$> atoms (applyChargeCorrections ccs mol) = g <$> atoms mol.
Proof.
  unfold applyChargeCorrections. induction ccs as [|cc ccs IH] using rev_ind; [done|].
  rewrite foldl_app. simpl. rewrite <- IH.
  generalize (foldl applyChargeCorrection mol ccs). intros m.
  apply list_eq. intros i. rewrite !list_lookup_fmap, applyChargeCorrection_lookup.
  case_decide; [|done]. destruct (atoms m !! i) as [a|]; simpl; [|done].
  f_equal. apply Hg.
Qed.

Lemma view_ionizeStep mol poccur :
  g <$> atoms (resultMol (ionizeStep mol poccur)) = g <$> atoms mol.
Proof.
  unfold ionizeStep. rewrite view_updatePropertyCache.
  destruct (0 <? _); by rewrite ?view_setNumExplicitHs, view_setFormalCharge.
Qed.

Lemma view_removeProton mol patom :
  g <$> atoms (resultMol (removeProton mol patom)) = g <$> atoms mol.
Proof.
  unfold removeProton. rewrite view_updatePropertyCache.
  destruct (_ && _); by rewrite ?view_setNumExplicitHs, view_setFormalCharge.
Qed.

Lemma view_addProton mol patom iatom :
  g <$> atoms (resultMol (addProton mol patom iatom)) = g <$> atoms mol.
Proof.
  unfold addProton. rewrite view_updatePropertyCache.
  destruct (addsExplicitH _ _ _); by rewrite ?view_setNumExplicitHs, view_setFormalCharge.
Qed.

Lemma view_moveProton mol patom iatom :
  g <$> atoms (resultMol (moveProton mol patom iatom)) = g <$> atoms mol.
Proof.
  unfold moveProton. pose proof (view_removeProton mol patom) as Hrem.
  destruct (removeProton mol patom) as [mol1|mol1]; simpl in Hrem; [|done].
  by rewrite view_addProton.
Qed.

Lemma view_deficitLoop fuel abpairs charge_diff mol res :
  deficitLoop fuel abpairs charge_diff mol = Some res →
  g <$> atoms (resultMol res) = g <$> atoms mol.
Proof.
  revert charge_diff mol. induction fuel as [|fuel IH]; intros charge_diff mol; [done|].
  simpl. destruct (0 <? charge_diff); [|by intros [= <-]].
  destruct (strongestProtonated mol abpairs) as [[ppos poccur]|]; [|by intros [= <-]].
  pose proof (view_ionizeStep mol poccur) as Hstep.
  destruct (ionizeStep mol poccur) as [mol1|mol1]; simpl in Hstep.
  - intros Hres%IH. by rewrite Hres.
  - by intros [= <-].
Qed.

Lemma view_balanceLoop fuel abpairs mol am res :
  balanceLoop fuel abpairs mol am = Some res →
  g <$> atoms (resultMol res) = g <$> atoms mol.
Proof.
  revert mol am. induction fuel as [|fuel IH]; intros mol am; [done|]. simpl.
  unfold balanceStep.
  destruct (strongestProtonated mol abpairs) as [[ppos poccur]|]; [|by intros [= <-]].
  destruct (weakestIonized mol abpairs) as [[ipos ioccur]|]; [|by intros [= <-]].
  destruct (ppos <? ipos)%nat; [|by intros [= <-]].
  destruct (back poccur =? back ioccur)%nat; [by intros [= <-]|].
  case_decide; [by intros [= <-]|].
  pose proof (view_moveProton mol (back poccur) (back ioccur)) as Hmove.
  destruct (moveProton _ _ _) as [mol1|mol1]; simpl in Hmove.
  - intros Hres%IH. by rewrite Hres.
  - by intros [= <-].
Qed.

Lemma view_reionizeInPlace r mol res :
  reionizeInPlace r mol = Some res →
  g <$> atoms (resultMol res) = g <$> atoms mol.
Proof.
  unfold reionizeInPlace.
  set (mol1 := applyChargeCorrections (d_ccs r) (ensurePropertyCache mol)).
  assert (g <$> atoms mol1 = g <$> atoms mol) as H1
    by (unfold mol1; by rewrite view_applyChargeCorrections, view_ensurePropertyCache).
  destruct (deficitPhase _ _ _ mol1) as [[mol2|mol2]|] eqn:Hdef; [| |done].
  - assert (g <$> atoms mol2 = g <$> atoms mol1) as H2.
    { unfold deficitPhase in Hdef. destruct (negb _).
      - by apply view_deficitLoop in Hdef.
      - by injection Hdef as <-. }
    intros Hres%view_balanceLoop. by rewrite Hres, H2.
  - intros [= <-]. simpl.
    unfold deficitPhase in Hdef. destruct (negb _); [|done].
    apply view_deficitLoop in Hdef. by rewrite <- H1.
Qed.

End Blind.

Lemma bonds_modifyAtom idx f mol : bonds (modifyAtom idx f mol) = bonds mol.
Proof. done. Qed.

Lemma bonds_ensurePropertyCache mol : bonds (ensurePropertyCache mol) = bonds mol.
Proof.
  unfold ensurePropertyCache. destruct (needsUpdatePropertyCache mol); [|done].
  unfold molUpdatePropertyCache. generalize (seq 0 (getNumAtoms mol)). intros l.
  induction l as [|i l IH] using rev_ind; [done|]. by rewrite foldl_app.
Qed.

Lemma bonds_applyChargeCorrections ccs mol :
  bonds (applyChargeCorrections ccs mol) = bonds mol.
Proof.
  unfold applyChargeCorrections. induction ccs as [|cc ccs IH] using rev_ind; [done|].
  rewrite foldl_app. simpl. by rewrite applyChargeCorrection_bonds.
Qed.

Lemma bonds_updatePropertyCache strict mol idx :
  bonds (resultMol (updatePropertyCache strict mol idx)) = bonds mol.
Proof. unfold updatePropertyCache. by destruct (_ && _). Qed.

Lemma bonds_ionizeStep mol poccur : bonds (resultMol (ionizeStep mol poccur)) = bonds mol.
Proof.
  unfold ionizeStep. rewrite bonds_updatePropertyCache. by destruct (0 <? _).
Qed.

Lemma bonds_moveProton mol patom iatom :
  bonds (resultMol (moveProton mol patom iatom)) = bonds mol.
Proof.
  unfold moveProton.
  assert (bonds (resultMol (removeProton mol patom)) = bonds mol) as Hrem.
  { unfold removeProton. rewrite bonds_updatePropertyCache. by destruct (_ && _). }
  destruct (removeProton mol patom) as [mol1|mol1]; simpl in Hrem; [|done].
  unfold addProton. rewrite bonds_updatePropertyCache.
  by destruct (addsExplicitH _ _ _).
Qed.

Lemma bonds_deficitLoop fuel abpairs charge_diff mol res :
  deficitLoop fuel abpairs charge_diff mol = Some res → bonds (resultMol res) = bonds mol.
Proof.
  revert charge_diff mol. induction fuel as [|fuel IH]; intros charge_diff mol; [done|].
  simpl. destruct (0 <? charge_diff); [|by intros [= <-]].
  destruct (strongestProtonated mol abpairs) as [[ppos poccur]|]; [|by intros [= <-]].
  pose proof (bonds_ionizeStep mol poccur) as Hstep.
  destruct (ionizeStep mol poccur) as [mol1|mol1]; simpl in Hstep.
  - intros Hres%IH. by rewrite Hres.
  - by intros [= <-].
Qed.

Lemma bonds_balanceLoop fuel abpairs mol am res :
  balanceLoop fuel abpairs mol am = Some res → bonds (resultMol res) = bonds mol.
Proof.
  revert mol am. induction fuel as [|fuel IH]; intros mol am; [done|]. simpl.
  unfold balanceStep.
  destruct (strongestProtonated mol abpairs) as [[ppos poccur]|]; [|by intros [= <-]].
  destruct (weakestIonized mol abpairs) as [[ipos ioccur]|]; [|by intros [= <-]].
  destruct (ppos <? ipos)%nat; [|by intros [= <-]].
  destruct (back poccur =? back ioccur)%nat; [by intros [= <-]|].
  case_decide; [by intros [= <-]|].
  pose proof (bonds_moveProton mol (back poccur) (back ioccur)) as Hmove.
  destruct (moveProton _ _ _) as [mol1|mol1]; simpl in Hmove.
  - intros Hres%IH. by rewrite Hres.
  - by intros [= <-].
Qed.

Lemma bonds_reionizeInPlace r mol res :
  reionizeInPlace r mol = Some res → bonds (resultMol res) = bonds mol.
Proof.
  unfold reionizeInPlace.
  set (mol1 := applyChargeCorrections (d_ccs r) (ensurePropertyCache mol)).
  assert (bonds mol1 = bonds mol) as H1
    by (unfold mol1; by rewrite bonds_applyChargeCorrections, bonds_ensurePropertyCache).
  destruct (deficitPhase _ _ _ mol1) as [[mol2|mol2]|] eqn:Hdef; [| |done].
  - assert (bonds mol2 = bonds mol1) as H2.
    { unfold deficitPhase in Hdef. destruct (negb _).
      - by apply bonds_deficitLoop in Hdef.
      - by injection Hdef as <-. }
    intros Hres%bonds_balanceLoop. by rewrite Hres, H2.
  - intros [= <-]. simpl.
    unfold deficitPhase in Hdef. destruct (negb _); [|done].
    apply bonds_deficitLoop in Hdef. by rewrite <- H1.
Qed.

Lemma atomFrame_chargeBlind : chargeBlind atomFrame.
Proof. intros a. by split_and!. Qed.

(** X6. [reionizeInPlace] changes charges and hydrogen counts only:
    whether it returns or throws, the molecule it leaves has the bonds it
    had, and every atom has kept its element, its aromaticity and its
    no-implicit flag (so the atom count is kept too). *)
Theorem reionize_keeps_graph r mol res :
  reionizeInPlace r mol = Some res →
  skeleton (resultMol res) = skeleton mol ∧
  noImplicitFlags (resultMol res) = noImplicitFlags mol ∧
  getNumAtoms (resultMol res) = getNumAtoms mol.
Proof.
  intros Hres.
  pose proof (view_reionizeInPlace atomFrame atomFrame_chargeBlind _ _ _ Hres) as Hframe.
  pose proof (bonds_reionizeInPlace _ _ _ Hres) as Hbonds.
  assert (∀ m, atomKind <$> atoms m = (λ x, (x.1.1, x.1.2)) <$> (atomFrame <$> atoms m))
    as Hkind by (intros m; by rewrite <- list_fmap_compose).
  assert (∀ m, df_noImplicit <$> atoms m = snd <$> (atomFrame <$> atoms m))
    as Hflag by (intros m; by rewrite <- list_fmap_compose).
  unfold skeleton, noImplicitFlags, getNumAtoms. split_and!.
  - by rewrite Hbonds, !Hkind, Hframe.
  - by rewrite !Hflag, Hframe.
  - by rewrite <- (length_fmap atomFrame), Hframe, length_fmap.
Qed.

Lemma molFormalCharge_molChem mol mol' :
  molChem mol = molChem mol' → molFormalCharge mol = molFormalCharge mol'.
Proof.
  unfold molChem, molFormalCharge, sumCharges.
  assert (∀ l, foldr (λ a s, d_formalCharge a + s) 0 l
               = foldr (λ c s, c.1.1 + s) 0 (chem <$> l)) as Hsum.
  { intros l. induction l as [|a l IH]; simpl; [done|]. by rewrite IH. }
  intros Heq. by rewrite !Hsum, Heq.
Qed.

(** X7. The total charge after [reionizeInPlace]: when the call returns
    normally, the total charge is the corrected charge minus the number of
    ionizations of the deficit phase, which is at most the amount by which
    the corrections raised the charge (and zero when the corrected charge
    is zero).  So the result lies between the original and the corrected
    total charge. *)
Theorem reionize_total_charge r mol mol' :
  (∀ m, matcher_wf m) →
  reionizeInPlace r mol = Some (Ok mol') →
  let start_charge := molFormalCharge mol in
  let current_charge :=
    molFormalCharge (applyChargeCorrections (d_ccs r) (ensurePropertyCache mol)) in
  ∃ n : nat,
    molFormalCharge mol' = current_charge - Z.of_nat n ∧
    Z.of_nat n ≤ Z.max 0 (current_charge - start_charge) ∧
    (current_charge = 0 → n = 0%nat) ∧
    Z.min start_charge current_charge ≤ molFormalCharge mol' ≤ current_charge.
Proof.
  intros Hwf. unfold reionizeInPlace.
  rewrite (molFormalCharge_molChem mol (ensurePropertyCache mol))
    by (symmetry; apply molChem_ensurePropertyCache).
  set (mol0 := ensurePropertyCache mol).
  set (mol1 := applyChargeCorrections (d_ccs r) mol0).
  destruct (deficitPhase _ _ _ mol1) as [[mol2|mol2]|] eqn:Hdef; [|done|done].
  intros Hloop. cbv zeta.
  assert (∃ n : nat, molFormalCharge mol2 = molFormalCharge mol1 - Z.of_nat n ∧
            Z.of_nat n ≤ Z.max 0 (molFormalCharge mol1 - molFormalCharge mol0) ∧
            (molFormalCharge mol1 = 0 → n = 0%nat)) as (n & Hc & Hle & Hzero).
  { unfold deficitPhase in Hdef.
    destruct (molFormalCharge mol1 =? 0) eqn:Hcur; cbn [negb] in Hdef.
    - injection Hdef as <-. exists 0%nat. split_and!; [lia|lia|done].
    - apply deficitLoop_Ok in Hdef as (n & Hion & Hle & _).
      destruct (ionizations_molFormalCharge _ _ _ _ Hwf Hion) as [Hc _].
      exists n. apply Z.eqb_neq in Hcur. split_and!; [done|lia|done]. }
  apply balanceLoop_Ok in Hloop as (k & am' & _ & Htr & _).
  rewrite (transfers_molFormalCharge _ _ _ _ _ _ Hwf Htr), Hc.
  exists n. split_and!; [done|done|done|lia|lia].
Qed.

(** X8. A catalogue with fewer than two pairs never moves a proton: the
    two scans can only answer rank 0, so the loop body breaks at once and
    the balancing phase returns the molecule as it is.  With an empty
    catalogue [reionizeInPlace] applies the corrections and nothing else. *)
Theorem short_catalogue abpairs :
  (length abpairs ≤ 1)%nat →
  (∀ mol am, balanceStep abpairs mol am = Break) ∧
  (∀ fuel mol am, balanceLoop (S fuel) abpairs mol am = Some (Ok mol)) ∧
  (abpairs = [] →
     ∀ ccs mol, reionizeInPlace (mkReionizer abpairs ccs) mol
                = Some (Ok (applyChargeCorrections ccs (ensurePropertyCache mol)))).
Proof.
  intros Hlen.
  assert (∀ mol am, balanceStep abpairs mol am = Break) as Hbreak.
  { intros mol am. apply balanceStep_Break.
    destruct (strongestProtonated mol abpairs) as [[ppos poccur]|] eqn:Hsp; [|by left].
    destruct (weakestIonized mol abpairs) as [[ipos ioccur]|] eqn:Hwi; [|by right; left].
    right. right. exists ppos, poccur, ipos, ioccur. split_and!; [done..|]. left.
    apply strongestProtonated_Some in Hsp as (p & _ & Hp%lookup_lt_Some & _).
    apply weakestIonized_Some in Hwi as (q & _ & Hq%lookup_lt_Some & _). lia. }
  split_and!; [done| |].
  - intros fuel mol am. simpl. by rewrite Hbreak.
  - intros -> ccs mol. unfold reionizeInPlace. simpl d_abcat. simpl d_ccs.
    assert (∀ cur diff m, deficitPhase [] cur diff m = Some (Ok m)) as ->.
    { intros cur diff m. unfold deficitPhase. destruct (negb _); [|done].
      simpl. by destruct (0 <? diff). }
    cbn [balanceLoop]. by rewrite Hbreak.
Qed.

(** ** Reionizer: hydrogen counts stay non-negative *)

Lemma explicitHsNonneg_modifyAtom idx f mol :
  explicitHsNonneg mol →
  (∀ a, atoms mol !! idx = Some a → 0 ≤ d_numExplicitHs (f a)) →
  explicitHsNonneg (modifyAtom idx f mol).
Proof.
  intros Hmol Hf i a. rewrite lookup_modifyAtom. case_decide as Hi.
  - subst i. destruct (atoms mol !! idx) as [b|] eqn:Hb; simpl; [|done].
    intros [= <-]. by apply Hf.
  - apply Hmol.
Qed.

Lemma explicitHsNonneg_setFormalCharge idx c mol :
  explicitHsNonneg mol → explicitHsNonneg (setFormalCharge idx c mol).
Proof.
  intros Hmol. apply explicitHsNonneg_modifyAtom; [done|]. intros a Ha. simpl. by eapply Hmol.
Qed.

Lemma explicitHsNonneg_refreshValence mol idx :
  explicitHsNonneg mol → explicitHsNonneg (refreshValence mol idx).
Proof.
  intros Hmol. apply explicitHsNonneg_modifyAtom; [done|]. intros a Ha. simpl. by eapply Hmol.
Qed.

Lemma explicitHsNonneg_setNumExplicitHs idx h mol :
  explicitHsNonneg mol → 0 ≤ h → explicitHsNonneg (setNumExplicitHs idx h mol).
Proof. intros Hmol Hh. by apply explicitHsNonneg_modifyAtom. Qed.

Lemma explicitHsNonneg_get mol idx :
  explicitHsNonneg mol → 0 ≤ getNumExplicitHs mol idx.
Proof.
  intros Hmol. unfold getNumExplicitHs, atomField.
  destruct (atoms mol !! idx) eqn:Ha; [by eapply Hmol|done].
Qed.

Lemma explicitHsNonneg_updatePropertyCache strict mol idx :
  explicitHsNonneg mol → explicitHsNonneg (resultMol (updatePropertyCache strict mol idx)).
Proof.
  intros Hmol. unfold updatePropertyCache. destruct (_ && _); simpl; [done|].
  by apply explicitHsNonneg_refreshValence.
Qed.

Lemma explicitHsNonneg_ensurePropertyCache mol :
  explicitHsNonneg mol → explicitHsNonneg (ensurePropertyCache mol).
Proof.
  intros Hmol. unfold ensurePropertyCache. destruct (needsUpdatePropertyCache mol); [|done].
  unfold molUpdatePropertyCache. generalize (seq 0 (getNumAtoms mol)). intros l.
  induction l as [|i l IH] using rev_ind; [done|].
  rewrite foldl_app. cbn [foldl]. by apply explicitHsNonneg_refreshValence.
Qed.

Lemma explicitHsNonneg_applyChargeCorrections ccs mol :
  explicitHsNonneg mol → explicitHsNonneg (applyChargeCorrections ccs mol).
Proof.
  intros Hmol. unfold applyChargeCorrections.
  induction ccs as [|cc ccs IH] using rev_ind; [done|].
  rewrite foldl_app. cbn [foldl]. intros i a.
  rewrite applyChargeCorrection_lookup. case_decide.
  - destruct (atoms (foldl applyChargeCorrection mol ccs) !! i) as [b|] eqn:Hb;
      simpl; [|done]. intros [= <-]. simpl. by eapply IH.
  - apply IH.
Qed.

Lemma explicitHsNonneg_ionizeStep mol poccur :
  explicitHsNonneg mol → explicitHsNonneg (resultMol (ionizeStep mol poccur)).
Proof.
  intros Hmol. unfold ionizeStep. apply explicitHsNonneg_updatePropertyCache.
  set (mol1 := setFormalCharge _ _ mol).
  assert (explicitHsNonneg mol1) as H1 by by apply explicitHsNonneg_setFormalCharge.
  destruct (0 <? getNumExplicitHs mol1 (back poccur)) eqn:Hpos; [|done].
  apply Z.ltb_lt in Hpos. apply explicitHsNonneg_setNumExplicitHs; [done|lia].
Qed.

Lemma explicitHsNonneg_moveProton mol patom iatom :
  explicitHsNonneg mol → explicitHsNonneg (resultMol (moveProton mol patom iatom)).
Proof.
  intros Hmol. unfold moveProton.
  assert (explicitHsNonneg (resultMol (removeProton mol patom))) as Hrem.
  { unfold removeProton. apply explicitHsNonneg_updatePropertyCache.
    set (mol1 := setFormalCharge _ _ mol).
    assert (explicitHsNonneg mol1) as H1 by by apply explicitHsNonneg_setFormalCharge.
    destruct (_ && _) eqn:Hcond; [|done].
    apply andb_true_iff in Hcond as [_ Hpos%Z.ltb_lt].
    apply explicitHsNonneg_setNumExplicitHs; [done|lia]. }
  destruct (removeProton mol patom) as [mol1|mol1]; simpl in Hrem; [|done].
  unfold addProton. apply explicitHsNonneg_updatePropertyCache.
  set (mol2 := setFormalCharge _ _ mol1).
  assert (explicitHsNonneg mol2) as H2 by by apply explicitHsNonneg_setFormalCharge.
  destruct (addsExplicitH _ _ _); [|done].
  apply explicitHsNonneg_setNumExplicitHs; [done|].
  pose proof (explicitHsNonneg_get mol2 iatom H2). lia.
Qed.

Lemma explicitHsNonneg_deficitLoop fuel abpairs charge_diff mol res :
  explicitHsNonneg mol →
  deficitLoop fuel abpairs charge_diff mol = Some res →
  explicitHsNonneg (resultMol res).
Proof.
  revert charge_diff mol. induction fuel as [|fuel IH]; intros charge_diff mol Hmol; [done|].
  simpl. destruct (0 <? charge_diff); [|by intros [= <-]].
  destruct (strongestProtonated mol abpairs) as [[ppos poccur]|]; [|by intros [= <-]].
  pose proof (explicitHsNonneg_ionizeStep mol poccur Hmol) as Hstep.
  destruct (ionizeStep mol poccur) as [mol1|mol1]; simpl in Hstep.
  - by apply IH.
  - by intros [= <-].
Qed.

Lemma explicitHsNonneg_balanceLoop fuel abpairs mol am res :
  explicitHsNonneg mol →
  balanceLoop fuel abpairs mol am = Some res →
  explicitHsNonneg (resultMol res).
Proof.
  revert mol am. induction fuel as [|fuel IH]; intros mol am Hmol; [done|]. simpl.
  unfold balanceStep.
  destruct (strongestProtonated mol abpairs) as [[ppos poccur]|]; [|by intros [= <-]].
  destruct (weakestIonized mol abpairs) as [[ipos ioccur]|]; [|by intros [= <-]].
  destruct (ppos <? ipos)%nat; [|by intros [= <-]].
  destruct (back poccur =? back ioccur)%nat; [by intros [= <-]|].
  case_decide; [by intros [= <-]|].
  pose proof (explicitHsNonneg_moveProton mol (back poccur) (back ioccur) Hmol) as Hmove.
  destruct (moveProton _ _ _) as [mol1|mol1]; simpl in Hmove.
  - by apply IH.
  - by intros [= <-].
Qed.

(** X9. [reionizeInPlace] never drives an explicit hydrogen count below
    zero: both decrements (lines 162-164 and 219-221) are guarded by a
    positive count, so a molecule without negative counts has none after
    the call, whether it returns or throws. *)
Theorem reionize_explicitHs_nonneg r mol res :
  explicitHsNonneg mol →
  reionizeInPlace r mol = Some res →
  explicitHsNonneg (resultMol res).
Proof.
  intros Hmol. unfold reionizeInPlace.
  set (mol1 := applyChargeCorrections (d_ccs r) (ensurePropertyCache mol)).
  assert (explicitHsNonneg mol1) as H1
    by by apply explicitHsNonneg_applyChargeCorrections,
                explicitHsNonneg_ensurePropertyCache.
  destruct (deficitPhase _ _ _ mol1) as [[mol2|mol2]|] eqn:Hdef; [| |done].
  - assert (explicitHsNonneg mol2) as H2.
    { unfold deficitPhase in Hdef. destruct (negb _).
      - by apply (explicitHsNonneg_deficitLoop _ _ _ _ _ H1 Hdef).
      - by injection Hdef as <-. }
    by apply explicitHsNonneg_balanceLoop.
  - intros [= <-]. unfold deficitPhase in Hdef. destruct (negb _); [|done].
    by apply (explicitHsNonneg_deficitLoop _ _ _ _ _ H1 Hdef).
Qed.

(** ** Uncharger: neutralizing one anion *)

(** X10. [neutralizeNegIfPossible] refuses exactly the early atoms without
    hydrogen, and then changes nothing.  Otherwise it raises the formal
    charge of the atom by one, sets its no-implicit flag, and makes its
    hydrogens explicit with one more (one fewer for an early atom), so that
    the total hydrogen count moves by exactly one and, if it was not
    negative, stays so; no other atom and no bond is touched. *)
Theorem neutralize_neg_effect mol atom a :
  atoms mol !! atom = Some a →
  let early := isEarlyAtom (d_atomicNum a) in
  let total := atomTotalNumHs a in
  let hDelta := if early then -1 else 1 in
  let done_ := fst (neutralizeNegIfPossible mol atom) in
  let mol' := snd (neutralizeNegIfPossible mol atom) in
  done_ = negb (early && (total =? 0)) ∧
  (done_ = false → mol' = mol) ∧
  (done_ = true →
     getFormalCharge mol' atom = d_formalCharge a + 1 ∧
     getNoImplicit mol' atom = true ∧
     getNumExplicitHs mol' atom = total + hDelta ∧
     getTotalNumHs mol' atom = total + hDelta ∧
     (0 ≤ total → 0 ≤ getTotalNumHs mol' atom)) ∧
  (∀ j, j ≠ atom → atoms mol' !! j = atoms mol !! j) ∧
  bonds mol' = bonds mol.
Proof.
  intros Ha early total hDelta done_ mol'.
  subst done_ mol'. unfold neutralizeNegIfPossible.
  replace (getAtomicNum mol atom) with (d_atomicNum a)
    by (unfold getAtomicNum, atomField; by rewrite Ha).
  replace (getTotalNumHs mol atom) with total
    by (unfold getTotalNumHs, atomField; by rewrite Ha).
  fold early. rewrite negb_involutive.
  destruct (early && (total =? 0)) eqn:Hrefuse; cbn [fst snd negb].
  - split_and!; done.
  - fold hDelta.
    destruct (neutralizeNeg_lookup mol atom hDelta a Ha) as (ev & iv & Hmol').
    split_and!; [done|done| |intros j Hj; by rewrite Hmol', decide_False|done].
    intros _. unfold getFormalCharge, getNoImplicit, getNumExplicitHs, getTotalNumHs,
      atomField. rewrite Hmol', decide_True by done.
    cbn. fold total.
    assert (∀ c n ar ev' iv', atomTotalNumHs (mkAtom (d_atomicNum a) c n true ar ev' iv') = n)
      as -> by (intros; unfold atomTotalNumHs, atomImplicitValence; simpl; lia).
    split_and!; [done|done|done|done|].
    intros Htotal. subst hDelta. destruct early; [|lia].
    apply andb_false_iff in Hrefuse as [?|Hz%Z.eqb_neq]; [done|lia].
Qed.

(** ** Uncharger: how far the negative pass goes *)

Lemma negCount_cons pr rest mol :
  negCount (pr :: rest) mol
  = ((if fst (neutralizeNegIfPossible mol (snd pr)) then 1 else 0)
     + negCount rest (snd (neutralizeNegIfPossible mol (snd pr))))%nat.
Proof. simpl. by destruct (neutralizeNegIfPossible mol (snd pr)). Qed.

Lemma negLoop_prefix neg_atoms neg_surplus mol :
  0 < neg_surplus < 2 ^ 31 →
  ∃ j, (j ≤ length neg_atoms)%nat ∧
    negLoop neg_atoms neg_surplus mol = negAll (take j neg_atoms) mol ∧
    Z.of_nat (negCount (take j neg_atoms) mol) ≤ neg_surplus ∧
    (j = length neg_atoms ∨ Z.of_nat (negCount (take j neg_atoms) mol) = neg_surplus).
Proof.
  revert neg_surplus mol. induction neg_atoms as [|pr rest IH]; intros s mol Hs.
  - exists 0%nat. simpl. split_and!; [lia|done|lia|by left].
  - cbn [negLoop].
    destruct (neutralizeNegIfPossible mol (snd pr)) as [done_ mol1] eqn:Hn.
    destruct done_.
    + rewrite (wrap_i32_small (s - 1)) by lia.
      destruct (s - 1 =? 0) eqn:Hz.
      * apply Z.eqb_eq in Hz. exists 1%nat. cbn [take].
        rewrite negAll_cons, negCount_cons, Hn. cbn [fst snd].
        split_and!; [simpl; lia|done|simpl; lia|right; simpl; lia].
      * apply Z.eqb_neq in Hz.
        destruct (IH (s - 1) mol1 ltac:(lia)) as (j & Hj & Heq & Hle & Hend).
        exists (S j). cbn [take]. rewrite negAll_cons, negCount_cons, Hn. cbn [fst snd].
        split_and!; [simpl; lia|done|lia|].
        destruct Hend as [->|Hend]; [by left|right; lia].
    + destruct (IH s mol1 Hs) as (j & Hj & Heq & Hle & Hend).
      exists (S j). cbn [take]. rewrite negAll_cons, negCount_cons, Hn. cbn [fst snd].
      split_and!; [simpl; lia|done|lia|].
      destruct Hend as [->|Hend]; [by left|right; lia].
Qed.

Lemma neutralizeNegIfPossible_molFormalCharge mol atom :
  (atom < getNumAtoms mol)%nat →
  molFormalCharge (snd (neutralizeNegIfPossible mol atom))
  = molFormalCharge mol
    + (if fst (neutralizeNegIfPossible mol atom) then 1 else 0) ∧
  getNumAtoms (snd (neutralizeNegIfPossible mol atom)) = getNumAtoms mol.
Proof.
  intros [a Ha]%lookup_lt_is_Some_2. unfold neutralizeNegIfPossible.
  destruct (_ && _); cbn [fst snd]; [split; [lia|done]|].
  set (hDelta := if isEarlyAtom _ then -1 else 1).
  destruct (neutralizeNeg_lookup mol atom hDelta a Ha) as (ev & iv & Hmol').
  destruct (molFormalCharge_update mol (neutralizeNeg mol atom hDelta) atom a _ Ha
              ltac:(by rewrite Hmol', decide_True)
              ltac:(by intros j Hj; rewrite Hmol', decide_False)) as [-> ->].
  simpl. split; [lia|done].
Qed.

Lemma negAll_molFormalCharge neg_atoms mol :
  (∀ pr, pr ∈ neg_atoms → (snd pr < getNumAtoms mol)%nat) →
  molFormalCharge (negAll neg_atoms mol)
  = molFormalCharge mol + Z.of_nat (negCount neg_atoms mol).
Proof.
  revert mol. induction neg_atoms as [|pr rest IH]; intros mol Hlt.
  - simpl. unfold negAll. simpl. lia.
  - rewrite negAll_cons, negCount_cons.
    destruct (neutralizeNegIfPossible_molFormalCharge mol (snd pr)
                (Hlt pr ltac:(by left))) as [Hc HN].
    rewrite IH.
    + rewrite Hc. destruct (fst _); lia.
    + intros pr' Hpr'. rewrite HN. apply Hlt. by right.
Qed.

Lemma negCount_le neg_atoms mol : (negCount neg_atoms mol ≤ length neg_atoms)%nat.
Proof.
  revert mol. induction neg_atoms as [|pr rest IH]; intros mol; [done|].
  rewrite negCount_cons. specialize (IH (snd (neutralizeNegIfPossible mol (snd pr)))).
  simpl. destruct (fst _); lia.
Qed.

(** X11. With a positive surplus the negative pass stops as soon as it has
    neutralized that many atoms: it treats a prefix of the list, in which
    at most [neg_surplus] atoms are neutralized, and the prefix is the
    whole list unless exactly [neg_surplus] were.  The total charge rises
    by the number of atoms neutralized, hence by at most [neg_surplus]. *)
Theorem negative_pass_stops neg_atoms neg_surplus mol :
  0 < neg_surplus < 2 ^ 31 →
  (∀ pr, pr ∈ neg_atoms → (snd pr < getNumAtoms mol)%nat) →
  ∃ j, (j ≤ length neg_atoms)%nat ∧
    negPass neg_atoms neg_surplus mol = negAll (take j neg_atoms) mol ∧
    Z.of_nat (negCount (take j neg_atoms) mol) ≤ neg_surplus ∧
    (j = length neg_atoms ∨ Z.of_nat (negCount (take j neg_atoms) mol) = neg_surplus) ∧
    molFormalCharge (negPass neg_atoms neg_surplus mol)
    = molFormalCharge mol + Z.of_nat (negCount (take j neg_atoms) mol) ∧
    molFormalCharge mol ≤ molFormalCharge (negPass neg_atoms neg_surplus mol)
    ≤ molFormalCharge mol + Z.min neg_surplus (Z.of_nat (length neg_atoms)).
Proof.
  intros Hs Hlt. unfold negPass.
  rewrite (proj2 (Z.eqb_neq neg_surplus 0)) by lia. cbn [negb].
  destruct (negLoop_prefix neg_atoms neg_surplus mol Hs) as (j & Hj & Heq & Hle & Hend).
  exists j. rewrite Heq.
  assert (molFormalCharge (negAll (take j neg_atoms) mol)
          = molFormalCharge mol + Z.of_nat (negCount (take j neg_atoms) mol)) as Hc.
  { apply negAll_molFormalCharge. intros pr Hpr. apply Hlt.
    by apply (subseteq_take j neg_atoms). }
  pose proof (negCount_le (take j neg_atoms) mol) as Hcount.
  rewrite length_take in Hcount.
  split_and!; [done|done|done|done|done|lia|lia].
Qed.

(** X12. With [forceFullNeutralization] on, the quaternary charge is not
    subtracted: the surplus is the length of the list, and the pass tries
    to neutralize every atom of it, whatever [q_matched] is. *)
Theorem forced_pass_tries_all neg_atoms q_matched mol :
  Z.of_nat (length neg_atoms) < 2 ^ 31 →
  initialSurplus true neg_atoms q_matched = Z.of_nat (length neg_atoms) ∧
  negPass neg_atoms (initialSurplus true neg_atoms q_matched) mol = negAll neg_atoms mol.
Proof.
  intros Hlen. unfold initialSurplus. cbn [negb].
  rewrite wrap_i32_small by lia. split; [done|]. unfold negPass.
  destruct neg_atoms as [|pr rest]; [done|].
  rewrite (proj2 (Z.eqb_neq _ 0)) by (simpl; lia). cbn [negb].
  apply negLoop_negAll. intros k Hk. rewrite wrap_i32_small; lia.
Qed.

(** ** Uncharger: the negative-site list *)

(** X13. The negative-site list holds an entry of [n_atoms] exactly when
    its atom is an atom of the molecule and not an acid site, and an entry
    of [a_atoms] exactly when its atom was not set aside for charge
    separation; so when neither list names an atom twice the result does
    not either, and no atom is neutralized twice for matching both
    patterns. *)
Theorem neg_list_no_repeats mol n_atoms a_atoms :
  NoDup (snd <$> n_atoms) → NoDup (snd <$> a_atoms) →
  NoDup (snd <$> buildNegAtoms mol n_atoms a_atoms) ∧
  (∀ pr, pr ∈ buildNegAtoms mol n_atoms a_atoms ↔
     (pr ∈ n_atoms ∧ (snd pr < getNumAtoms mol)%nat ∧ snd pr ∉ snd <$> a_atoms) ∨
     (pr ∈ a_atoms ∧ snd pr ∉ skipChargeSepOf mol a_atoms)) ∧
  (length (buildNegAtoms mol n_atoms a_atoms) ≤ length n_atoms + length a_atoms)%nat.
Proof.
  intros Hn Ha. unfold buildNegAtoms, pushNonAcids, pushAcids. split_and!.
  - rewrite fmap_app. apply NoDup_app. split_and!.
    + eapply sublist_NoDup; [|apply fmap_sublist, sublist_filter]; exact Hn.
    + intros x (pr & -> & [Hnon _]%list_elem_of_filter)%list_elem_of_fmap
        (pr' & Heq & [_ Hpr']%list_elem_of_filter)%list_elem_of_fmap.
      apply elem_of_nonAcidsOf in Hnon as [_ Hnon]. apply Hnon.
      rewrite Heq. by apply list_elem_of_fmap_2.
    + eapply sublist_NoDup; [|apply fmap_sublist, sublist_filter]; exact Ha.
  - intros pr. rewrite elem_of_app, !list_elem_of_filter, elem_of_nonAcidsOf. split.
    + intros [[[HN Hacid] Hin]|[Hskip Hin]]; [left|right]; by split_and!.
    + intros [(Hin & HN & Hacid)|[Hin Hskip]]; [left|right]; by split_and!.
  - rewrite length_app.
    pose proof (length_filter (λ pair, snd pair ∈ nonAcidsOf mol a_atoms) n_atoms).
    pose proof (length_filter (λ pair, snd pair ∉ skipChargeSepOf mol a_atoms) a_atoms).
    lia.
Qed.

(** ** Uncharger: the positive pass *)

Lemma getFormalCharge_pos_lookup mol atom :
  0 < getFormalCharge mol atom → is_Some (atoms mol !! atom).
Proof.
  unfold getFormalCharge, atomField. destruct (atoms mol !! atom); [by eexists|lia].
Qed.

Lemma getFormalCharge_modifyAtom_keep i f mol j :
  (∀ a, d_formalCharge (f a) = d_formalCharge a) →
  getFormalCharge (modifyAtom i f mol) j = getFormalCharge mol j.
Proof.
  intros Hf. unfold getFormalCharge. rewrite atomField_modifyAtom.
  case_decide as Hj; [|done]. subst j. unfold atomField.
  destruct (atoms mol !! i); [apply Hf|done].
Qed.

Lemma molFormalCharge_modifyAtom_keep i f mol :
  (∀ a, d_formalCharge (f a) = d_formalCharge a) →
  molFormalCharge (modifyAtom i f mol) = molFormalCharge mol.
Proof.
  intros Hf. rewrite molFormalCharge_modifyAtom, getFormalCharge_modifyAtom_keep by done.
  lia.
Qed.

Lemma lowered_refl atom mol : lowered atom 0 mol mol.
Proof. unfold lowered. split_and!; [lia|lia|done|done|done]. Qed.

Lemma lowered_trans atom d1 d2 mol1 mol2 mol3 :
  lowered atom d1 mol1 mol2 → lowered atom d2 mol2 mol3 →
  lowered atom (d1 + d2) mol1 mol3.
Proof.
  intros (Hc1 & Ha1 & Hn1 & Ho1 & Hb1) (Hc2 & Ha2 & Hn2 & Ho2 & Hb2).
  unfold lowered. split_and!; [lia|lia|congruence| |congruence].
  intros j Hj. by rewrite Ho2, Ho1.
Qed.

Lemma lowered_keep atom f mol :
  (∀ a, d_formalCharge (f a) = d_formalCharge a) →
  lowered atom 0 mol (modifyAtom atom f mol).
Proof.
  intros Hf. unfold lowered.
  rewrite molFormalCharge_modifyAtom_keep, getFormalCharge_modifyAtom_keep,
    getNumAtoms_modifyAtom by done.
  split_and!; [lia|lia|done| |done].
  intros j Hj. by rewrite lookup_modifyAtom, decide_False.
Qed.

Lemma lowered_setFormalCharge atom mol :
  0 < getFormalCharge mol atom →
  lowered atom 1 mol (setFormalCharge atom (getFormalCharge mol atom - 1) mol).
Proof.
  intros Hpos. destruct (getFormalCharge_pos_lookup _ _ Hpos) as [a Ha].
  assert (getFormalCharge (setFormalCharge atom (getFormalCharge mol atom - 1) mol) atom
          = getFormalCharge mol atom - 1) as Hc.
  { unfold getFormalCharge at 1, setFormalCharge.
    by rewrite atomField_modifyAtom, decide_True, Ha. }
  unfold lowered. rewrite Hc. unfold setFormalCharge at 1.
  rewrite molFormalCharge_modifyAtom. fold (setFormalCharge atom (getFormalCharge mol atom - 1) mol).
  rewrite Hc. unfold setFormalCharge. rewrite getNumAtoms_modifyAtom.
  split_and!; [lia|done|done| |done].
  intros j Hj. by rewrite lookup_modifyAtom, decide_False.
Qed.

Lemma posWhile_lowered fuel atom netCharge mol :
  0 ≤ netCharge →
  let res := posWhile fuel atom netCharge mol in
  0 ≤ snd res ≤ netCharge ∧
  lowered atom (netCharge - snd res) mol (fst res) ∧
  (0 ≤ getFormalCharge mol atom → 0 ≤ getFormalCharge (fst res) atom).
Proof.
  revert netCharge mol. induction fuel as [|fuel IH]; intros net mol Hnet res; subst res.
  { simpl. replace (net - net) with 0 by lia.
    split_and!; [lia|lia|apply lowered_refl|done]. }
  cbn [posWhile].
  destruct ((0 <? getFormalCharge mol atom) && (0 <? net)) eqn:Hcond; cycle 1.
  { cbn [fst snd]. replace (net - net) with 0 by lia.
    split_and!; [lia|lia|apply lowered_refl|done]. }
  apply andb_true_iff in Hcond as [Hc%Z.ltb_lt Hn%Z.ltb_lt].
  pose proof (lowered_setFormalCharge atom mol Hc) as H1.
  set (mol1 := setFormalCharge atom (getFormalCharge mol atom - 1) mol) in *.
  destruct (negb (getAtomicNum mol1 atom =? 6) && negb (isEarlyAtom (getAtomicNum mol1 atom))).
  - set (mol2 := if 1 <=? getNumExplicitHs mol1 atom
                 then setNumExplicitHs atom (getNumExplicitHs mol1 atom - 1) mol1
                 else mol1).
    assert (lowered atom 0 mol1 mol2) as H2.
    { unfold mol2. destruct (1 <=? _); [by apply lowered_keep|apply lowered_refl]. }
    pose proof (lowered_trans _ _ _ _ _ _ H1 H2) as H12.
    destruct (getNumExplicitHs mol1 atom =? 1).
    + cbn [fst snd]. replace (net - (net - 1)) with (1 + 0) by lia.
      split_and!; [lia|lia|done|]. intros _. destruct H12 as (_ & -> & _). lia.
    + assert (lowered atom 0 mol2 (refreshValence mol2 atom)) as H3
        by by apply lowered_keep.
      pose proof (lowered_trans _ _ _ _ _ _ H12 H3) as H123.
      destruct (IH (net - 1) (refreshValence mol2 atom) ltac:(lia)) as (Hr & Hl & Hpos).
      split_and!; [lia|lia| |].
      * replace (net - _) with (1 + 0 + 0 + (net - 1 - snd (posWhile fuel atom (net - 1)
                                 (refreshValence mol2 atom)))) by lia.
        by eapply lowered_trans.
      * intros _. apply Hpos. destruct H123 as (_ & -> & _). lia.
  - set (mol2 := setNumExplicitHs atom (getNumExplicitHs mol1 atom + 1) mol1).
    assert (lowered atom 0 mol1 mol2) as H2 by by apply lowered_keep.
    pose proof (lowered_trans _ _ _ _ _ _ H1 H2) as H12.
    assert (lowered atom 0 mol2 (refreshValence mol2 atom)) as H3
      by by apply lowered_keep.
    pose proof (lowered_trans _ _ _ _ _ _ H12 H3) as H123.
    destruct (IH (net - 1) (refreshValence mol2 atom) ltac:(lia)) as (Hr & Hl & Hpos).
    split_and!; [lia|lia| |].
    + replace (net - _) with (1 + 0 + 0 + (net - 1 - snd (posWhile fuel atom (net - 1)
                               (refreshValence mol2 atom)))) by lia.
      by eapply lowered_trans.
    + intros _. apply Hpos. destruct H123 as (_ & -> & _). lia.
Qed.

Lemma posLoop_lowered p_idx_matches netCharge mol :
  0 ≤ netCharge →
  ∃ left_, 0 ≤ left_ ≤ netCharge ∧
    molFormalCharge (posLoop p_idx_matches netCharge mol)
    = molFormalCharge mol - (netCharge - left_) ∧
    getNumAtoms (posLoop p_idx_matches netCharge mol) = getNumAtoms mol ∧
    (∀ j, j ∉ p_idx_matches →
       atoms (posLoop p_idx_matches netCharge mol) !! j = atoms mol !! j) ∧
    bonds (posLoop p_idx_matches netCharge mol) = bonds mol.
Proof.
  revert netCharge mol. induction p_idx_matches as [|idx rest IH]; intros net mol Hnet.
  { exists net. simpl. split_and!; [lia|lia|lia|done|done|done]. }
  cbn [posLoop].
  set (mol1 := setNoImplicit idx true (setNumExplicitHs idx (getTotalNumHs mol idx) mol)).
  assert (lowered idx 0 mol mol1) as H1.
  { replace 0 with (0 + 0) by lia. eapply lowered_trans; by apply lowered_keep. }
  destruct (posWhile_lowered (Z.to_nat (getFormalCharge mol1 idx)) idx net mol1 Hnet)
    as (Hr & H2 & _).
  destruct (posWhile _ idx net mol1) as [mol2 net2]. cbn [fst snd] in *.
  pose proof (lowered_trans _ _ _ _ _ _ H1 H2) as (Hc & _ & HN & Ho & Hb).
  destruct (net2 =? 0).
  - exists net2. split_and!; [lia|lia|lia|done| |done].
    intros j Hj. apply Ho. intros ->. apply Hj. by left.
  - destruct (IH net2 mol2 ltac:(lia)) as (left_ & Hl & Hc' & HN' & Ho' & Hb').
    exists left_. split_and!; [lia|lia|lia|congruence| |congruence].
    intros j Hj. rewrite Ho'.
    + apply Ho. intros ->. apply Hj. by left.
    + intros Hin. apply Hj. by right.
Qed.

Lemma posPass_lowered p_matches mol :
  (molFormalCharge mol ≤ 0 → posPass p_matches mol = mol) ∧
  (0 < molFormalCharge mol →
     0 ≤ molFormalCharge (posPass p_matches mol) ≤ molFormalCharge mol) ∧
  (∀ j, j ∉ matchedAtoms p_matches →
     atoms (posPass p_matches mol) !! j = atoms mol !! j) ∧
  getNumAtoms (posPass p_matches mol) = getNumAtoms mol ∧
  bonds (posPass p_matches mol) = bonds mol.
Proof.
  unfold posPass. rewrite netCharge_sumCharges. fold (molFormalCharge mol).
  fold (matchedAtoms p_matches).
  destruct (0 <? molFormalCharge mol) eqn:Hpos.
  - apply Z.ltb_lt in Hpos.
    destruct (posLoop_lowered (matchedAtoms p_matches) (molFormalCharge mol) mol
                ltac:(lia)) as (left_ & Hl & Hc & HN & Ho & Hb).
    split_and!; [lia|lia|done|done|done].
  - apply Z.ltb_ge in Hpos. split_and!; [done|lia|done|done|done].
Qed.

(** X14. The positive pass does nothing to a molecule whose net charge is
    not positive; otherwise it lowers the net charge, never below zero and
    never by more than the molecule had.  It only touches atoms named by
    the matches of [pos_h], and keeps the bonds and the atom count. *)
Theorem positive_pass_bounds p_matches mol :
  (molFormalCharge mol ≤ 0 → posPass p_matches mol = mol) ∧
  (0 < molFormalCharge mol →
     0 ≤ molFormalCharge (posPass p_matches mol) ≤ molFormalCharge mol) ∧
  (∀ j, j ∉ matchedAtoms p_matches →
     atoms (posPass p_matches mol) !! j = atoms mol !! j) ∧
  getNumAtoms (posPass p_matches mol) = getNumAtoms mol ∧
  bonds (posPass p_matches mol) = bonds mol.
Proof.
  unfold posPass. rewrite netCharge_sumCharges. fold (molFormalCharge mol).
  fold (matchedAtoms p_matches).
  destruct (0 <? molFormalCharge mol) eqn:Hpos.
  - apply Z.ltb_lt in Hpos.
    destruct (posLoop_lowered (matchedAtoms p_matches) (molFormalCharge mol) mol
                ltac:(lia)) as (left_ & Hl & Hc & HN & Ho & Hb).
    split_and!; [lia|lia|done|done|done].
  - apply Z.ltb_ge in Hpos. split_and!; [done|lia|done|done|done].
Qed.

(** ** Uncharger: the whole routine *)

Lemma negLoop_take neg_atoms neg_surplus mol :
  ∃ j, (j ≤ length neg_atoms)%nat ∧
    negLoop neg_atoms neg_surplus mol = negAll (take j neg_atoms) mol.
Proof.
  revert neg_surplus mol. induction neg_atoms as [|pr rest IH]; intros s mol.
  - by exists 0%nat.
  - cbn [negLoop].
    destruct (neutralizeNegIfPossible mol (snd pr)) as [done_ mol1] eqn:Hn.
    assert (∀ j, negAll (take (S j) (pr :: rest)) mol = negAll (take j rest) mol1) as Hcons.
    { intros j. cbn [take]. by rewrite negAll_cons, Hn. }
    destruct done_; [destruct (wrap_i32 (s - 1) =? 0)|].
    + exists 1%nat. rewrite Hcons. split; [simpl; lia|done].
    + destruct (IH (wrap_i32 (s - 1)) mol1) as (j & Hj & ->).
      exists (S j). rewrite Hcons. split; [simpl; lia|done].
    + destruct (IH s mol1) as (j & Hj & ->).
      exists (S j). rewrite Hcons. split; [simpl; lia|done].
Qed.

Lemma molFormalCharge_modifyAtom_None i f mol :
  atoms mol !! i = None →
  molFormalCharge (modifyAtom i f mol) = molFormalCharge mol ∧
  atoms (modifyAtom i f mol) !! i = None.
Proof.
  intros Hi. split.
  - rewrite molFormalCharge_modifyAtom. unfold getFormalCharge.
    rewrite atomField_modifyAtom, decide_True, Hi by done.
    unfold atomField. rewrite Hi. lia.
  - by rewrite lookup_modifyAtom, decide_True, Hi.
Qed.

Lemma neutralizeNegIfPossible_charge_bounds mol atom :
  molFormalCharge mol ≤ molFormalCharge (snd (neutralizeNegIfPossible mol atom))
  ≤ molFormalCharge mol + 1.
Proof.
  destruct (atoms mol !! atom) as [a|] eqn:Ha.
  - destruct (neutralizeNegIfPossible_molFormalCharge mol atom) as [-> _].
    + by eapply lookup_lt_Some.
    + destruct (fst _); lia.
  - unfold neutralizeNegIfPossible. destruct (_ && _); cbn [snd]; [lia|].
    unfold neutralizeNeg. unfold_atom_ops.
    repeat match goal with
    | |- context [molFormalCharge (modifyAtom atom ?f ?m)] =>
      let H := fresh in
      assert (atoms m !! atom = None) as H
        by (repeat first [assumption | apply molFormalCharge_modifyAtom_None]);
      rewrite (proj1 (molFormalCharge_modifyAtom_None atom f m H)); clear H
    end.
    lia.
Qed.

Lemma negAll_charge_bounds neg_atoms mol :
  molFormalCharge mol ≤ molFormalCharge (negAll neg_atoms mol)
  ≤ molFormalCharge mol + Z.of_nat (length neg_atoms).
Proof.
  revert mol. induction neg_atoms as [|pr rest IH]; intros mol.
  - unfold negAll. simpl. lia.
  - rewrite negAll_cons.
    pose proof (neutralizeNegIfPossible_charge_bounds mol (snd pr)).
    specialize (IH (snd (neutralizeNegIfPossible mol (snd pr)))). simpl length. lia.
Qed.

Lemma negPass_take neg_atoms neg_surplus mol :
  ∃ j, (j ≤ length neg_atoms)%nat ∧
    negPass neg_atoms neg_surplus mol = negAll (take j neg_atoms) mol.
Proof.
  unfold negPass. destruct (negb _); [apply negLoop_take|].
  exists 0%nat. split; [lia|done].
Qed.

(** X15. The net charge after [unchargeInPlace] lies between the smaller
    of zero and the charge before, and the charge before plus the number
    of negative sites listed: a molecule whose charges sum to a
    non-negative number never comes out negative, and a negative one
    never comes out more negative. *)
Theorem uncharge_total_charge u mol :
  Z.min 0 (molFormalCharge mol) ≤ molFormalCharge (unchargeInPlace u mol)
  ≤ molFormalCharge mol
    + Z.of_nat (length (neg_atoms (accounting u (ensurePropertyCache mol)))).
Proof.
  unfold unchargeInPlace.
  rewrite (molFormalCharge_molChem mol (ensurePropertyCache mol))
    by by rewrite molChem_ensurePropertyCache.
  set (mol0 := ensurePropertyCache mol). set (acc := accounting u mol0).
  destruct (negPass_take (neg_atoms acc)
              (initialSurplus (df_force u) (neg_atoms acc) (q_matched acc)) mol0)
    as (j & Hj & ->).
  pose proof (negAll_charge_bounds (take j (neg_atoms acc)) mol0) as Hneg.
  rewrite length_take in Hneg.
  destruct (posPass_lowered (p_matches acc) (negAll (take j (neg_atoms acc)) mol0))
    as (Hle & Hpos & _).
  destruct (decide (molFormalCharge (negAll (take j (neg_atoms acc)) mol0) ≤ 0)) as [Hc|Hc].
  - rewrite Hle by done. lia.
  - specialize (Hpos ltac:(lia)). lia.
Qed.

(** X16. [unchargeInPlace] touches only the atoms it listed: an atom that
    is neither in the negative-site list nor named by a match of [pos_h]
    comes out as the cache refresh left it. *)
Theorem uncharge_frame u mol j :
  j ∉ snd <$> neg_atoms (accounting u (ensurePropertyCache mol)) →
  j ∉ matchedAtoms (p_matches (accounting u (ensurePropertyCache mol))) →
  atoms (unchargeInPlace u mol) !! j = atoms (ensurePropertyCache mol) !! j.
Proof.
  intros Hneg Hpos. unfold unchargeInPlace.
  set (mol0 := ensurePropertyCache mol) in *. set (acc := accounting u mol0) in *.
  destruct (negPass_take (neg_atoms acc)
              (initialSurplus (df_force u) (neg_atoms acc) (q_matched acc)) mol0)
    as (k & Hk & ->).
  destruct (posPass_lowered (p_matches acc) (negAll (take k (neg_atoms acc)) mol0))
    as (_ & _ & Hother & _).
  rewrite Hother by done. apply negAll_other.
  intros (pr & -> & Hin)%list_elem_of_fmap. apply Hneg.
  apply list_elem_of_fmap_2. by apply (subseteq_take k (neg_atoms acc)).
Qed.

(** ** Uncharger: what it leaves alone *)

Lemma atomKept_refl a : atomKept a a.
Proof. by split. Qed.

Lemma molKept_refl mol : molKept mol mol.
Proof.
  split; [done|]. apply Forall2_same_length_lookup. split; [done|].
  intros i x y Hx Hy. simplify_eq. apply atomKept_refl.
Qed.

Lemma molKept_trans mol1 mol2 mol3 :
  molKept mol1 mol2 → molKept mol2 mol3 → molKept mol1 mol3.
Proof.
  intros [Hb1 H1] [Hb2 H2]. split; [congruence|].
  apply Forall2_same_length_lookup in H1 as [Hl1 H1].
  apply Forall2_same_length_lookup in H2 as [Hl2 H2].
  apply Forall2_same_length_lookup. split; [congruence|].
  intros i x z Hx Hz.
  destruct (lookup_lt_is_Some_2 (atoms mol2) i) as [y Hy].
  { rewrite <- Hl1. by eapply lookup_lt_Some. }
  destruct (H1 i x y Hx Hy) as [Hk1 Hf1]. destruct (H2 i y z Hy Hz) as [Hk2 Hf2].
  split; [congruence|auto].
Qed.

Lemma molKept_modifyAtom idx f mol :
  (∀ a, atomKept a (f a)) → molKept mol (modifyAtom idx f mol).
Proof.
  intros Hf. split; [done|]. apply Forall2_same_length_lookup.
  split; [symmetry; apply (getNumAtoms_modifyAtom idx f mol)|].
  intros i x y Hx. rewrite lookup_modifyAtom. case_decide as Hi.
  - subst i. rewrite Hx. intros [= <-]. apply Hf.
  - rewrite Hx. intros [= <-]. apply atomKept_refl.
Qed.

Lemma molKept_setFormalCharge idx c mol : molKept mol (setFormalCharge idx c mol).
Proof. apply molKept_modifyAtom. by split. Qed.

Lemma molKept_setNumExplicitHs idx h mol : molKept mol (setNumExplicitHs idx h mol).
Proof. apply molKept_modifyAtom. by split. Qed.

Lemma molKept_setNoImplicit idx mol : molKept mol (setNoImplicit idx true mol).
Proof. apply molKept_modifyAtom. by split. Qed.

Lemma molKept_refreshValence mol idx : molKept mol (refreshValence mol idx).
Proof. apply molKept_modifyAtom. by split. Qed.

Lemma molKept_ensurePropertyCache mol : molKept mol (ensurePropertyCache mol).
Proof.
  unfold ensurePropertyCache. destruct (needsUpdatePropertyCache mol); [|apply molKept_refl].
  unfold molUpdatePropertyCache. generalize (seq 0 (getNumAtoms mol)). intros l.
  induction l as [|i l IH] using rev_ind; [apply molKept_refl|].
  rewrite foldl_app. cbn [foldl]. eapply molKept_trans; [exact IH|].
  apply molKept_refreshValence.
Qed.

Lemma molKept_neutralizeNegIfPossible mol atom :
  molKept mol (snd (neutralizeNegIfPossible mol atom)).
Proof.
  unfold neutralizeNegIfPossible. destruct (_ && _); cbn [snd]; [apply molKept_refl|].
  unfold neutralizeNeg.
  eapply molKept_trans; [|apply molKept_refreshValence].
  eapply molKept_trans; [|apply molKept_setFormalCharge].
  eapply molKept_trans; [|apply molKept_setNoImplicit].
  apply molKept_setNumExplicitHs.
Qed.

Lemma molKept_negAll neg_atoms mol : molKept mol (negAll neg_atoms mol).
Proof.
  revert mol. induction neg_atoms as [|pr rest IH]; intros mol; [apply molKept_refl|].
  rewrite negAll_cons. eapply molKept_trans; [|apply IH].
  apply molKept_neutralizeNegIfPossible.
Qed.

Lemma molKept_posWhile fuel atom netCharge mol :
  molKept mol (fst (posWhile fuel atom netCharge mol)).
Proof.
  revert netCharge mol. induction fuel as [|fuel IH]; intros net mol; [apply molKept_refl|].
  cbn [posWhile]. destruct (_ && _); [|apply molKept_refl].
  set (mol1 := setFormalCharge atom (getFormalCharge mol atom - 1) mol).
  assert (molKept mol mol1) as H1 by apply molKept_setFormalCharge.
  destruct (negb _ && negb _).
  - set (mol2 := if 1 <=? getNumExplicitHs mol1 atom
                 then setNumExplicitHs atom (getNumExplicitHs mol1 atom - 1) mol1
                 else mol1).
    assert (molKept mol1 mol2) as H2.
    { unfold mol2. destruct (1 <=? _); [apply molKept_setNumExplicitHs|apply molKept_refl]. }
    destruct (_ =? 1); cbn [fst].
    + by eapply molKept_trans.
    + eapply molKept_trans; [|apply IH].
      eapply molKept_trans; [|apply molKept_refreshValence].
      by eapply molKept_trans.
  - eapply molKept_trans; [|apply IH].
    eapply molKept_trans; [|apply molKept_refreshValence].
    eapply molKept_trans; [exact H1|apply molKept_setNumExplicitHs].
Qed.

Lemma molKept_posLoop p_idx_matches netCharge mol :
  molKept mol (posLoop p_idx_matches netCharge mol).
Proof.
  revert netCharge mol.
  induction p_idx_matches as [|idx rest IH]; intros net mol; [apply molKept_refl|].
  cbn [posLoop].
  set (mol1 := setNoImplicit idx true (setNumExplicitHs idx (getTotalNumHs mol idx) mol)).
  assert (molKept mol mol1) as H1.
  { eapply molKept_trans; [apply molKept_setNumExplicitHs|apply molKept_setNoImplicit]. }
  pose proof (molKept_posWhile (Z.to_nat (getFormalCharge mol1 idx)) idx net mol1) as H2.
  destruct (posWhile _ idx net mol1) as [mol2 net2]. cbn [fst] in H2.
  pose proof (molKept_trans _ _ _ H1 H2) as H12.
  destruct (net2 =? 0); [done|]. eapply molKept_trans; [exact H12|apply IH].
Qed.

Lemma molKept_unchargeInPlace u mol : molKept mol (unchargeInPlace u mol).
Proof.
  unfold unchargeInPlace.
  set (mol0 := ensurePropertyCache mol). set (acc := accounting u mol0).
  destruct (negPass_take (neg_atoms acc)
              (initialSurplus (df_force u) (neg_atoms acc) (q_matched acc)) mol0)
    as (k & Hk & ->).
  eapply molKept_trans; [apply molKept_ensurePropertyCache|]. fold mol0.
  eapply molKept_trans; [apply molKept_negAll|].
  unfold posPass. destruct (0 <? _); [apply molKept_posLoop|apply molKept_refl].
Qed.

(** X17. [unchargeInPlace] changes charges, hydrogen counts and cached
    valences only, and sets no-implicit flags: the molecule keeps its
    bonds, every atom keeps its element and its aromaticity, and a
    no-implicit flag that was set stays set. *)
Theorem uncharge_keeps_graph u mol :
  skeleton (unchargeInPlace u mol) = skeleton mol ∧
  getNumAtoms (unchargeInPlace u mol) = getNumAtoms mol ∧
  ∀ i, getNoImplicit mol i = true → getNoImplicit (unchargeInPlace u mol) i = true.
Proof.
  destruct (molKept_unchargeInPlace u mol) as [Hb Hat].
  apply Forall2_same_length_lookup in Hat as [Hlen Hat]. split_and!.
  - unfold skeleton. f_equal; [|done]. apply list_eq. intros i.
    rewrite !list_lookup_fmap.
    destruct (atoms mol !! i) as [a|] eqn:Ha.
    + destruct (lookup_lt_is_Some_2 (atoms (unchargeInPlace u mol)) i) as [a' Ha'].
      { rewrite <- Hlen. by eapply lookup_lt_Some. }
      rewrite Ha'. simpl. f_equal. by apply (Hat i a a').
    + apply lookup_ge_None in Ha. rewrite Hlen in Ha. apply lookup_ge_None in Ha.
      by rewrite Ha.
  - done.
  - intros i. unfold getNoImplicit, atomField.
    destruct (atoms mol !! i) as [a|] eqn:Ha; [|done].
    destruct (lookup_lt_is_Some_2 (atoms (unchargeInPlace u mol)) i) as [a' Ha'].
    { rewrite <- Hlen. by eapply lookup_lt_Some. }
    rewrite Ha'. by apply (Hat i a a').
Qed.

(** ** Uncharger: hydrogen counts *)

Section HydrogenCounts.
Hypothesis calcImplicitValence_nonneg : ∀ mol idx, 0 ≤ calcImplicitValence mol idx.

Lemma hydrogensNonneg_modifyAtom idx f mol :
  hydrogensNonneg mol →
  (∀ a, atoms mol !! idx = Some a →
        0 ≤ d_numExplicitHs (f a) ∧ 0 ≤ d_implicitValence (f a)) →
  hydrogensNonneg (modifyAtom idx f mol).
Proof.
  intros Hmol Hf i a. rewrite lookup_modifyAtom. case_decide as Hi.
  - subst i. destruct (atoms mol !! idx) as [b|] eqn:Hb; simpl; [|done].
    intros [= <-]. by apply Hf.
  - apply Hmol.
Qed.

Lemma hydrogensNonneg_total mol idx : hydrogensNonneg mol → 0 ≤ getTotalNumHs mol idx.
Proof.
  intros Hmol. unfold getTotalNumHs, atomField.
  destruct (atoms mol !! idx) as [a|] eqn:Ha; [|done].
  destruct (Hmol idx a Ha). unfold atomTotalNumHs, atomImplicitValence.
  destruct (df_noImplicit a); lia.
Qed.

Lemma hydrogensNonneg_explicit mol idx : hydrogensNonneg mol → 0 ≤ getNumExplicitHs mol idx.
Proof.
  intros Hmol. unfold getNumExplicitHs, atomField.
  destruct (atoms mol !! idx) as [a|] eqn:Ha; [|done]. by destruct (Hmol idx a Ha).
Qed.

Lemma hydrogensNonneg_setFormalCharge idx c mol :
  hydrogensNonneg mol → hydrogensNonneg (setFormalCharge idx c mol).
Proof.
  intros Hmol. apply hydrogensNonneg_modifyAtom; [done|]. intros a Ha. simpl.
  by eapply Hmol.
Qed.

Lemma hydrogensNonneg_setNoImplicit idx what mol :
  hydrogensNonneg mol → hydrogensNonneg (setNoImplicit idx what mol).
Proof.
  intros Hmol. apply hydrogensNonneg_modifyAtom; [done|]. intros a Ha. simpl.
  by eapply Hmol.
Qed.

Lemma hydrogensNonneg_setNumExplicitHs idx h mol :
  hydrogensNonneg mol → 0 ≤ h → hydrogensNonneg (setNumExplicitHs idx h mol).
Proof.
  intros Hmol Hh. apply hydrogensNonneg_modifyAtom; [done|]. intros a Ha. simpl.
  split; [done|]. by eapply Hmol.
Qed.

Lemma hydrogensNonneg_refreshValence mol idx :
  hydrogensNonneg mol → hydrogensNonneg (refreshValence mol idx).
Proof.
  intros Hmol. apply hydrogensNonneg_modifyAtom; [done|]. intros a Ha. simpl.
  split; [by eapply Hmol|apply calcImplicitValence_nonneg].
Qed.

Lemma hydrogensNonneg_ensurePropertyCache mol :
  hydrogensNonneg mol → hydrogensNonneg (ensurePropertyCache mol).
Proof.
  intros Hmol. unfold ensurePropertyCache. destruct (needsUpdatePropertyCache mol); [|done].
  unfold molUpdatePropertyCache. generalize (seq 0 (getNumAtoms mol)). intros l.
  induction l as [|i l IH] using rev_ind; [done|].
  rewrite foldl_app. cbn [foldl]. by apply hydrogensNonneg_refreshValence.
Qed.

Lemma hydrogensNonneg_neutralizeNegIfPossible mol atom :
  hydrogensNonneg mol → hydrogensNonneg (snd (neutralizeNegIfPossible mol atom)).
Proof.
  intros Hmol. unfold neutralizeNegIfPossible.
  destruct (isEarlyAtom _ && negb (negb _)) eqn:Hrefuse; cbn [snd]; [done|].
  unfold neutralizeNeg.
  apply hydrogensNonneg_refreshValence, hydrogensNonneg_setFormalCharge,
    hydrogensNonneg_setNoImplicit, hydrogensNonneg_setNumExplicitHs; [done|].
  pose proof (hydrogensNonneg_total mol atom Hmol) as Htotal.
  rewrite negb_involutive in Hrefuse.
  destruct (isEarlyAtom _); [|lia].
  apply andb_false_iff in Hrefuse as [?|Hz%Z.eqb_neq]; [done|lia].
Qed.

Lemma hydrogensNonneg_negAll neg_atoms mol :
  hydrogensNonneg mol → hydrogensNonneg (negAll neg_atoms mol).
Proof.
  revert mol. induction neg_atoms as [|pr rest IH]; intros mol Hmol; [done|].
  rewrite negAll_cons. by apply IH, hydrogensNonneg_neutralizeNegIfPossible.
Qed.

Lemma hydrogensNonneg_posWhile fuel atom netCharge mol :
  hydrogensNonneg mol → hydrogensNonneg (fst (posWhile fuel atom netCharge mol)).
Proof.
  revert netCharge mol. induction fuel as [|fuel IH]; intros net mol Hmol; [done|].
  cbn [posWhile]. destruct (_ && _); [|done].
  set (mol1 := setFormalCharge atom (getFormalCharge mol atom - 1) mol).
  assert (hydrogensNonneg mol1) as H1 by by apply hydrogensNonneg_setFormalCharge.
  pose proof (hydrogensNonneg_explicit mol1 atom H1) as Hexp.
  destruct (negb _ && negb _).
  - set (mol2 := if 1 <=? getNumExplicitHs mol1 atom
                 then setNumExplicitHs atom (getNumExplicitHs mol1 atom - 1) mol1
                 else mol1).
    assert (hydrogensNonneg mol2) as H2.
    { unfold mol2. destruct (1 <=? _) eqn:Hge; [|done].
      apply Z.leb_le in Hge. apply hydrogensNonneg_setNumExplicitHs; [done|lia]. }
    destruct (_ =? 1); cbn [fst]; [done|].
    by apply IH, hydrogensNonneg_refreshValence.
  - apply IH, hydrogensNonneg_refreshValence, hydrogensNonneg_setNumExplicitHs; [done|lia].
Qed.

Lemma hydrogensNonneg_posLoop p_idx_matches netCharge mol :
  hydrogensNonneg mol → hydrogensNonneg (posLoop p_idx_matches netCharge mol).
Proof.
  revert netCharge mol.
  induction p_idx_matches as [|idx rest IH]; intros net mol Hmol; [done|].
  cbn [posLoop].
  set (mol1 := setNoImplicit idx true (setNumExplicitHs idx (getTotalNumHs mol idx) mol)).
  assert (hydrogensNonneg mol1) as H1.
  { apply hydrogensNonneg_setNoImplicit, hydrogensNonneg_setNumExplicitHs; [done|].
    by apply hydrogensNonneg_total. }
  pose proof (hydrogensNonneg_posWhile (Z.to_nat (getFormalCharge mol1 idx)) idx net mol1 H1)
    as H2.
  destruct (posWhile _ idx net mol1) as [mol2 net2]. cbn [fst] in H2.
  destruct (net2 =? 0); [done|]. by apply IH.
Qed.

(** X18. When the implicit valence that the valence model computes is
    never negative, [unchargeInPlace] never drives a hydrogen count below
    zero: if no atom of the molecule has a negative explicit hydrogen
    count or cached implicit valence, none has afterwards, and the total
    hydrogen count of every atom is non-negative. *)
Theorem uncharge_hydrogens_nonneg u mol :
  hydrogensNonneg mol →
  hydrogensNonneg (unchargeInPlace u mol) ∧
  ∀ i, 0 ≤ getNumExplicitHs (unchargeInPlace u mol) i ∧
       0 ≤ getTotalNumHs (unchargeInPlace u mol) i.
Proof.
  intros Hmol.
  assert (hydrogensNonneg (unchargeInPlace u mol)) as Hres.
  { unfold unchargeInPlace.
    set (mol0 := ensurePropertyCache mol). set (acc := accounting u mol0).
    destruct (negPass_take (neg_atoms acc)
                (initialSurplus (df_force u) (neg_atoms acc) (q_matched acc)) mol0)
      as (k & Hk & ->).
    unfold posPass. destruct (0 <? _).
    - by apply hydrogensNonneg_posLoop, hydrogensNonneg_negAll,
        hydrogensNonneg_ensurePropertyCache.
    - by apply hydrogensNonneg_negAll, hydrogensNonneg_ensurePropertyCache. }
  split; [done|]. intros i.
  split; [by apply hydrogensNonneg_explicit|by apply hydrogensNonneg_total].
Qed.

End HydrogenCounts.

(** ** Uncharger: a second run *)

Lemma atomField_ext {A} (g : Atom → A) d mol mol' i :
  atoms mol' !! i = atoms mol !! i → atomField g d mol' i = atomField g d mol i.
Proof. unfold atomField. by intros ->. Qed.

Lemma getFormalCharge_lookup mol i a :
  atoms mol !! i = Some a → getFormalCharge mol i = d_formalCharge a.
Proof. unfold getFormalCharge, atomField. by intros ->. Qed.

Lemma getTotalNumHs_lookup mol i a :
  atoms mol !! i = Some a → getTotalNumHs mol i = atomTotalNumHs a.
Proof. unfold getTotalNumHs, atomField. by intros ->. Qed.

Lemma getFormalCharge_molChem mol mol' i :
  molChem mol' = molChem mol → getFormalCharge mol' i = getFormalCharge mol i.
Proof.
  intros Heq. unfold getFormalCharge, atomField.
  assert (chem <$> atoms mol' !! i = chem <$> atoms mol !! i) as Hi
    by (rewrite <- !list_lookup_fmap; unfold molChem in Heq; by rewrite Heq).
  destruct (atoms mol' !! i), (atoms mol !! i); simpl in Hi; try done.
  by injection Hi as -> _ _.
Qed.

Lemma ionsApart_step mol mol' :
  bonds mol' = bonds mol →
  (∀ i, getFormalCharge mol' i = getFormalCharge mol i ∨ getFormalCharge mol' i = 0) →
  ionsApart mol → ionsApart mol'.
Proof.
  intros Hb Hc [Hunit Hpairs]. split.
  - intros i. specialize (Hunit i). destruct (Hc i) as [->| ->]; lia.
  - intros b Hin. rewrite Hb in Hin. specialize (Hpairs b Hin).
    destruct (Hc (beginAtomIdx b)) as [->| ->], (Hc (endAtomIdx b)) as [->| ->]; lia.
Qed.

(** *** The valence cache *)

Lemma atomCached_needsUpdate a : atomCached a → atomNeedsUpdate a = false.
Proof.
  intros (_ & Hev & Hiv). unfold atomNeedsUpdate.
  rewrite (proj2 (Z.leb_le _ _) Hev). destruct Hiv as [-> | Hiv]; [done|].
  rewrite (proj2 (Z.leb_le _ _) Hiv). by rewrite orb_true_r.
Qed.

Lemma molCached_ensurePropertyCache_id mol :
  molCached mol → ensurePropertyCache mol = mol.
Proof.
  intros Hmol. unfold ensurePropertyCache, needsUpdatePropertyCache.
  destruct (existsb atomNeedsUpdate (atoms mol)) eqn:Hex; [|done].
  apply existsb_exists in Hex as (a & Hin & Ha).
  apply list_elem_of_In, list_elem_of_lookup in Hin as [i Hi].
  by rewrite (atomCached_needsUpdate a (Hmol i a Hi)) in Ha.
Qed.

Lemma molCached_modifyAtom idx f mol :
  molCached mol →
  (∀ a, atoms mol !! idx = Some a → atomCached a → atomCached (f a)) →
  molCached (modifyAtom idx f mol).
Proof.
  intros Hmol Hf i a. rewrite lookup_modifyAtom. case_decide as Hi.
  - subst i. destruct (atoms mol !! idx) as [b|] eqn:Hb; simpl; [|done].
    intros [= <-]. apply Hf; [done|]. by eapply Hmol.
  - apply Hmol.
Qed.

Lemma molCached_explicit mol idx : molCached mol → 0 ≤ getNumExplicitHs mol idx.
Proof.
  intros Hmol. unfold getNumExplicitHs, atomField.
  destruct (atoms mol !! idx) as [a|] eqn:Ha; [|done]. by destruct (Hmol idx a Ha).
Qed.

Lemma molCached_total mol idx : molCached mol → 0 ≤ getTotalNumHs mol idx.
Proof.
  intros Hmol. unfold getTotalNumHs, atomField.
  destruct (atoms mol !! idx) as [a|] eqn:Ha; [|done].
  destruct (Hmol idx a Ha) as (Hh & _ & Hiv).
  unfold atomTotalNumHs, atomImplicitValence.
  destruct (df_noImplicit a); [lia|]. destruct Hiv; [done|lia].
Qed.

Lemma molCached_setFormalCharge idx c mol :
  molCached mol → molCached (setFormalCharge idx c mol).
Proof. intros Hmol. apply molCached_modifyAtom; [done|]. by intros a _ Ha. Qed.

Lemma molCached_setNoImplicit idx mol :
  molCached mol → molCached (setNoImplicit idx true mol).
Proof.
  intros Hmol. apply molCached_modifyAtom; [done|].
  intros a _ (Hh & Hev & _). split_and!; [done|done|by left].
Qed.

Lemma molCached_setNumExplicitHs idx h mol :
  molCached mol → 0 ≤ h → molCached (setNumExplicitHs idx h mol).
Proof.
  intros Hmol Hh. apply molCached_modifyAtom; [done|].
  intros a _ (_ & Hev & Hiv). by split_and!.
Qed.

Section SecondRun.
Hypothesis calcImplicitValence_nonneg : ∀ mol idx, 0 ≤ calcImplicitValence mol idx.
Hypothesis calcExplicitValence_nonneg :
  ∀ mol idx, 0 ≤ getNumExplicitHs mol idx → 0 ≤ calcExplicitValence mol idx.

Lemma molCached_refreshValence mol idx :
  molCached mol → molCached (refreshValence mol idx).
Proof.
  intros Hmol. apply molCached_modifyAtom; [done|].
  intros a _ (Hh & _ & _). split_and!; [done| |right; apply calcImplicitValence_nonneg].
  apply calcExplicitValence_nonneg. by apply molCached_explicit.
Qed.

Lemma refreshAll_cached l mol :
  explicitHsNonneg mol →
  explicitHsNonneg (foldl refreshValence mol l) ∧
  ∀ i a, i ∈ l → atoms (foldl refreshValence mol l) !! i = Some a → atomCached a.
Proof.
  intros Hmol. induction l as [|k l [IH1 IH2]] using rev_ind; [split; [done|]|].
  { intros i a Hi. by apply elem_of_nil in Hi. }
  rewrite foldl_app. cbn [foldl]. set (m := foldl refreshValence mol l) in *. split.
  - by apply explicitHsNonneg_refreshValence.
  - intros i a Hi. unfold refreshValence. rewrite lookup_modifyAtom.
    case_decide as Hk.
    + subst i. destruct (atoms m !! k) as [b|] eqn:Hb; simpl; [|done].
      intros [= <-]. split_and!.
      * simpl. by eapply IH1.
      * simpl. apply calcExplicitValence_nonneg. by apply explicitHsNonneg_get.
      * right. simpl. apply calcImplicitValence_nonneg.
    + apply elem_of_app in Hi as [Hi|Hi]; [by apply IH2|].
      apply list_elem_of_singleton in Hi. congruence.
Qed.

Lemma molCached_ensurePropertyCache mol :
  explicitHsNonneg mol → molCached (ensurePropertyCache mol).
Proof.
  intros Hmol. unfold ensurePropertyCache, needsUpdatePropertyCache.
  destruct (existsb atomNeedsUpdate (atoms mol)) eqn:Hex.
  - unfold molUpdatePropertyCache.
    destruct (refreshAll_cached (seq 0 (getNumAtoms mol)) mol Hmol) as [_ Hall].
    intros i a Ha. apply (Hall i a); [|done].
    apply elem_of_seq. split; [lia|]. simpl.
    apply lookup_lt_Some in Ha.
    assert (∀ l m, length (atoms (foldl refreshValence m l)) = length (atoms m)) as Hlen.
    { clear. intros l. induction l as [|k l IH] using rev_ind; intros m; [done|].
      rewrite foldl_app. cbn [foldl]. unfold refreshValence.
      rewrite (getNumAtoms_modifyAtom k _ (foldl _ m l) : length _ = length _). apply IH. }
    rewrite Hlen in Ha. done.
  - intros i a Ha. split_and!; [by eapply Hmol| |].
    + assert (atomNeedsUpdate a = false) as Hno.
      { destruct (atomNeedsUpdate a) eqn:Hup; [|done].
        assert (existsb atomNeedsUpdate (atoms mol) = true) as Hyes; [|congruence].
        apply existsb_exists. exists a. split; [|done].
        apply list_elem_of_In. by eapply list_elem_of_lookup_2. }
      unfold atomNeedsUpdate in Hno. apply negb_false_iff, andb_true_iff in Hno as [Hev _].
      by apply Z.leb_le.
    + assert (atomNeedsUpdate a = false) as Hno.
      { destruct (atomNeedsUpdate a) eqn:Hup; [|done].
        assert (existsb atomNeedsUpdate (atoms mol) = true) as Hyes; [|congruence].
        apply existsb_exists. exists a. split; [|done].
        apply list_elem_of_In. by eapply list_elem_of_lookup_2. }
      unfold atomNeedsUpdate in Hno. apply negb_false_iff, andb_true_iff in Hno as [_ Hiv].
      apply orb_true_iff in Hiv as [Hiv|Hiv]; [by left|right; by apply Z.leb_le].
Qed.


Lemma molCached_neutralizeNegIfPossible mol atom :
  molCached mol → molCached (snd (neutralizeNegIfPossible mol atom)).
Proof.
  intros Hmol. unfold neutralizeNegIfPossible.
  destruct (isEarlyAtom _ && negb (negb _)) eqn:Hrefuse; cbn [snd]; [done|].
  unfold neutralizeNeg.
  apply molCached_refreshValence, molCached_setFormalCharge,
    molCached_setNoImplicit, molCached_setNumExplicitHs; [done|].
  pose proof (molCached_total mol atom Hmol) as Htotal.
  rewrite negb_involutive in Hrefuse.
  destruct (isEarlyAtom _); [|lia].
  apply andb_false_iff in Hrefuse as [?|Hz%Z.eqb_neq]; [done|lia].
Qed.

Lemma molCached_negAll neg_atoms mol :
  molCached mol → molCached (negAll neg_atoms mol).
Proof.
  revert mol. induction neg_atoms as [|pr rest IH]; intros mol Hmol; [done|].
  rewrite negAll_cons. by apply IH, molCached_neutralizeNegIfPossible.
Qed.

Lemma molCached_posWhile fuel atom netCharge mol :
  molCached mol → molCached (fst (posWhile fuel atom netCharge mol)).
Proof.
  revert netCharge mol. induction fuel as [|fuel IH]; intros net mol Hmol; [done|].
  cbn [posWhile]. destruct (_ && _); [|done].
  set (mol1 := setFormalCharge atom (getFormalCharge mol atom - 1) mol).
  assert (molCached mol1) as H1 by by apply molCached_setFormalCharge.
  pose proof (molCached_explicit mol1 atom H1) as Hexp.
  destruct (negb _ && negb _).
  - set (mol2 := if 1 <=? getNumExplicitHs mol1 atom
                 then setNumExplicitHs atom (getNumExplicitHs mol1 atom - 1) mol1
                 else mol1).
    assert (molCached mol2) as H2.
    { unfold mol2. destruct (1 <=? _) eqn:Hge; [|done].
      apply Z.leb_le in Hge. apply molCached_setNumExplicitHs; [done|lia]. }
    destruct (_ =? 1); cbn [fst]; [done|].
    by apply IH, molCached_refreshValence.
  - apply IH, molCached_refreshValence, molCached_setNumExplicitHs; [done|lia].
Qed.

Lemma molCached_posLoop p_idx_matches netCharge mol :
  molCached mol → molCached (posLoop p_idx_matches netCharge mol).
Proof.
  revert netCharge mol.
  induction p_idx_matches as [|idx rest IH]; intros net mol Hmol; [done|].
  cbn [posLoop].
  set (mol1 := setNoImplicit idx true (setNumExplicitHs idx (getTotalNumHs mol idx) mol)).
  assert (molCached mol1) as H1.
  { apply molCached_setNoImplicit, molCached_setNumExplicitHs; [done|].
    by apply molCached_total. }
  pose proof (molCached_posWhile (Z.to_nat (getFormalCharge mol1 idx)) idx net mol1 H1)
    as H2.
  destruct (posWhile _ idx net mol1) as [mol2 net2]. cbn [fst] in H2.
  destruct (net2 =? 0); [done|]. by apply IH.
Qed.

Lemma molCached_posPass p_matches mol :
  molCached mol → molCached (posPass p_matches mol).
Proof.
  intros Hmol. unfold posPass. destruct (0 <? _); [|done]. by apply molCached_posLoop.
Qed.

(** *** Lists that name every site once *)

Lemma NoDup_same_length {A} (l k : list A) :
  NoDup l → NoDup k → (∀ x, x ∈ l ↔ x ∈ k) → length l = length k.
Proof. intros Hl Hk Hlk. by apply Permutation_length, NoDup_Permutation. Qed.

Lemma NoDup_bounded_length (l : list nat) n :
  NoDup l → (∀ i, i ∈ l → (i < n)%nat) → (length l ≤ n)%nat.
Proof.
  intros Hl Hlt. rewrite <- (length_seq n 0). apply submseteq_length, NoDup_submseteq; [done|].
  intros i Hi. apply elem_of_seq. specialize (Hlt i Hi). lia.
Qed.

Lemma neighbours_bond mol i j :
  j ∈ getAtomNeighbors mol i →
  ∃ b, b ∈ bonds mol ∧
    ((beginAtomIdx b = i ∧ endAtomIdx b = j) ∨ (endAtomIdx b = i ∧ beginAtomIdx b = j)).
Proof.
  unfold getAtomNeighbors. intros (b & Hb & Hj)%list_elem_of_omap. exists b. split; [done|].
  destruct (decide (beginAtomIdx b = i)); [left; by simplify_eq|].
  destruct (decide (endAtomIdx b = i)); [right; by simplify_eq|done].
Qed.

Lemma positiveNeighbor_apart mol i :
  ionsApart mol → getFormalCharge mol i < 0 → positiveNeighbor mol i = None.
Proof.
  intros [Hunit Hpairs] Hneg. unfold positiveNeighbor.
  destruct (head _) as [x|] eqn:Hhead; [|done]. exfalso.
  apply head_Some_elem_of, list_elem_of_filter in Hhead as [Hpos Hx].
  apply neighbours_bond in Hx as (b & Hb & Hends).
  specialize (Hpairs b Hb). pose proof (Hunit i). pose proof (Hunit x).
  destruct Hends as [[Hi Hj]|[Hi Hj]]; rewrite Hi, Hj in Hpairs; nia.
Qed.

Lemma skipChargeSepOf_apart mol a_atoms :
  ionsApart mol →
  (∀ pr, pr ∈ a_atoms → getFormalCharge mol (snd pr) < 0) →
  ∀ x, x ∉ skipChargeSepOf mol a_atoms.
Proof.
  intros Hmol Hacid x Hx.
  apply skipChargeSepOf_spec in Hx; [|intros pr Hpr; specialize (Hacid pr Hpr); lia].
  destruct Hx as [(pi & Hpi & Hnb)|(i & j & pi & pj & nbr & _ & Hi & _ & _ & Hnb & _)].
  - rewrite positiveNeighbor_apart in Hnb; [done|done|by apply Hacid].
  - rewrite positiveNeighbor_apart in Hnb; [done|done|].
    apply Hacid. by eapply list_elem_of_lookup_2.
Qed.

Lemma snd_getRankIdxPair atomRanks ms :
  snd <$> (getRankIdxPair atomRanks <$> ms) = fronts ms.
Proof. unfold fronts. by rewrite <- list_fmap_compose. Qed.

Lemma NoDup_buildNegAtoms mol n_atoms a_atoms :
  NoDup (snd <$> n_atoms) → NoDup (snd <$> a_atoms) →
  NoDup (snd <$> buildNegAtoms mol n_atoms a_atoms).
Proof.
  intros Hn Ha. unfold buildNegAtoms, pushNonAcids, pushAcids.
  rewrite fmap_app. apply NoDup_app. split_and!.
  - eapply sublist_NoDup; [|apply fmap_sublist, sublist_filter]; exact Hn.
  - intros x (pr & -> & [Hnon _]%list_elem_of_filter)%list_elem_of_fmap
      (pr' & Heq & [_ Hpr']%list_elem_of_filter)%list_elem_of_fmap.
    apply elem_of_nonAcidsOf in Hnon as [_ Hnon]. apply Hnon.
    rewrite Heq. by apply list_elem_of_fmap_2.
  - eapply sublist_NoDup; [|apply fmap_sublist, sublist_filter]; exact Ha.
Qed.

Lemma elem_of_buildNegAtoms_apart mol n_atoms a_atoms i :
  ionsApart mol →
  (∀ k, k ∈ snd <$> n_atoms ↔ negSite mol k) →
  (∀ k, k ∈ snd <$> a_atoms → negSite mol k) →
  i ∈ snd <$> buildNegAtoms mol n_atoms a_atoms ↔ negSite mol i.
Proof.
  intros Hmol Hn Ha. unfold buildNegAtoms, pushNonAcids, pushAcids.
  rewrite fmap_app, elem_of_app, !list_elem_of_fmap. split.
  - intros [(pr & -> & [_ Hin]%list_elem_of_filter)|(pr & -> & [_ Hin]%list_elem_of_filter)].
    + apply Hn. by apply list_elem_of_fmap_2.
    + apply Ha. by apply list_elem_of_fmap_2.
  - intros Hi. destruct (decide (i ∈ snd <$> a_atoms)) as [Hacid|Hacid].
    + right. apply list_elem_of_fmap in Hacid as (pr & -> & Hpr). exists pr.
      split; [done|]. apply list_elem_of_filter. split; [|done].
      apply skipChargeSepOf_apart; [done|].
      intros pr' Hpr'. apply (Ha (snd pr')). by apply list_elem_of_fmap_2.
    + left. apply Hn, list_elem_of_fmap in Hi as (pr & -> & Hpr). exists pr.
      split; [done|]. apply list_elem_of_filter. split; [|done].
      apply elem_of_nonAcidsOf. split; [|done].
      apply (Hn (snd pr)). by apply list_elem_of_fmap_2.
Qed.

Lemma sumQMatched_unit mol ms :
  (∀ i, i ∈ fronts ms → getFormalCharge mol i = 1) →
  Z.of_nat (length ms) < 2 ^ 32 →
  sumQMatched mol ms = Z.of_nat (length ms).
Proof.
  unfold sumQMatched. induction ms as [|mv ms IH] using rev_ind; [done|].
  intros Hone Hlen. rewrite length_app in Hlen. simpl in Hlen.
  rewrite foldl_app. cbn [foldl]. rewrite IH.
  - rewrite (Hone (snd (front mv))).
    + unfold wrap_u32. rewrite length_app. simpl. rewrite Z.mod_small; lia.
    + unfold fronts. rewrite fmap_app, elem_of_app. right. simpl. by left.
  - intros i Hi. apply Hone. unfold fronts in *. rewrite fmap_app, elem_of_app. by left.
  - lia.
Qed.

Variable u : Uncharger.
Hypothesis patterns : patternsAsWritten u.

(** What the accounting of lines 345-435 holds on a molecule whose ions
    are apart. *)
Lemma accounting_apart mol :
  ionsApart mol → Z.of_nat (getNumAtoms mol) < 2 ^ 31 →
  let acc := accounting u mol in
  (NoDup (matchedAtoms (p_matches acc)) ∧
   ∀ i, i ∈ matchedAtoms (p_matches acc) ↔ posHSite mol i) ∧
  (∃ qs, NoDup qs ∧ (∀ i, i ∈ qs ↔ posNoHSite mol i) ∧
         q_matched acc = Z.of_nat (length qs)) ∧
  (NoDup (snd <$> neg_atoms acc) ∧ ∀ i, i ∈ snd <$> neg_atoms acc ↔ negSite mol i).
Proof.
  intros Hmol HN acc.
  destruct (patterns mol Hmol) as ((Hpd & Hp) & (Hqd & Hq) & (Hnd & Hn) & (Had & Ha)).
  split_and!.
  - done.
  - done.
  - exists (fronts (SubstructMatches mol (pos_noh u))). split_and!; [done|done|].
    change (q_matched acc) with (sumQMatched mol (SubstructMatches mol (pos_noh u))).
    unfold fronts at 1. rewrite length_fmap. apply sumQMatched_unit.
    + intros i (_ & Hpos & _)%Hq. destruct Hmol as [Hunit _]. specialize (Hunit i). lia.
    + pose proof (NoDup_bounded_length _ (getNumAtoms mol) Hqd) as Hle.
      unfold fronts in Hle at 2. rewrite length_fmap in Hle.
      assert (length (SubstructMatches mol (pos_noh u)) ≤ getNumAtoms mol)%nat; [|lia].
      apply Hle. by intros i (Hi & _)%Hq.
  - assert (snd <$> n_atoms acc ≡ₚ fronts (SubstructMatches mol (neg u))) as Hnp.
    { unfold acc, accounting. cbn [n_atoms].
      destruct (df_canonicalOrdering u).
      - by rewrite std_sort_perm, snd_getRankIdxPair.
      - by rewrite snd_getRankIdxPair. }
    assert (snd <$> a_atoms acc ≡ₚ fronts (SubstructMatches mol (neg_acid u))) as Hap.
    { unfold acc, accounting. cbn [a_atoms].
      destruct (df_canonicalOrdering u).
      - by rewrite std_sort_perm, snd_getRankIdxPair.
      - by rewrite snd_getRankIdxPair. }
    change (neg_atoms acc) with (buildNegAtoms mol (n_atoms acc) (a_atoms acc)).
    apply NoDup_buildNegAtoms; [by rewrite Hnp|by rewrite Hap].
  - intros i.
    assert (snd <$> n_atoms acc ≡ₚ fronts (SubstructMatches mol (neg u))) as Hnp.
    { unfold acc, accounting. cbn [n_atoms].
      destruct (df_canonicalOrdering u).
      - by rewrite std_sort_perm, snd_getRankIdxPair.
      - by rewrite snd_getRankIdxPair. }
    assert (snd <$> a_atoms acc ≡ₚ fronts (SubstructMatches mol (neg_acid u))) as Hap.
    { unfold acc, accounting. cbn [a_atoms].
      destruct (df_canonicalOrdering u).
      - by rewrite std_sort_perm, snd_getRankIdxPair.
      - by rewrite snd_getRankIdxPair. }
    change (neg_atoms acc) with (buildNegAtoms mol (n_atoms acc) (a_atoms acc)).
    apply elem_of_buildNegAtoms_apart; [done| |].
    + intros k. rewrite Hnp. apply Hn.
    + intros k. rewrite Hap. apply Ha.
Qed.

(** *** What the two passes do on a molecule whose ions are apart *)

Lemma neutralizeNegIfPossible_fst_ext mol mol' i :
  atoms mol' !! i = atoms mol !! i →
  fst (neutralizeNegIfPossible mol' i) = fst (neutralizeNegIfPossible mol i).
Proof.
  intros Hi. unfold neutralizeNegIfPossible.
  rewrite (atomField_ext d_atomicNum 0 mol mol' i Hi : getAtomicNum mol' i = _).
  rewrite (atomField_ext atomTotalNumHs 0 mol mol' i Hi : getTotalNumHs mol' i = _).
  by destruct (_ && _).
Qed.

Lemma negAll_effect l mol i :
  NoDup (snd <$> l) →
  (∀ k, k ∈ snd <$> l → (k < getNumAtoms mol)%nat ∧ getFormalCharge mol k = -1) →
  (atoms (negAll l mol) !! i = atoms mol !! i ∧
   (i ∈ snd <$> l → fst (neutralizeNegIfPossible mol i) = false))
  ∨ (i ∈ snd <$> l ∧ getFormalCharge (negAll l mol) i = 0).
Proof.
  intros Hnd Hl. destruct (decide (i ∈ snd <$> l)) as [Hin|Hout].
  - destruct (Hl i Hin) as [[a Ha]%lookup_lt_is_Some_2 Hc].
    pose proof (negAll_site l mol i a Hnd Hin Ha) as Hsite.
    destruct (isEarlyAtom (d_atomicNum a) && (atomTotalNumHs a =? 0)) eqn:Hrefuse.
    + left. split; [by rewrite Hsite, Ha|]. intros _.
      unfold neutralizeNegIfPossible, getAtomicNum, getTotalNumHs, atomField.
      by rewrite Ha, negb_involutive, Hrefuse.
    + right. split; [done|]. destruct Hsite as (ev & iv & Hsite).
      rewrite (getFormalCharge_lookup _ _ _ Hsite). simpl.
      rewrite (getFormalCharge_lookup _ _ _ Ha) in Hc. lia.
  - left. split; [by apply negAll_other|done].
Qed.

Lemma negAll_filter_count l k mol :
  NoDup (snd <$> (l ++ k)) →
  (∀ i, i ∈ snd <$> (l ++ k) → (i < getNumAtoms mol)%nat ∧ getFormalCharge mol i = -1) →
  Z.of_nat (length (filter (λ i, getFormalCharge (negAll l mol) i < 0) (snd <$> (l ++ k))))
  = Z.of_nat (length (l ++ k)) - Z.of_nat (negCount l mol).
Proof.
  revert mol. induction l as [|pr l IH]; intros mol Hnd Hall.
  - cbn [app negCount]. unfold negAll. cbn [foldl].
    assert (filter (λ i, getFormalCharge mol i < 0) (snd <$> k) = snd <$> k) as ->.
    { clear Hnd. induction k as [|x k IHk]; [done|]. rewrite fmap_cons.
      rewrite filter_cons_True.
      - f_equal. apply IHk. intros i Hi. apply Hall. cbn [app] in *.
        rewrite fmap_cons. by right.
      - destruct (Hall (snd x)) as [_ ->]; [cbn [app]; rewrite fmap_cons; by left|lia]. }
    rewrite length_fmap. lia.
  - rewrite <- app_comm_cons, fmap_cons in Hnd, Hall.
    apply NoDup_cons in Hnd as [Hfresh Hnd].
    rewrite negAll_cons, negCount_cons.
    set (mol1 := snd (neutralizeNegIfPossible mol (snd pr))).
    assert (∀ i, i ∈ snd <$> (l ++ k) → atoms mol1 !! i = atoms mol !! i) as Hsame.
    { intros i Hi. apply neutralizeNegIfPossible_other. intros ->. done. }
    destruct (Hall (snd pr) ltac:(by left)) as [Hrange Hc].
    assert (∀ i, i ∈ snd <$> (l ++ k) →
                 (i < getNumAtoms mol1)%nat ∧ getFormalCharge mol1 i = -1) as Hall1.
    { intros i Hi. destruct (Hall i) as [Hr Hci]; [by right|].
      destruct (neutralizeNegIfPossible_molFormalCharge mol (snd pr) Hrange) as [_ HN].
      fold mol1 in HN. rewrite HN. split; [done|].
      unfold getFormalCharge. by rewrite (atomField_ext _ _ mol mol1 i (Hsame i Hi)). }
    pose proof (IH mol1 Hnd Hall1) as IH1.
    assert (getFormalCharge (negAll l mol1) (snd pr) = getFormalCharge mol1 (snd pr)) as Hhead.
    { unfold getFormalCharge. apply atomField_ext, negAll_other.
      intros Hin. apply Hfresh. rewrite fmap_app, elem_of_app. by left. }
    assert (getFormalCharge mol1 (snd pr)
            = getFormalCharge mol (snd pr)
              + (if fst (neutralizeNegIfPossible mol (snd pr)) then 1 else 0)) as Hstep.
    { apply lookup_lt_is_Some_2 in Hrange as [a Ha].
      pose proof (negAll_site [pr] mol (snd pr) a) as Hsite.
      rewrite negAll_cons in Hsite. change (negAll [] ?m) with m in Hsite.
      fold mol1 in Hsite.
      specialize (Hsite ltac:(apply NoDup_singleton) ltac:(by left) Ha).
      unfold neutralizeNegIfPossible at 1, getAtomicNum, getTotalNumHs, atomField.
      rewrite Ha, negb_involutive.
      destruct (isEarlyAtom (d_atomicNum a) && (atomTotalNumHs a =? 0)).
      - cbn [fst]. rewrite (getFormalCharge_lookup _ _ _ Hsite),
          (getFormalCharge_lookup _ _ _ Ha). lia.
      - cbn [fst]. destruct Hsite as (ev & iv & Hsite).
        rewrite (getFormalCharge_lookup _ _ _ Hsite), (getFormalCharge_lookup _ _ _ Ha).
        done. }
    cbn [app]. rewrite fmap_cons, filter_cons, Hhead, Hstep, Hc.
    cbn [length].
    destruct (fst (neutralizeNegIfPossible mol (snd pr))).
    + rewrite decide_False by lia. lia.
    + rewrite decide_True by lia. cbn [length]. lia.
Qed.

Lemma negPass_cases l s mol :
  - 2 ^ 31 ≤ s < 2 ^ 31 → Z.of_nat (length l) < 2 ^ 31 →
  ∃ j, (j ≤ length l)%nat ∧ negPass l s mol = negAll (take j l) mol ∧
    (j = length l ∨ Z.of_nat (negCount (take j l) mol) = s).
Proof.
  intros Hs Hlen. unfold negPass. destruct (s =? 0) eqn:Hz; cbn [negb].
  - apply Z.eqb_eq in Hz. exists 0%nat. split_and!; [lia|done|right; simpl; lia].
  - apply Z.eqb_neq in Hz. destruct (decide (0 < s)) as [Hpos|Hneg].
    + destruct (negLoop_prefix l s mol ltac:(lia)) as (j & Hj & Heq & _ & Hend).
      by exists j.
    + exists (length l). rewrite take_ge by done. split_and!; [done| |by left].
      apply negLoop_negAll. intros k Hk. rewrite wrap_i32_eq_0.
      replace (s - k) with ((s - k + 2 ^ 32) + (-1) * 2 ^ 32) by lia.
      rewrite Z.mod_add by lia. rewrite Z.mod_small; lia.
Qed.

Lemma posWhile_one atom netCharge mol :
  getFormalCharge mol atom = 1 → 0 < netCharge →
  snd (posWhile 1 atom netCharge mol) = netCharge - 1.
Proof.
  intros Hc Hnet. cbn [posWhile]. rewrite Hc.
  rewrite (proj2 (Z.ltb_lt 0 netCharge) Hnet). cbn [Z.ltb Z.compare andb].
  destruct (negb _ && negb _); [destruct (_ =? 1)|]; done.
Qed.

Lemma posLoop_unit l netCharge mol :
  NoDup l → (∀ idx, idx ∈ l → getFormalCharge mol idx = 1) → 0 < netCharge →
  (∀ i, atoms (posLoop l netCharge mol) !! i = atoms mol !! i
        ∨ (i ∈ l ∧ getFormalCharge (posLoop l netCharge mol) i = 0)) ∧
  (molFormalCharge (posLoop l netCharge mol) = molFormalCharge mol - netCharge
   ∨ ∀ i, i ∈ l → getFormalCharge (posLoop l netCharge mol) i = 0).
Proof.
  revert netCharge mol. induction l as [|idx rest IH]; intros net mol Hnd Hone Hnet.
  { split; [by left|]. right. intros i Hi. by apply elem_of_nil in Hi. }
  apply NoDup_cons in Hnd as [Hfresh Hnd]. cbn [posLoop].
  set (mol1 := setNoImplicit idx true (setNumExplicitHs idx (getTotalNumHs mol idx) mol)).
  assert (lowered idx 0 mol mol1) as H1.
  { replace 0 with (0 + 0) by lia. eapply lowered_trans; by apply lowered_keep. }
  assert (getFormalCharge mol1 idx = 1) as Hc1.
  { destruct H1 as (_ & -> & _). rewrite (Hone idx ltac:(by left)). lia. }
  rewrite Hc1. change (Z.to_nat 1) with 1%nat.
  pose proof (posWhile_one idx net mol1 Hc1 Hnet) as Hnet2.
  destruct (posWhile_lowered 1 idx net mol1 ltac:(lia)) as (_ & H2 & _).
  destruct (posWhile 1 idx net mol1) as [mol2 net2]. cbn [fst snd] in *. subst net2.
  replace (net - (net - 1)) with 1 in H2 by lia.
  pose proof (lowered_trans _ _ _ _ _ _ H1 H2) as (Hc & Ha & HN & Ho & Hb).
  rewrite (Hone idx ltac:(by left)) in Ha.
  destruct (net - 1 =? 0) eqn:Hz.
  - apply Z.eqb_eq in Hz. split.
    + intros i. destruct (decide (i = idx)) as [->|Hi].
      * right. split; [by left|lia].
      * left. by apply Ho.
    + left. lia.
  - apply Z.eqb_neq in Hz.
    destruct (IH (net - 1) mol2 Hnd) as [E1 E2]; [|lia|].
    { intros idx' Hin. unfold getFormalCharge.
      rewrite (atomField_ext _ _ mol mol2 idx'); [by apply Hone; right|].
      apply Ho. intros ->. done. }
    assert (getFormalCharge (posLoop rest (net - 1) mol2) idx = 0) as Hidx.
    { destruct (E1 idx) as [Hsame|[_ Hzero]]; [|done].
      unfold getFormalCharge. rewrite (atomField_ext _ _ mol2 _ idx Hsame).
      fold (getFormalCharge mol2 idx). lia. }
    split.
    + intros i. destruct (decide (i = idx)) as [->|Hi].
      * right. split; [by left|done].
      * destruct (E1 i) as [Hsame|[Hin Hzero]].
        -- left. rewrite Hsame. by apply Ho.
        -- right. split; [by right|done].
    + destruct E2 as [E2|E2]; [left; lia|right].
      intros i [->|Hin]%elem_of_cons; [done|by apply E2].
Qed.

Lemma filter_ext_elem_of {A} (P Q : A → Prop) `{!∀ x, Decision (P x)}
    `{!∀ x, Decision (Q x)} (l : list A) :
  (∀ x, x ∈ l → (P x ↔ Q x)) → filter P l = filter Q l.
Proof.
  induction l as [|x l IH]; intros Hpq; [done|]. rewrite !filter_cons.
  rewrite IH by (intros y Hy; apply Hpq; by right).
  destruct (decide (P x)) as [Hp|Hp], (decide (Q x)) as [Hq|Hq]; try done.
  - exfalso. apply Hq, (Hpq x); [by left|done].
  - exfalso. apply Hp, (Hpq x); [by left|done].
Qed.

Lemma posPass_unit p_matches mol :
  NoDup (matchedAtoms p_matches) →
  (∀ idx, idx ∈ matchedAtoms p_matches → getFormalCharge mol idx = 1) →
  (∀ i, atoms (posPass p_matches mol) !! i = atoms mol !! i
        ∨ (i ∈ matchedAtoms p_matches ∧ getFormalCharge (posPass p_matches mol) i = 0)) ∧
  (molFormalCharge (posPass p_matches mol) ≤ 0
   ∨ ∀ i, i ∈ matchedAtoms p_matches → getFormalCharge (posPass p_matches mol) i = 0).
Proof.
  intros Hnd Hone. unfold posPass. rewrite netCharge_sumCharges.
  fold (molFormalCharge mol). fold (matchedAtoms p_matches).
  destruct (0 <? molFormalCharge mol) eqn:Hpos.
  - apply Z.ltb_lt in Hpos.
    destruct (posLoop_unit (matchedAtoms p_matches) (molFormalCharge mol) mol Hnd Hone Hpos)
      as [E1 E2].
    split; [done|]. destruct E2 as [E2|E2]; [left; lia|by right].
  - apply Z.ltb_ge in Hpos. split; [by left|by left].
Qed.

Lemma unchargeInPlace_idle mol :
  let acc := accounting u (ensurePropertyCache mol) in
  (initialSurplus (df_force u) (neg_atoms acc) (q_matched acc) = 0 ∨
   ∀ pr, pr ∈ neg_atoms acc →
         fst (neutralizeNegIfPossible (ensurePropertyCache mol) (snd pr)) = false) →
  (molFormalCharge (ensurePropertyCache mol) ≤ 0 ∨ matchedAtoms (p_matches acc) = []) →
  unchargeInPlace u mol = ensurePropertyCache mol.
Proof.
  intros acc Hneg Hpos. unfold unchargeInPlace.
  set (mol0 := ensurePropertyCache mol) in *. fold acc.
  assert (negPass (neg_atoms acc)
            (initialSurplus (df_force u) (neg_atoms acc) (q_matched acc)) mol0 = mol0)
    as ->.
  { unfold negPass. destruct Hneg as [->|Hnone]; [done|].
    destruct (negb _); [|done]. by apply negLoop_none. }
  unfold posPass. rewrite netCharge_sumCharges. fold (molFormalCharge mol0).
  fold (matchedAtoms (p_matches acc)).
  destruct Hpos as [Hle | ->].
  - by rewrite (proj2 (Z.ltb_ge _ _) Hle).
  - by destruct (0 <? _).
Qed.

(** One run on a molecule whose ions are apart and whose cache is
    computed: every atom is left as it was or without charge, and what is
    left gives the next run nothing to do. *)
Lemma first_run m0 :
  ionsApart m0 → molCached m0 → Z.of_nat (getNumAtoms m0) < 2 ^ 31 →
  let acc := accounting u m0 in
  let s0 := initialSurplus (df_force u) (neg_atoms acc) (q_matched acc) in
  let m1 := posPass (p_matches acc) (negPass (neg_atoms acc) s0 m0) in
  bonds m1 = bonds m0 ∧ getNumAtoms m1 = getNumAtoms m0 ∧ molCached m1 ∧
  (∀ i, atoms m1 !! i = atoms m0 !! i
        ∨ (getFormalCharge m1 i = 0 ∧ (negSite m0 i ∨ posHSite m0 i))) ∧
  (Z.of_nat (length (filter (λ i, getFormalCharge m1 i < 0) (snd <$> neg_atoms acc)))
   = Z.of_nat (length (neg_atoms acc)) - s0
   ∨ ∀ i, negSite m1 i → fst (neutralizeNegIfPossible m1 i) = false) ∧
  (molFormalCharge m1 ≤ 0 ∨ ∀ i, ¬ posHSite m1 i).
Proof.
  intros Hapart Hcached HN acc s0 m1.
  destruct (accounting_apart m0 Hapart HN)
    as ((Hpd & Hp) & (qs & Hqd & Hq & Hqm) & (Hnd & Hn)).
  fold acc in Hpd, Hp, Hqm, Hnd, Hn.
  set (l0 := neg_atoms acc) in *. set (P0 := matchedAtoms (p_matches acc)) in *.
  assert (length l0 ≤ getNumAtoms m0)%nat as Hlen.
  { rewrite <- (length_fmap snd l0). apply NoDup_bounded_length; [done|].
    by intros i (Hi & _)%Hn. }
  assert (length qs ≤ getNumAtoms m0)%nat as Hqlen.
  { apply NoDup_bounded_length; [done|]. by intros i (Hi & _)%Hq. }
  assert (s0 = if negb (df_force u)
               then Z.of_nat (length l0) - Z.of_nat (length qs)
               else Z.of_nat (length l0)) as Hs0.
  { unfold s0, initialSurplus. fold l0. rewrite Hqm.
    rewrite (wrap_i32_small (Z.of_nat (length l0))) by lia.
    destruct (negb _); [|done]. apply wrap_i32_small. lia. }
  destruct (negPass_cases l0 s0 m0) as (j & Hj & Hpass & Hend).
  { rewrite Hs0. destruct (negb _); lia. }
  { lia. }
  set (t := take j l0) in *. set (mn := negPass l0 s0 m0) in *.
  assert (snd <$> t `sublist_of` snd <$> l0) as Hsub
    by apply fmap_sublist, sublist_take.
  assert (NoDup (snd <$> t)) as Htd by (eapply sublist_NoDup; [exact Hnd|exact Hsub]).
  assert (∀ k, k ∈ snd <$> l0 →
               (k < getNumAtoms m0)%nat ∧ getFormalCharge m0 k = -1) as Hanion.
  { intros k [Hk Hc]%Hn. split; [done|]. destruct Hapart as [Hunit _].
    specialize (Hunit k). lia. }
  assert (∀ k, k ∈ snd <$> t → k ∈ snd <$> l0) as Htl.
  { intros k (pr & -> & Hpr)%list_elem_of_fmap. apply list_elem_of_fmap_2.
    by apply (subseteq_take j l0). }
  assert (∀ i, (atoms mn !! i = atoms m0 !! i ∧
                (i ∈ snd <$> t → fst (neutralizeNegIfPossible m0 i) = false))
               ∨ (i ∈ snd <$> t ∧ getFormalCharge mn i = 0)) as Hnegeff.
  { intros i. rewrite Hpass. apply negAll_effect; [done|].
    intros k Hk. by apply Hanion, Htl. }
  assert (∀ idx, idx ∈ P0 → getFormalCharge mn idx = 1) as Hone.
  { intros idx (Hr & Hc & _)%Hp.
    destruct (Hnegeff idx) as [[Hsame _]|[Hin _]].
    - unfold getFormalCharge. rewrite (atomField_ext _ _ m0 mn idx Hsame).
      fold (getFormalCharge m0 idx). destruct Hapart as [Hunit _].
      specialize (Hunit idx). lia.
    - apply Htl, Hn in Hin as [_ Hlt]. lia. }
  destruct (posPass_unit (p_matches acc) mn Hpd Hone) as [Hposeff Hposend].
  fold m1 P0 in Hposeff, Hposend.
  destruct (posPass_lowered (p_matches acc) mn) as (_ & _ & _ & HN1 & Hb1).
  fold m1 in HN1, Hb1.
  assert (getNumAtoms mn = getNumAtoms m0) as HNn
    by (rewrite Hpass; apply negAll_numAtoms).
  assert (bonds mn = bonds m0) as Hbn
    by (rewrite Hpass; apply (proj1 (molKept_negAll t m0))).
  assert (∀ i, atoms m1 !! i = atoms m0 !! i
               ∨ (getFormalCharge m1 i = 0 ∧ (negSite m0 i ∨ posHSite m0 i))) as Heff.
  { intros i. destruct (Hposeff i) as [Hsame1|[Hin Hzero]].
    - destruct (Hnegeff i) as [[Hsame0 _]|[Hin Hzero]].
      + left. by rewrite Hsame1.
      + right. split.
        * unfold getFormalCharge. by rewrite (atomField_ext _ _ mn m1 i Hsame1).
        * left. by apply Hn, Htl.
    - right. split; [done|]. right. by apply Hp. }
  assert (∀ i, i ∈ snd <$> l0 → atoms m1 !! i = atoms mn !! i) as Hkeep.
  { intros i [_ Hc]%Hn. destruct (Hposeff i) as [Hsame|[(_ & Hpos & _)%Hp _]]; [done|lia]. }
  split_and!.
  - congruence.
  - congruence.
  - apply molCached_posPass. rewrite Hpass. by apply molCached_negAll.
  - done.
  - destruct Hend as [Hall|Hcount].
    + right. intros i [Hi Hc].
      destruct (Heff i) as [Hsame|[Hzero _]]; [|lia].
      assert (i ∈ snd <$> l0) as Hin.
      { apply Hn. split; [congruence|]. unfold getFormalCharge in *.
        by rewrite <- (atomField_ext _ _ m0 m1 i Hsame). }
      rewrite (neutralizeNegIfPossible_fst_ext m0 m1 i Hsame).
      destruct (Hnegeff i) as [[_ Hrefused]|[_ Hzero]].
      * apply Hrefused. unfold t. rewrite Hall, take_ge by done. done.
      * exfalso. unfold getFormalCharge in *.
        rewrite (atomField_ext _ _ mn m1 i (Hkeep i Hin)) in Hc. lia.
    + left. rewrite <- Hcount.
      rewrite (filter_ext_elem_of _ (λ i, getFormalCharge mn i < 0)).
      * rewrite Hpass.
        pose proof (negAll_filter_count (take j l0) (drop j l0) m0) as Hcnt.
        rewrite !take_drop in Hcnt.
        apply Hcnt; [done|]. intros i Hi. by apply Hanion.
      * intros i Hi. unfold getFormalCharge.
        by rewrite (atomField_ext _ _ mn m1 i (Hkeep i Hi)).
  - destruct Hposend as [Hle|Hzero]; [by left|right].
    intros i (Hi & Hc & Hh).
    destruct (Heff i) as [Hsame|[Hz _]]; [|lia].
    assert (posHSite m0 i) as Hsite.
    { split_and!; [congruence| |].
      - unfold getFormalCharge in *. by rewrite <- (atomField_ext _ _ m0 m1 i Hsame).
      - unfold getTotalNumHs in *. by rewrite <- (atomField_ext _ _ m0 m1 i Hsame). }
    apply Hp in Hsite. specialize (Hzero i Hsite). lia.
Qed.

Lemma unchargeInPlace_passes mol :
  unchargeInPlace u mol
  = posPass (p_matches (accounting u (ensurePropertyCache mol)))
      (negPass (neg_atoms (accounting u (ensurePropertyCache mol)))
         (initialSurplus (df_force u)
            (neg_atoms (accounting u (ensurePropertyCache mol)))
            (q_matched (accounting u (ensurePropertyCache mol))))
         (ensurePropertyCache mol)).
Proof. done. Qed.


End SecondRun.

End Charge.

(** * The reference instance at work *)

Abbreviation ref_matcher_wf := (matcher_wf Ref.Pattern Ref.SubstructMatch).
Abbreviation ref_strongestProtonated := (strongestProtonated Ref.Pattern Ref.SubstructMatch).
Abbreviation ref_weakestIonized := (weakestIonized Ref.Pattern Ref.SubstructMatch).
Abbreviation ref_balanceStep :=
  (balanceStep Ref.Pattern Ref.SubstructMatch Ref.calcExplicitValence
     Ref.calcImplicitValence Ref.valenceOk Ref.getValenceList).
Abbreviation ref_balanceLoop :=
  (balanceLoop Ref.Pattern Ref.SubstructMatch Ref.calcExplicitValence
     Ref.calcImplicitValence Ref.valenceOk Ref.getValenceList).
Abbreviation ref_deficitPhase :=
  (deficitPhase Ref.Pattern Ref.SubstructMatch Ref.calcExplicitValence
     Ref.calcImplicitValence Ref.valenceOk).
Abbreviation ref_reionizeInPlace :=
  (reionizeInPlace Ref.Pattern Ref.SmartsToMol Ref.SubstructMatch Ref.SubstructMatches
     Ref.calcExplicitValence Ref.calcImplicitValence Ref.valenceOk Ref.getValenceList).
Abbreviation ref_accounting :=
  (accounting Ref.Pattern Ref.SubstructMatches Ref.rankMolAtoms).
Abbreviation ref_negPass :=
  (negPass Ref.calcExplicitValence Ref.calcImplicitValence Ref.isEarlyAtom).
Abbreviation ref_negAll :=
  (negAll Ref.calcExplicitValence Ref.calcImplicitValence Ref.isEarlyAtom).
Abbreviation ref_unchargeInPlace :=
  (unchargeInPlace Ref.Pattern Ref.SubstructMatches Ref.calcExplicitValence
     Ref.calcImplicitValence Ref.isEarlyAtom Ref.rankMolAtoms).
Abbreviation ref_ensurePropertyCache :=
  (ensurePropertyCache Ref.calcExplicitValence Ref.calcImplicitValence).

(** The uncharger with the patterns of its constructor, and the reionizer
    over the two catalogue entries and the default corrections. *)
Abbreviation ref_uncharger canonicalOrdering force :=
  (mkUncharger Ref.Pattern (Ref.atomPattern Ref.q_pos_h) (Ref.atomPattern Ref.q_pos_noh)
     (Ref.atomPattern Ref.q_neg) (Ref.atomPattern Ref.q_neg_acid) canonicalOrdering force).
Abbreviation ref_reionizer := (mkReionizer Ref.Pattern Ref.abpairs CHARGE_CORRECTIONS).

(** The reference matcher keeps the matcher's contract. *)
Lemma ref_matcher_contract mol : ref_matcher_wf mol.
Proof.
  intros pat res. unfold Ref.SubstructMatch, Ref.SubstructMatches.
  intros Hres%head_Some_elem_of. apply list_elem_of_In, filter_In in Hres as [_ Hvalid].
  unfold matchOk. destruct res as [|pr res]; [done|]. split; [done|].
  simpl in Hvalid. intros pr' Hpr'%list_elem_of_In.
  change (forallb (λ pr, snd pr <? getNumAtoms mol)%nat (pr :: res) = true) in Hvalid.
  rewrite forallb_forall in Hvalid. apply Nat.ltb_lt. by apply Hvalid.
Qed.

(** The scans on formic acid and methoxide: the carboxylic acid (rank 0)
    is the strongest protonated site, its hydroxyl oxygen the site atom;
    the methoxide (rank 1) is the weakest ionized site. *)
Example scans_formic_methoxide :
  ref_strongestProtonated Ref.formic_methoxide Ref.abpairs = Some (0, [0; 1; 2])%nat ∧
  ref_weakestIonized Ref.formic_methoxide Ref.abpairs = Some (1, [3; 4])%nat.
Proof. split; by vm_compute. Qed.

(** [reionizeInPlace] on formic acid and methoxide moves the proton and
    then stops, the acid of rank 1 not being stronger than the base of rank
    1; on formic acid and sodium it charges the sodium and ionizes the
    acid. *)
Example reionize_formic_methoxide :
  ∃ mol', ref_reionizeInPlace ref_reionizer Ref.formic_methoxide = Some (Ok mol') ∧
    molChem mol' = [(0, 1, true); (0, 0, true); (-1, 0, true); (0, 3, true); (0, 1, true)].
Proof. eexists. split; by vm_compute. Qed.

Example reionize_formic_sodium :
  ∃ mol', ref_reionizeInPlace ref_reionizer Ref.formic_sodium = Some (Ok mol') ∧
    molChem mol' = [(0, 1, true); (0, 0, true); (-1, 0, true); (1, 0, true)].
Proof. eexists. split; by vm_compute. Qed.



(** C3 on formic acid and methoxide: the proton goes from the hydroxyl
    oxygen (atom 2) to the methoxide oxygen (atom 4); both atoms carry
    their hydrogens explicitly. *)
Lemma proton_transfer_effect_witness :
  ref_matcher_wf Ref.formic_methoxide ∧
  ∃ mol' am',
    ref_balanceStep Ref.abpairs Ref.formic_methoxide ∅ = Continue mol' am' ∧
    getFormalCharge mol' 2 = -1 ∧ getNumExplicitHs mol' 2 = 0 ∧
    getFormalCharge mol' 4 = 0 ∧ getNumExplicitHs mol' 4 = 1.
Proof.
  split; [apply ref_matcher_contract|].
  assert (∃ mol' am', ref_balanceStep Ref.abpairs Ref.formic_methoxide ∅
                      = Continue mol' am') as (mol' & am' & Hstep)
    by (eexists _, _; vm_compute; reflexivity).
  exists mol', am'. split; [exact Hstep|].
  destruct (proton_transfer_effect _ _ _ _ _ _ _ _ _ _ _
              (ref_matcher_contract Ref.formic_methoxide) Hstep)
    as (ppos & poccur & ipos & ioccur & Hsp & Hwi & Hc1 & Hh1 & Hc2 & Hh2).
  vm_compute in Hsp. injection Hsp as <- <-.
  vm_compute in Hwi. injection Hwi as <- <-.
  cbv [back List.last] in Hc1, Hh1, Hc2, Hh2.
  rewrite Hc1, Hh1, Hc2, Hh2. vm_compute. done.
Defined.

(** C3, the claim as stated, fails on formic acid and a methoxide whose
    oxygen (atom 4) does not disallow implicit hydrogens.  The oxygen gains
    an explicit hydrogen although it does not disallow implicit ones, the
    acid atom (atom 2) is an oxygen, and its total valence after the
    transfer, 2, is in the valence list of oxygen: the code tested the
    valence cached before the transfer, 1. *)
Lemma base_hydrogen_despite_allowed_valence :
  let mol := Ref.formic_methoxide_perceived in
  ∃ mol' am',
    ref_balanceStep Ref.abpairs mol ∅ = Continue mol' am' ∧
    ref_strongestProtonated mol Ref.abpairs = Some (0, [0; 1; 2])%nat ∧
    ref_weakestIonized mol Ref.abpairs = Some (1, [3; 4])%nat ∧
    getNoImplicit mol 4 = false ∧
    getAtomicNum mol 2 = 8 ∧ getIsAromatic mol 2 = false ∧
    getTotalValence mol 4 = 1 ∧ getTotalValence mol' 4 = 2 ∧
    Ref.getValenceList (getAtomicNum mol' 4) = [2] ∧
    getNumExplicitHs mol 4 = 0 ∧ getNumExplicitHs mol' 4 = 1 ∧
    getNumExplicitHs mol' 4 ≠
      (if getNoImplicit mol 4
          || (((getAtomicNum mol 2 =? 7) || (getAtomicNum mol 2 =? 15))
              && getIsAromatic mol 2)
          || negb (bool_decide (getTotalValence mol' 4
                                ∈ Ref.getValenceList (getAtomicNum mol' 4)))
       then getNumExplicitHs mol 4 + 1 else getNumExplicitHs mol 4).
Proof.
  cbv zeta. eexists _, _. split; [vm_compute; reflexivity|].
  split_and!; [by vm_compute..|]. by vm_compute.
Qed.

(** C9 on the same transfer: the total charge stays -1. *)
Lemma transfer_conserves_charge_witness :
  ref_matcher_wf Ref.formic_methoxide ∧
  ∃ mol' am',
    ref_balanceStep Ref.abpairs Ref.formic_methoxide ∅ = Continue mol' am' ∧
    molFormalCharge mol' = -1 ∧
    getFormalCharge mol' 2 = -1 ∧ getFormalCharge mol' 4 = 0 ∧
    getFormalCharge mol' 0 = 0.
Proof.
  split; [apply ref_matcher_contract|].
  assert (∃ mol' am', ref_balanceStep Ref.abpairs Ref.formic_methoxide ∅
                      = Continue mol' am') as (mol' & am' & Hstep)
    by (eexists _, _; vm_compute; reflexivity).
  exists mol', am'. split; [exact Hstep|].
  destruct (transfer_conserves_charge _ _ _ _ _ _ _ _ _ _ _
              (ref_matcher_contract Ref.formic_methoxide) Hstep)
    as (ppos & poccur & ipos & ioccur & Hsp & Hwi & Hsum & Hc1 & Hc2 & Hother).
  vm_compute in Hsp. injection Hsp as <- <-.
  vm_compute in Hwi. injection Hwi as <- <-.
  cbv [back List.last] in Hc1, Hc2, Hother.
  rewrite Hsum, Hc1, Hc2, (Hother 0%nat) by done. vm_compute. done.
Defined.

(** C6 on formic acid and a sodium cation, the charge difference being
    one: the phase ends normally after one ionization, which takes the
    hydroxyl oxygen (atom 2) from charge 0 with one explicit hydrogen to
    charge -1 with none. *)
Lemma deficit_compensation_witness :
  (∀ m, ref_matcher_wf m) ∧
  ref_strongestProtonated (setFormalCharge 3 1 Ref.formic_sodium) Ref.abpairs
  = Some (0, [0; 1; 2])%nat ∧
  ∃ mol',
    ref_deficitPhase Ref.abpairs 1 1 (setFormalCharge 3 1 Ref.formic_sodium)
    = Some (Ok mol') ∧
    (∃ n, ionizations Ref.Pattern Ref.SubstructMatch Ref.calcExplicitValence
            Ref.calcImplicitValence Ref.valenceOk Ref.abpairs n
            (setFormalCharge 3 1 Ref.formic_sodium) mol' ∧
          Z.of_nat n ≤ 1 ∧
          (Z.of_nat n = 1 ∨ ref_strongestProtonated mol' Ref.abpairs = None)) ∧
    getFormalCharge mol' 2 = -1 ∧ getNumExplicitHs mol' 2 = 0 ∧
    atoms mol' !! 3%nat = atoms (setFormalCharge 3 1 Ref.formic_sodium) !! 3%nat.
Proof.
  split; [exact ref_matcher_contract|].
  assert (ref_strongestProtonated (setFormalCharge 3 1 Ref.formic_sodium) Ref.abpairs
          = Some (0, [0; 1; 2])%nat) as Hsp by by vm_compute.
  split; [exact Hsp|].
  destruct (deficit_compensation Ref.Pattern Ref.SubstructMatch Ref.calcExplicitValence
              Ref.calcImplicitValence Ref.valenceOk Ref.abpairs 1 1
              (setFormalCharge 3 1 Ref.formic_sodium) ref_matcher_contract)
    as (_ & _ & Hphase & Hstep).
  destruct (Hphase ltac:(lia) ltac:(lia)) as (Hok & _ & Hreturns).
  destruct (Hreturns ltac:(done)) as [mol' Hdef].
  exists mol'. split; [exact Hdef|].
  destruct (Hok mol' Hdef) as (n & Hn & Hle & Hend).
  destruct (Hstep _ _ _ Hsp) as (Hc & Hh & Hother & _ & Hnothrow).
  specialize (Hnothrow ltac:(done)).
  assert (mol' = resultMol (ionizeStep Ref.calcExplicitValence Ref.calcImplicitValence
                              Ref.valenceOk (setFormalCharge 3 1 Ref.formic_sodium)
                              [0; 1; 2]%nat)) as Hmol'.
  { revert Hdef. unfold deficitPhase. cbn [Z.eqb negb Z.to_nat Pos.to_nat Pos.iter_op
      Nat.add deficitLoop Z.ltb Z.compare]. rewrite Hsp, Hnothrow. cbn [Z.sub Z.add
      Z.opp Z.pos_sub Z.ltb Z.compare deficitLoop]. by intros [= <-]. }
  split_and!.
  - exists n. exact (conj Hn (conj Hle Hend)).
  - rewrite Hmol'. etrans; [exact Hc|by vm_compute].
  - rewrite Hmol'. etrans; [exact Hh|by vm_compute].
  - rewrite Hmol'. by apply Hother.
Defined.

(** C10 on sodium chloride with one and with two sodium cations: with one
    the surplus is zero and the chloride stays; with two the surplus is -1
    and the chloride is neutralized to hydrogen chloride, the sodium
    cations staying as they are. *)
Lemma surplus_against_quaternary_witness :
  df_force Ref.Pattern (ref_uncharger true false) = false ∧
  ref_negPass (neg_atoms (ref_accounting (ref_uncharger true false) Ref.sodium_chloride))
    (initialSurplus false
       (neg_atoms (ref_accounting (ref_uncharger true false) Ref.sodium_chloride))
       (q_matched (ref_accounting (ref_uncharger true false) Ref.sodium_chloride)))
    Ref.sodium_chloride = Ref.sodium_chloride ∧
  neg_atoms (ref_accounting (ref_uncharger true false) Ref.chloride_disodium)
  = [(2, 0)]%nat ∧
  q_matched (ref_accounting (ref_uncharger true false) Ref.chloride_disodium) = 2 ∧
  let mol' :=
    ref_negPass (neg_atoms (ref_accounting (ref_uncharger true false) Ref.chloride_disodium))
      (initialSurplus false
         (neg_atoms (ref_accounting (ref_uncharger true false) Ref.chloride_disodium))
         (q_matched (ref_accounting (ref_uncharger true false) Ref.chloride_disodium)))
      Ref.chloride_disodium in
  getFormalCharge mol' 0 = 0 ∧ getNoImplicit mol' 0 = true ∧
  getNumExplicitHs mol' 0 = 1 ∧
  atoms mol' !! 1%nat = atoms Ref.chloride_disodium !! 1%nat ∧
  atoms mol' !! 2%nat = atoms Ref.chloride_disodium !! 2%nat.
Proof.
  split; [reflexivity|]. split.
  - apply (surplus_against_quaternary _ _ Ref.calcExplicitValence Ref.calcImplicitValence
             Ref.isEarlyAtom Ref.rankMolAtoms (ref_uncharger true false)
             Ref.sodium_chloride eq_refl).
    vm_compute. reflexivity.
  - split; [by vm_compute|]. split; [by vm_compute|].
    pose proof (surplus_against_quaternary Ref.Pattern Ref.SubstructMatches
                  Ref.calcExplicitValence Ref.calcImplicitValence Ref.isEarlyAtom
                  Ref.rankMolAtoms (ref_uncharger true false) Ref.chloride_disodium
                  eq_refl) as Hthm.
    cbv zeta in Hthm. destruct Hthm as [_ Hgt].
    destruct (Hgt ltac:(by vm_compute)) as (_ & _ & _ & _ & Hsite & Hother).
    assert (NoDup (snd <$> neg_atoms (ref_accounting (ref_uncharger true false)
                                        Ref.chloride_disodium))) as Hnd.
    { apply (bool_decide_unpack _). by vm_compute. }
    specialize (Hsite Hnd 0%nat).
    assert (neutralizable Ref.isEarlyAtom Ref.chloride_disodium 0 = true) as Hn
      by by vm_compute.
    rewrite Hn in Hsite.
    destruct Hsite as (Hc & Hflag & Hh).
    { apply (bool_decide_unpack _). by vm_compute. }
    { vm_compute. lia. }
    cbv zeta. split_and!.
    + etrans; [exact Hc|by vm_compute].
    + exact Hflag.
    + etrans; [exact Hh|by vm_compute].
    + refine (Hother 1%nat _). apply (bool_decide_unpack _). by vm_compute.
    + refine (Hother 2%nat _). apply (bool_decide_unpack _). by vm_compute.
Defined.

(** C8 on nitrate: the two oxygen anions (atoms 0 and 3) share the
    nitrogen cation (atom 1); only atom 0 is neutralized. *)
Lemma acid_sites_sharing_a_cation_witness :
  (∀ pr, pr ∈ a_atoms (ref_accounting (ref_uncharger true false) Ref.nitrate) →
         getFormalCharge Ref.nitrate (snd pr) ≤ 0) ∧
  a_atoms (ref_accounting (ref_uncharger true false) Ref.nitrate)
  = [(0, 0); (3, 3)]%nat ∧
  neg_atoms (ref_accounting (ref_uncharger true false) Ref.nitrate) = [(0, 0)]%nat ∧
  let mol' :=
    ref_negPass (neg_atoms (ref_accounting (ref_uncharger true false) Ref.nitrate))
      (initialSurplus (df_force Ref.Pattern (ref_uncharger true false))
         (neg_atoms (ref_accounting (ref_uncharger true false) Ref.nitrate))
         (q_matched (ref_accounting (ref_uncharger true false) Ref.nitrate)))
      Ref.nitrate in
  getFormalCharge mol' 0 = getFormalCharge Ref.nitrate 0 + 1 ∧
  atoms mol' !! 3%nat = atoms Ref.nitrate !! 3%nat.
Proof.
  assert (∀ pr, pr ∈ a_atoms (ref_accounting (ref_uncharger true false) Ref.nitrate) →
                getFormalCharge Ref.nitrate (snd pr) ≤ 0) as Hacid.
  { intros pr Hpr. vm_compute in Hpr.
    apply elem_of_cons in Hpr as [->|Hpr]; [by vm_compute|].
    apply list_elem_of_singleton in Hpr as ->. by vm_compute. }
  split; [exact Hacid|]. split; [by vm_compute|]. split; [by vm_compute|].
  destruct (acid_sites_sharing_a_cation _ _ Ref.calcExplicitValence
              Ref.calcImplicitValence Ref.isEarlyAtom Ref.rankMolAtoms
              (ref_uncharger true false) Ref.nitrate Hacid) as (_ & _ & Hpair).
  destruct (Hpair 0 0 3 3 1)%nat as (_ & Hc & Hsame);
    [first [by vm_compute | vm_compute; lia]..|].
  exact (conj Hc Hsame).
Defined.

(** C8, the claim as stated, fails on sodium nitrate.  The two oxygen
    anions (atoms 1 and 4) are acid sites and share the nitrogen cation
    (atom 2), and only atom 1 is listed; but the sodium cation is a
    quaternary charge of one, the surplus is 1 - 1 = 0, and neither oxygen
    is neutralized. *)
Lemma shared_cation_none_neutralized :
  let u := ref_uncharger false false in
  let mol := Ref.sodium_nitrate in
  let acc := ref_accounting u (ref_ensurePropertyCache mol) in
  let mol' := ref_unchargeInPlace u mol in
  a_atoms acc = [(1, 1); (4, 4)]%nat ∧
  positiveNeighbor mol 1 = Some 2%nat ∧ positiveNeighbor mol 4 = Some 2%nat ∧
  neg_atoms acc = [(1, 1)]%nat ∧
  q_matched acc = 1 ∧
  initialSurplus (df_force Ref.Pattern u) (neg_atoms acc) (q_matched acc) = 0 ∧
  getFormalCharge mol 1 = -1 ∧ getFormalCharge mol 4 = -1 ∧
  getFormalCharge mol' 1 = -1 ∧ getFormalCharge mol' 4 = -1 ∧
  molChem mol' = molChem mol ∧
  ¬ (getFormalCharge mol' 1 = getFormalCharge mol 1 + 1 ∨
     getFormalCharge mol' 4 = getFormalCharge mol 4 + 1).
Proof.
  cbv zeta. split_and!; [by vm_compute..|].
  intros [Heq|Heq]; vm_compute in Heq; discriminate.
Qed.

(** C7, the claim as stated, fails on hydroxide and chloride: canonical
    ordering is on, yet there is no quaternary charge, so the ranker (which
    would rank the chloride first) is not consulted and the list stays in
    atom order. *)
Lemma canonical_ranking_skipped :
  let u := ref_uncharger true false in
  let mol := Ref.hydroxide_chloride in
  let acc := ref_accounting u mol in
  df_canonicalOrdering Ref.Pattern u = true ∧
  Ref.rankMolAtoms mol = [1; 0]%nat ∧
  atomRanks acc = [0; 1]%nat ∧
  n_atoms acc = [(0, 0); (1, 1)]%nat ∧
  std_sort (getRankIdxPair (Ref.rankMolAtoms mol)
              <$> Ref.SubstructMatches mol (neg Ref.Pattern u))
  = [(0, 1); (1, 0)]%nat ∧
  ¬ (atomRanks acc = Ref.rankMolAtoms mol ∧
     n_atoms acc = std_sort (getRankIdxPair (Ref.rankMolAtoms mol)
                               <$> Ref.SubstructMatches mol (neg Ref.Pattern u))).
Proof.
  cbv zeta. split_and!; try by vm_compute.
  intros [Hranks _]. vm_compute in Hranks. discriminate.
Qed.

(** C7 as amended, on chloride and two sodium cations: there is
    quaternary charge and a negative match, so the ranks are the ranker's. *)
Lemma ranks_and_order_witness :
  df_canonicalOrdering Ref.Pattern (ref_uncharger true false) = true ∧
  needsNeutralization Ref.Pattern Ref.SubstructMatches (ref_uncharger true false)
    Ref.chloride_disodium = true ∧
  atomRanks (ref_accounting (ref_uncharger true false) Ref.chloride_disodium)
  = Ref.rankMolAtoms Ref.chloride_disodium.
Proof.
  split; [reflexivity|]. split; [by vm_compute|].
  exact (proj1 (proj1 (ranks_and_order _ Ref.SubstructMatches Ref.rankMolAtoms
                         (ref_uncharger true false) Ref.chloride_disodium)
                  eq_refl ltac:(by vm_compute))).
Defined.


(** In that molecule the two oxygen anions are bonded to the nitrogen
    cation: its ions are not apart. *)
Example nitronate_ions_not_apart : ¬ ionsApart Ref.nitronate_diammonium.
Proof.
  intros [_ Hpairs]. specialize (Hpairs (mkBond 0 1 SINGLE) ltac:(by left)).
  vm_compute in Hpairs. by apply Hpairs.
Qed.

Lemma explicitHsNonneg_Forall mol :
  Forall (λ a, 0 ≤ d_numExplicitHs a) (atoms mol) → explicitHsNonneg mol.
Proof. intros Hall i a Ha. by eapply (Forall_lookup_1 _ _ _ _ Hall). Qed.

(** The reference matcher reads the patterns of the constructor as
    written. *)
Lemma ref_atomPattern_matches q mol :
  Ref.SubstructMatches mol (Ref.atomPattern q)
  = (λ idx, [(0%nat, idx)]) <$> List.filter (q mol) (seq 0 (getNumAtoms mol)).
Proof.
  unfold Ref.SubstructMatches, Ref.atomPattern.
  assert (∀ l, (∀ i, In i l → (i < getNumAtoms mol)%nat) →
               List.filter (Ref.validMatch mol) ((λ idx, [(0%nat, idx)]) <$> l)
               = (λ idx, [(0%nat, idx)]) <$> l) as Hvalid.
  { induction l as [|i l IH]; intros Hl; [done|]. cbn [fmap list_fmap List.filter].
    assert (Ref.validMatch mol [(0%nat, i)] = true) as ->.
    { cbn. rewrite andb_true_r. apply Nat.ltb_lt, Hl. by left. }
    f_equal. apply IH. intros j Hj. apply Hl. by right. }
  apply Hvalid. intros i [Hi _]%filter_In. apply in_seq in Hi. lia.
Qed.

Lemma ref_atomPattern_sites q mol :
  matchedAtoms (Ref.SubstructMatches mol (Ref.atomPattern q))
  = List.filter (q mol) (seq 0 (getNumAtoms mol)) ∧
  fronts (Ref.SubstructMatches mol (Ref.atomPattern q))
  = List.filter (q mol) (seq 0 (getNumAtoms mol)).
Proof.
  rewrite ref_atomPattern_matches. generalize (List.filter (q mol) (seq 0 (getNumAtoms mol))).
  intros l. split.
  - unfold matchedAtoms. induction l as [|i l IH]; [done|]. cbn in *. by rewrite IH.
  - unfold fronts. induction l as [|i l IH]; [done|]. cbn in *. by rewrite IH.
Qed.

Lemma ref_sites q mol :
  NoDup (List.filter (q mol) (seq 0 (getNumAtoms mol))) ∧
  ∀ i, i ∈ List.filter (q mol) (seq 0 (getNumAtoms mol))
       ↔ (i < getNumAtoms mol)%nat ∧ q mol i = true.
Proof.
  split.
  - apply NoDup_ListNoDup, List.NoDup_filter, NoDup_ListNoDup, NoDup_seq.
  - intros i. rewrite list_elem_of_In, filter_In, in_seq. split.
    + intros [Hi Hq]. split; [lia|done].
    + intros [Hi Hq]. split; [lia|done].
Qed.

Lemma ref_neighbours_bond ok mol i j :
  In j (Ref.nbrsVia ok mol i) →
  ∃ b, b ∈ bonds mol ∧
    ((beginAtomIdx b = i ∧ endAtomIdx b = j) ∨ (endAtomIdx b = i ∧ beginAtomIdx b = j)).
Proof.
  unfold Ref.nbrsVia. intros (b & Hb & Hj)%list_elem_of_In%list_elem_of_omap.
  exists b. split; [done|]. destruct (ok _); [|done].
  destruct (decide (beginAtomIdx b = i)); [left; by simplify_eq|].
  destruct (decide (endAtomIdx b = i)); [right; by simplify_eq|done].
Qed.

Lemma ref_cation_apart mol i :
  unitCharges mol → (Ref.cation mol i = true ↔ 0 < getFormalCharge mol i).
Proof.
  intros Hunit. unfold Ref.cation, Ref.hasCharge. specialize (Hunit i).
  rewrite bool_decide_eq_true, !elem_of_cons, elem_of_nil. lia.
Qed.

Lemma ref_anion_apart mol i :
  unitCharges mol → (Ref.anion mol i = true ↔ getFormalCharge mol i < 0).
Proof.
  intros Hunit. unfold Ref.anion, Ref.hasCharge. specialize (Hunit i).
  rewrite bool_decide_eq_true, !elem_of_cons, elem_of_nil. lia.
Qed.

Lemma ref_no_anion_neighbour mol i :
  ionsApart mol → 0 < getFormalCharge mol i →
  existsb (Ref.anion mol) (Ref.nbrsVia Ref.anyBond mol i) = false.
Proof.
  intros [Hunit Hpairs] Hpos.
  destruct (existsb _ _) eqn:Hex; [|done]. exfalso.
  apply existsb_exists in Hex as (j & Hj & Hanion).
  apply ref_anion_apart in Hanion; [|done].
  apply ref_neighbours_bond in Hj as (b & Hb & Hends).
  specialize (Hpairs b Hb).
  destruct Hends as [[Hi Hj]|[Hi Hj]]; rewrite Hi, Hj in Hpairs; nia.
Qed.

Lemma ref_no_cation_neighbour mol i :
  ionsApart mol → getFormalCharge mol i < 0 →
  existsb (Ref.cation mol) (Ref.nbrsVia Ref.anyBond mol i) = false.
Proof.
  intros [Hunit Hpairs] Hneg.
  destruct (existsb _ _) eqn:Hex; [|done]. exfalso.
  apply existsb_exists in Hex as (j & Hj & Hcation).
  apply ref_cation_apart in Hcation; [|done].
  apply ref_neighbours_bond in Hj as (b & Hb & Hends).
  specialize (Hpairs b Hb).
  destruct Hends as [[Hi Hj]|[Hi Hj]]; rewrite Hi, Hj in Hpairs; nia.
Qed.

Lemma ref_neg_acid_anion mol i : Ref.q_neg_acid mol i = true → Ref.anion mol i = true.
Proof.
  unfold Ref.q_neg_acid, Ref.q_carboxylate, Ref.q_nitrate, Ref.q_halate, Ref.q_tetrazolate.
  destruct (Ref.anion mol i); [done|].
  by rewrite !andb_false_r, !andb_false_l.
Qed.

Lemma ref_patterns_as_written canonicalOrdering force :
  patternsAsWritten Ref.Pattern Ref.SubstructMatches
    (ref_uncharger canonicalOrdering force).
Proof.
  intros mol Hapart. pose proof Hapart as [Hunit _]. cbn [pos_h pos_noh neg neg_acid].
  destruct (ref_atomPattern_sites Ref.q_pos_h mol) as [-> _].
  destruct (ref_atomPattern_sites Ref.q_pos_noh mol) as [_ ->].
  destruct (ref_atomPattern_sites Ref.q_neg mol) as [_ ->].
  destruct (ref_atomPattern_sites Ref.q_neg_acid mol) as [_ ->].
  split_and!; try apply ref_sites.
  - intros i. rewrite (proj2 (ref_sites Ref.q_pos_h mol)). unfold posHSite, Ref.q_pos_h.
    split.
    + intros (Hi & [[Hc Hh]%andb_true_iff _]%andb_true_iff).
      apply ref_cation_apart in Hc; [|done].
      apply negb_true_iff, Z.eqb_neq in Hh. done.
    + intros (Hi & Hc & Hh). split; [done|].
      rewrite (proj2 (ref_cation_apart mol i Hunit) Hc).
      rewrite (proj2 (Z.eqb_neq _ _) Hh).
      by rewrite ref_no_anion_neighbour.
  - intros i. rewrite (proj2 (ref_sites Ref.q_pos_noh mol)). unfold posNoHSite, Ref.q_pos_noh.
    split.
    + intros (Hi & [[Hc Hh]%andb_true_iff _]%andb_true_iff).
      apply ref_cation_apart in Hc; [|done]. apply Z.eqb_eq in Hh. done.
    + intros (Hi & Hc & Hh). split; [done|].
      rewrite (proj2 (ref_cation_apart mol i Hunit) Hc).
      rewrite (proj2 (Z.eqb_eq _ _) Hh).
      by rewrite ref_no_anion_neighbour.
  - intros i. rewrite (proj2 (ref_sites Ref.q_neg mol)). unfold negSite, Ref.q_neg.
    split.
    + intros (Hi & [Hc _]%andb_true_iff). apply ref_anion_apart in Hc; done.
    + intros (Hi & Hc). split; [done|].
      rewrite (proj2 (ref_anion_apart mol i Hunit) Hc).
      by rewrite ref_no_cation_neighbour.
  - intros i. rewrite (proj2 (ref_sites Ref.q_neg_acid mol)). unfold negSite.
    intros (Hi & Hc%ref_neg_acid_anion). apply ref_anion_apart in Hc; done.
Qed.

Lemma ref_calcExplicitValence_nonneg mol idx :
  0 ≤ getNumExplicitHs mol idx → 0 ≤ Ref.calcExplicitValence mol idx.
Proof.
  intros Hh. unfold Ref.calcExplicitValence.
  induction (bonds mol) as [|b l IH]; [done|]. cbn [foldr].
  destruct (decide _); [|lia]. destruct (bondType b); simpl; lia.
Qed.

Lemma ionsApart_Forall mol :
  Forall (λ a, -1 ≤ d_formalCharge a ≤ 1) (atoms mol) →
  Forall (λ b, 0 ≤ getFormalCharge mol (beginAtomIdx b)
                   * getFormalCharge mol (endAtomIdx b)) (bonds mol) →
  ionsApart mol.
Proof.
  intros Hatoms Hbonds. split.
  - intros i. unfold getFormalCharge, atomField.
    destruct (atoms mol !! i) as [a|] eqn:Ha; [|lia].
    by apply (Forall_lookup_1 _ _ _ _ Hatoms Ha).
  - intros b Hb. by apply (proj1 (Forall_forall _ _) Hbonds).
Qed.


(** ** The further properties at work *)

Lemma hydrogensNonneg_Forall mol :
  Forall (λ a, 0 ≤ d_numExplicitHs a ∧ 0 ≤ d_implicitValence a) (atoms mol) →
  hydrogensNonneg mol.
Proof. intros Hall i a Ha. by eapply (Forall_lookup_1 _ _ _ _ Hall). Qed.

(** X1 on formic acid and methoxide: the strongest protonated site has
    rank 0 of 2 and its site atom is atom 2 of 5. *)
Lemma scan_results_in_range_witness :
  ref_matcher_wf Ref.formic_methoxide ∧
  (0 < length Ref.abpairs)%nat ∧
  (back [0; 1; 2]%nat < getNumAtoms Ref.formic_methoxide)%nat.
Proof.
  split; [apply ref_matcher_contract|].
  destruct (proj1 (scan_results_in_range _ _ Ref.formic_methoxide Ref.abpairs
                     (ref_matcher_contract Ref.formic_methoxide))
              0%nat [0; 1; 2]%nat ltac:(by vm_compute)) as (Hr & _ & _ & Hback).
  exact (conj Hr Hback).
Defined.

(** X3 on formic acid and sodium: the alkali correction charges the
    sodium atom and the total rises from 0 to 1. *)
Lemma charge_correction_total_witness :
  (∀ i, i ∈ matchedAtoms (Ref.SubstructMatches Ref.formic_sodium
                            (Ref.SmartsToMol "[Li,Na,K;X0+0]")) →
        (i < getNumAtoms Ref.formic_sodium)%nat) ∧
  molFormalCharge
    (applyChargeCorrection Ref.Pattern Ref.SmartsToMol Ref.SubstructMatches
       Ref.formic_sodium (mkChargeCorrection "[Li,Na,K]" "[Li,Na,K;X0+0]" 1))
  = 1.
Proof.
  assert (∀ i, i ∈ matchedAtoms (Ref.SubstructMatches Ref.formic_sodium
                                   (Ref.SmartsToMol "[Li,Na,K;X0+0]")) →
               (i < getNumAtoms Ref.formic_sodium)%nat) as Hrange.
  { intros i Hi. vm_compute in Hi. apply list_elem_of_singleton in Hi as ->.
    vm_compute. lia. }
  split; [exact Hrange|].
  rewrite (charge_correction_total Ref.Pattern Ref.SmartsToMol Ref.SubstructMatches
             Ref.formic_sodium (mkChargeCorrection "[Li,Na,K]" "[Li,Na,K;X0+0]" 1) Hrange).
  by vm_compute.
Defined.

(** X4 on formic acid and a sodium cation: one ionization, for a
    difference of one. *)
Lemma deficit_phase_total_witness :
  (∀ m, ref_matcher_wf m) ∧
  ∃ mol', ref_deficitPhase Ref.abpairs 1 1 (setFormalCharge 3 1 Ref.formic_sodium)
          = Some (Ok mol') ∧
    ∃ n : nat, molFormalCharge mol'
               = molFormalCharge (setFormalCharge 3 1 Ref.formic_sodium) - Z.of_nat n ∧
      Z.of_nat n ≤ 0 `max` 1.
Proof.
  split; [exact ref_matcher_contract|].
  assert (∃ mol', ref_deficitPhase Ref.abpairs 1 1 (setFormalCharge 3 1 Ref.formic_sodium)
                  = Some (Ok mol')) as [mol' Hdef]
    by (eexists; vm_compute; reflexivity).
  exists mol'. split; [exact Hdef|].
  destruct (deficit_phase_total _ _ _ _ _ _ _ _ _ _ ref_matcher_contract Hdef)
    as (n & Hc & Hn & _).
  exists n. exact (conj Hc Hn).
Defined.

(** X5 on formic acid and methoxide: the proton moves and the total
    charge stays. *)
Lemma balancing_conserves_total_witness :
  (∀ m, ref_matcher_wf m) ∧
  ∃ mol', ref_balanceLoop (S (numPairs 5)) Ref.abpairs Ref.formic_methoxide ∅
          = Some (Ok mol') ∧
    molFormalCharge mol' = molFormalCharge Ref.formic_methoxide ∧
    getNumAtoms mol' = getNumAtoms Ref.formic_methoxide.
Proof.
  split; [exact ref_matcher_contract|].
  assert (∃ mol', ref_balanceLoop (S (numPairs 5)) Ref.abpairs Ref.formic_methoxide ∅
                  = Some (Ok mol')) as [mol' Hloop]
    by (eexists; vm_compute; reflexivity).
  exists mol'. split; [exact Hloop|].
  exact (balancing_conserves_total _ _ _ _ _ _ _ _ _ _ _ ref_matcher_contract Hloop).
Defined.

(** X6 on formic acid and sodium. *)
Lemma reionize_keeps_graph_witness :
  ∃ res, ref_reionizeInPlace ref_reionizer Ref.formic_sodium = Some res ∧
    skeleton (resultMol res) = skeleton Ref.formic_sodium ∧
    noImplicitFlags (resultMol res) = noImplicitFlags Ref.formic_sodium ∧
    getNumAtoms (resultMol res) = getNumAtoms Ref.formic_sodium.
Proof.
  assert (∃ res, ref_reionizeInPlace ref_reionizer Ref.formic_sodium = Some res)
    as [res Hres] by (eexists; vm_compute; reflexivity).
  exists res. split; [exact Hres|].
  exact (reionize_keeps_graph _ _ _ _ _ _ _ _ _ _ _ Hres).
Defined.

(** X7 on formic acid and sodium: the correction brings the total to 1,
    one ionization brings it back to 0. *)
Lemma reionize_total_charge_witness :
  (∀ m, ref_matcher_wf m) ∧
  ∃ mol', ref_reionizeInPlace ref_reionizer Ref.formic_sodium = Some (Ok mol') ∧
    molFormalCharge Ref.formic_sodium
      `min` molFormalCharge
              (applyChargeCorrections Ref.Pattern Ref.SmartsToMol Ref.SubstructMatches
                 CHARGE_CORRECTIONS (ref_ensurePropertyCache Ref.formic_sodium))
    ≤ molFormalCharge mol'
    ≤ molFormalCharge
        (applyChargeCorrections Ref.Pattern Ref.SmartsToMol Ref.SubstructMatches
           CHARGE_CORRECTIONS (ref_ensurePropertyCache Ref.formic_sodium)).
Proof.
  split; [exact ref_matcher_contract|].
  assert (∃ mol', ref_reionizeInPlace ref_reionizer Ref.formic_sodium = Some (Ok mol'))
    as [mol' Hres] by (eexists; vm_compute; reflexivity).
  exists mol'. split; [exact Hres|].
  destruct (reionize_total_charge _ _ _ _ _ _ _ _ _ _ _ ref_matcher_contract Hres)
    as (n & _ & _ & _ & Hbounds).
  exact Hbounds.
Defined.

(** X8 on the catalogue cut down to its first entry. *)
Lemma short_catalogue_witness :
  (length (take 1 Ref.abpairs) ≤ 1)%nat ∧
  ref_balanceStep (take 1 Ref.abpairs) Ref.formic_methoxide ∅ = Break.
Proof.
  assert (length (take 1 Ref.abpairs) ≤ 1)%nat as Hlen by (vm_compute; lia).
  split; [exact Hlen|].
  exact (proj1 (short_catalogue Ref.Pattern Ref.SmartsToMol Ref.SubstructMatch
                  Ref.SubstructMatches Ref.calcExplicitValence Ref.calcImplicitValence
                  Ref.valenceOk Ref.getValenceList (take 1 Ref.abpairs) Hlen)
           Ref.formic_methoxide ∅).
Defined.

(** X9 on formic acid and sodium. *)
Lemma reionize_explicitHs_nonneg_witness :
  explicitHsNonneg Ref.formic_sodium ∧
  ∃ res, ref_reionizeInPlace ref_reionizer Ref.formic_sodium = Some res ∧
    explicitHsNonneg (resultMol res).
Proof.
  assert (explicitHsNonneg Ref.formic_sodium) as Hmol.
  { apply explicitHsNonneg_Forall. repeat constructor; by vm_compute. }
  split; [exact Hmol|].
  assert (∃ res, ref_reionizeInPlace ref_reionizer Ref.formic_sodium = Some res)
    as [res Hres] by (eexists; vm_compute; reflexivity).
  exists res. split; [exact Hres|].
  exact (reionize_explicitHs_nonneg _ _ _ _ _ _ _ _ _ _ _ Hmol Hres).
Defined.

(** X10 on the carboxylate oxygen of the glycine zwitterion (atom 4),
    which is not an early atom and gains a hydrogen. *)
Lemma neutralize_neg_effect_witness :
  atoms Ref.glycine_zwitterion !! 4%nat = Some (Ref.atom 8 (-1) 0) ∧
  fst (neutralizeNegIfPossible Ref.calcExplicitValence Ref.calcImplicitValence
         Ref.isEarlyAtom Ref.glycine_zwitterion 4) = true ∧
  getFormalCharge
    (snd (neutralizeNegIfPossible Ref.calcExplicitValence Ref.calcImplicitValence
            Ref.isEarlyAtom Ref.glycine_zwitterion 4)) 4 = 0 ∧
  getNumExplicitHs
    (snd (neutralizeNegIfPossible Ref.calcExplicitValence Ref.calcImplicitValence
            Ref.isEarlyAtom Ref.glycine_zwitterion 4)) 4 = 1.
Proof.
  split; [reflexivity|].
  destruct (neutralize_neg_effect Ref.calcExplicitValence Ref.calcImplicitValence
              Ref.isEarlyAtom Ref.glycine_zwitterion 4 (Ref.atom 8 (-1) 0) eq_refl)
    as (Hdone & _ & Heffect & _).
  assert (fst (neutralizeNegIfPossible Ref.calcExplicitValence Ref.calcImplicitValence
                 Ref.isEarlyAtom Ref.glycine_zwitterion 4) = true) as Htrue
    by (rewrite Hdone; by vm_compute).
  split; [exact Htrue|].
  destruct (Heffect Htrue) as (Hc & _ & Hh & _).
  split; [rewrite Hc; by vm_compute|rewrite Hh; by vm_compute].
Defined.

(** X11 on hydroxide and chloride with a surplus of one: the pass stops
    after the hydroxide. *)
Lemma negative_pass_stops_witness :
  0 < 1 < 2 ^ 31 ∧
  (∀ pr, pr ∈ [(0, 0); (1, 1)]%nat → (snd pr < getNumAtoms Ref.hydroxide_chloride)%nat) ∧
  molFormalCharge Ref.hydroxide_chloride
  ≤ molFormalCharge (ref_negPass [(0, 0); (1, 1)]%nat 1 Ref.hydroxide_chloride)
  ≤ molFormalCharge Ref.hydroxide_chloride + 1 `min` Z.of_nat 2.
Proof.
  assert (∀ pr, pr ∈ [(0, 0); (1, 1)]%nat →
                (snd pr < getNumAtoms Ref.hydroxide_chloride)%nat) as Hrange.
  { intros pr Hpr. apply elem_of_cons in Hpr as [->|Hpr]; [vm_compute; lia|].
    apply list_elem_of_singleton in Hpr as ->. vm_compute. lia. }
  split; [lia|]. split; [exact Hrange|].
  destruct (negative_pass_stops Ref.calcExplicitValence Ref.calcImplicitValence
              Ref.isEarlyAtom [(0, 0); (1, 1)]%nat 1 Ref.hydroxide_chloride
              ltac:(lia) Hrange) as (j & _ & _ & _ & _ & _ & Hbounds).
  exact Hbounds.
Defined.

(** X12 on hydroxide and chloride: forced, both anions are tried whatever
    the quaternary charge. *)
Lemma forced_pass_tries_all_witness :
  Z.of_nat (length [(0, 0); (1, 1)]%nat) < 2 ^ 31 ∧
  ref_negPass [(0, 0); (1, 1)]%nat (initialSurplus true [(0, 0); (1, 1)]%nat 5)
    Ref.hydroxide_chloride
  = ref_negAll [(0, 0); (1, 1)]%nat Ref.hydroxide_chloride.
Proof.
  assert (Z.of_nat (length [(0, 0); (1, 1)]%nat) < 2 ^ 31) as Hlen by (simpl; lia).
  split; [exact Hlen|].
  exact (proj2 (forced_pass_tries_all Ref.calcExplicitValence Ref.calcImplicitValence
                  Ref.isEarlyAtom [(0, 0); (1, 1)]%nat 5 Ref.hydroxide_chloride Hlen)).
Defined.

(** X13 on nitrate, whose two oxygen anions are acid sites. *)
Lemma neg_list_no_repeats_witness :
  NoDup (snd <$> ([] : list (nat * nat))) ∧
  NoDup (snd <$> [(0, 0); (3, 3)]%nat) ∧
  NoDup (snd <$> buildNegAtoms Ref.nitrate [] [(0, 0); (3, 3)]%nat).
Proof.
  assert (NoDup (snd <$> ([] : list (nat * nat)))) as Hn by constructor.
  assert (NoDup (snd <$> [(0, 0); (3, 3)]%nat)) as Ha.
  { apply (bool_decide_unpack _). by vm_compute. }
  split; [exact Hn|]. split; [exact Ha|].
  exact (proj1 (neg_list_no_repeats Ref.nitrate [] [(0, 0); (3, 3)]%nat Hn Ha)).
Defined.

(** X16 on the glycine zwitterion: the methylene carbon (atom 1) is not
    listed and comes out untouched. *)
Lemma uncharge_frame_witness :
  (1%nat ∉ snd <$> neg_atoms (ref_accounting (ref_uncharger true false)
                               (ref_ensurePropertyCache Ref.glycine_zwitterion))) ∧
  (1%nat ∉ matchedAtoms (p_matches (ref_accounting (ref_uncharger true false)
                                     (ref_ensurePropertyCache Ref.glycine_zwitterion)))) ∧
  atoms (ref_unchargeInPlace (ref_uncharger true false) Ref.glycine_zwitterion) !! 1%nat
  = atoms (ref_ensurePropertyCache Ref.glycine_zwitterion) !! 1%nat.
Proof.
  assert (1%nat ∉ snd <$> neg_atoms (ref_accounting (ref_uncharger true false)
                              (ref_ensurePropertyCache Ref.glycine_zwitterion))) as Hneg.
  { apply (bool_decide_unpack _). by vm_compute. }
  assert (1%nat ∉ matchedAtoms (p_matches (ref_accounting (ref_uncharger true false)
                                    (ref_ensurePropertyCache Ref.glycine_zwitterion))))
    as Hpos.
  { apply (bool_decide_unpack _). by vm_compute. }
  split; [exact Hneg|]. split; [exact Hpos|].
  exact (uncharge_frame _ _ _ _ _ _ _ _ _ Hneg Hpos).
Defined.

(** X18 on the glycine zwitterion, the reference valence model computing
    an implicit valence of zero. *)
Lemma uncharge_hydrogens_nonneg_witness :
  (∀ mol idx, 0 ≤ Ref.calcImplicitValence mol idx) ∧
  hydrogensNonneg (ref_ensurePropertyCache Ref.glycine_zwitterion) ∧
  hydrogensNonneg (ref_unchargeInPlace (ref_uncharger true false)
                     (ref_ensurePropertyCache Ref.glycine_zwitterion)).
Proof.
  assert (∀ mol idx, 0 ≤ Ref.calcImplicitValence mol idx) as Hcalc by done.
  assert (hydrogensNonneg (ref_ensurePropertyCache Ref.glycine_zwitterion)) as Hmol.
  { apply hydrogensNonneg_Forall. repeat constructor; by vm_compute. }
  split; [exact Hcalc|]. split; [exact Hmol|].
  exact (proj1 (uncharge_hydrogens_nonneg Ref.Pattern Ref.SubstructMatches
                  Ref.calcExplicitValence Ref.calcImplicitValence Ref.isEarlyAtom
                  Ref.rankMolAtoms Hcalc (ref_uncharger true false) _ Hmol)).
Defined.
